(** * Depth<SIZE>: the bounded, sorted market-depth window of liquibook

    A shallow embedding of [src/book/depth.h].  The class owns one array
    [levels_[SIZE*2]]: slots [0 .. SIZE-1] are the bid run, slots
    [SIZE .. 2*SIZE-1] the ask run.  Pointers into the array are modelled
    as integer indices, the array as a list that is read and written by
    index, and every member function as a function from the array before
    the call to the array after it (plus the returned value). *)

From Stdlib Require Import ZArith Bool String.
From stdpp Require Import base list.

Local Open Scope Z_scope.

(** ** Types and constants of [base/types.h] *)

(** Modelled from the spec: [base/types.h] is missing, so the widths of
    [Price] and [Quantity] are unknown.  Depth only compares prices, so an
    unbounded integer covers every integral [Price] type. *)
Definition Price := Z.
Definition Quantity := Z.

(** Modelled from the spec: the constant [INVALID_LEVEL_PRICE] of the
    missing [base/types.h].  The constructor zero-fills the array and the
    spec says a fresh instance has every slot at the unused sentinel, so
    the sentinel is the all-zero price. *)
Definition INVALID_LEVEL_PRICE : Price := 0.

(** ** DepthLevel *)

(** Modelled from the spec: class [DepthLevel] of the missing
    [depth_level.h], called PriceLevel in the spec: a price, an order
    count and an aggregate quantity. *)
Record DepthLevel := mkDepthLevel {
  price_ : Price;
  order_count_ : Z;
  aggregate_qty_ : Quantity
}.

(** Modelled from the spec: [DepthLevel::price()]. *)
Definition price (l : DepthLevel) : Price := price_ l.

(** Modelled from the spec: [DepthLevel::init(price)] resets the slot to
    the given price with zero aggregate quantity and zero order count. *)
Definition init (p : Price) : DepthLevel := mkDepthLevel p 0 0.

(** Modelled from the spec: [DepthLevel::add_order(qty)] records a new
    order's quantity and increments the order count. *)
Definition add_order (qty : Quantity) (l : DepthLevel) : DepthLevel :=
  mkDepthLevel (price_ l) (order_count_ l + 1) (aggregate_qty_ l + qty).

(** Modelled from the spec: [DepthLevel::close_order(qty)] removes one
    order's quantity, decrements the order count and returns true iff the
    count reached zero. *)
Definition close_order (qty : Quantity) (l : DepthLevel) : DepthLevel * bool :=
  let l' := mkDepthLevel (price_ l) (order_count_ l - 1) (aggregate_qty_ l - qty) in
  (l', order_count_ l' =? 0).

(** Modelled from the spec: [DepthLevel::increase_qty(delta)] and
    [DepthLevel::decrease_qty(delta)] adjust the aggregate quantity and
    leave the order count alone. *)
Definition increase_qty (delta : Quantity) (l : DepthLevel) : DepthLevel :=
  mkDepthLevel (price_ l) (order_count_ l) (aggregate_qty_ l + delta).

Definition decrease_qty (delta : Quantity) (l : DepthLevel) : DepthLevel :=
  mkDepthLevel (price_ l) (order_count_ l) (aggregate_qty_ l - delta).

(** The all-zero slot that [memset] leaves behind. *)
Definition zeroed : DepthLevel := mkDepthLevel 0 0 0.

#[global] Instance DepthLevel_inhabited : Inhabited DepthLevel := populate zeroed.

(** ** The array and its pointers *)

(** [levels_]: the only data member of [Depth]. *)
Abbreviation Depth := (list DepthLevel).

(** [*p] for a pointer [p = levels_ + i].  The member functions only
    dereference pointers into [levels_] (slots [0 .. 2*SIZE-1]), so the
    value given outside the array is never looked at. *)
Definition deref (d : Depth) (i : Z) : DepthLevel := d !!! Z.to_nat i.

(** [*p = l] for a pointer [p = levels_ + i]. *)
Definition assign (d : Depth) (i : Z) (l : DepthLevel) : Depth :=
  <[Z.to_nat i := l]> d.

(** What a call can do: return a value or throw [std::runtime_error]. *)
Inductive outcome (A : Type) : Type :=
| Returns (a : A)
| Throws (what : string).
Arguments Returns {A} a.
Arguments Throws {A} what.

Section Depth.

(** The template parameter. *)
Variable SIZE : Z.

(** The two market-order sort sentinels of the missing [base/types.h];
    only the restoration queries mention them. *)
Variable MARKET_ORDER_BID_SORT_PRICE : Price.
Variable MARKET_ORDER_ASK_SORT_PRICE : Price.

(** [Depth::Depth()]: [memset(levels_, 0, sizeof(DepthLevel) * SIZE * 2)]. *)
Definition Depth_new : Depth := replicate (Z.to_nat (SIZE * 2)) zeroed.

Definition bids : Z := 0.
Definition asks : Z := SIZE.
Definition last_bid_level : Z := SIZE - 1.
Definition last_ask_level : Z := SIZE * 2 - 1.
Definition end_ : Z := SIZE * 2.

(** The loop of [insert_level_before]:
    [while (current_level >= level) { *(current_level + 1) = *current_level; --current_level; }].
    [n] bounds the number of iterations; [insert_level_before] passes
    the exact trip count ([shift_down_deref] shows the loop ends by its
    test). *)
Fixpoint shift_down (n : nat) (current_level level : Z) (d : Depth) : Depth :=
  match n with
  | O => d
  | S n' =>
      if current_level >=? level
      then shift_down n' (current_level - 1) level
             (assign d (current_level + 1) (deref d current_level))
      else d
  end.

(** [Depth::insert_level_before(level, last_level, price)]. *)
Definition insert_level_before (level last_level : Z) (p : Price) (d : Depth) : Depth :=
  let current_level := last_level - 1 in
  let d' := shift_down (Z.to_nat (last_level - level)) current_level level d in
  assign d' level (init p).

(** The loop of [erase_level]:
    [while (level < last_level) { *level = *(level + 1); ++level; }].
    [n] bounds the number of iterations; [erase_level] passes the exact
    trip count ([shift_up_deref] shows the loop ends by its test). *)
Fixpoint shift_up (n : nat) (level last_level : Z) (d : Depth) : Depth :=
  match n with
  | O => d
  | S n' =>
      if level <? last_level
      then shift_up n' (level + 1) last_level
             (assign d level (deref d (level + 1)))
      else d
  end.

(** [Depth::erase_level(level, last_level)]. *)
Definition erase_level (level last_level : Z) (d : Depth) : Depth :=
  let d' := shift_up (Z.to_nat (last_level - level)) level last_level d in
  assign d' last_level (init INVALID_LEVEL_PRICE).

(** The scan of [find_bid], started at pointer [bid] with [n] slots left
    before [past_end]: [for (...; bid != past_end; ++bid)] leaves the loop
    at [past_end] after exactly that many steps without a [break], and
    [None] stands for the pointer having reached [past_end].  ([SIZE < 0]
    does not compile, [levels_] would have a negative size.) *)
Fixpoint find_bid_from (n : nat) (bid : Z) (p : Price) (should_create : bool)
    (d : Depth) : option Z * Depth :=
  match n with
  | O => (None, d)
  | S n' =>
      if price (deref d bid) =? p then (Some bid, d)
      else if should_create && (price (deref d bid) =? INVALID_LEVEL_PRICE)
      then (Some bid, assign d bid (init p))
      else if should_create && (price (deref d bid) <? p)
      then (Some bid, insert_level_before bid last_bid_level p d)
      else find_bid_from n' (bid + 1) p should_create d
  end.

(** [Depth::find_bid(price, should_create)]: the level found or created,
    or [None] for NULL. *)
Definition find_bid (p : Price) (should_create : bool) (d : Depth) : option Z * Depth :=
  find_bid_from (Z.to_nat (asks - bids)) bids p should_create d.

(** The scan of [find_ask]. *)
Fixpoint find_ask_from (n : nat) (ask : Z) (p : Price) (should_create : bool)
    (d : Depth) : option Z * Depth :=
  match n with
  | O => (None, d)
  | S n' =>
      if price (deref d ask) =? p then (Some ask, d)
      else if should_create && (price (deref d ask) =? INVALID_LEVEL_PRICE)
      then (Some ask, assign d ask (init p))
      else if should_create && (price (deref d ask) >? p)
      then (Some ask, insert_level_before ask last_ask_level p d)
      else find_ask_from n' (ask + 1) p should_create d
  end.

(** [Depth::find_ask(price, should_create)]. *)
Definition find_ask (p : Price) (should_create : bool) (d : Depth) : option Z * Depth :=
  find_ask_from (Z.to_nat (end_ - asks)) asks p should_create d.

(** [Depth::add_bid(price, qty)]. *)
Definition add_bid (p : Price) (qty : Quantity) (d : Depth) : Depth :=
  match find_bid p true d with
  | (Some level, d') => assign d' level (add_order qty (deref d' level))
  | (None, d') => d'
  end.

(** [Depth::close_bid(price, qty)]: the array afterwards and the returned flag. *)
Definition close_bid (p : Price) (qty : Quantity) (d : Depth) : Depth * bool :=
  match find_bid p false d with
  | (Some level, d') =>
      let '(l, empty) := close_order qty (deref d' level) in
      let d'' := assign d' level l in
      if empty then (erase_level level last_bid_level d'', true)
      else (d'', false)
  | (None, d') => (d', false)
  end.

(** [Depth::increase_bid(price, qty_increase)]. *)
Definition increase_bid (p : Price) (qty_increase : Quantity) (d : Depth) : Depth :=
  match find_bid p false d with
  | (Some level, d') => assign d' level (increase_qty qty_increase (deref d' level))
  | (None, d') => d'
  end.

(** [Depth::decrease_bid(price, qty_decrease)]. *)
Definition decrease_bid (p : Price) (qty_decrease : Quantity) (d : Depth) : Depth :=
  match find_bid p false d with
  | (Some level, d') => assign d' level (decrease_qty qty_decrease (deref d' level))
  | (None, d') => d'
  end.

(** [Depth::add_ask(price, qty)]. *)
Definition add_ask (p : Price) (qty : Quantity) (d : Depth) : Depth :=
  match find_ask p true d with
  | (Some level, d') => assign d' level (add_order qty (deref d' level))
  | (None, d') => d'
  end.

(** [Depth::close_ask(price, qty)]. *)
Definition close_ask (p : Price) (qty : Quantity) (d : Depth) : Depth * bool :=
  match find_ask p false d with
  | (Some level, d') =>
      let '(l, empty) := close_order qty (deref d' level) in
      let d'' := assign d' level l in
      if empty then (erase_level level last_ask_level d'', true)
      else (d'', false)
  | (None, d') => (d', false)
  end.

(** [Depth::increase_ask(price, qty_increase)]. *)
Definition increase_ask (p : Price) (qty_increase : Quantity) (d : Depth) : Depth :=
  match find_ask p false d with
  | (Some level, d') => assign d' level (increase_qty qty_increase (deref d' level))
  | (None, d') => d'
  end.

(** [Depth::decrease_ask(price, qty_decrease)]. *)
Definition decrease_ask (p : Price) (qty_decrease : Quantity) (d : Depth) : Depth :=
  match find_ask p false d with
  | (Some level, d') => assign d' level (decrease_qty qty_decrease (deref d' level))
  | (None, d') => d'
  end.

(** [Depth::needs_bid_restoration(restoration_price)]: the returned flag
    together with the value written to the out-parameter, or the
    exception of the last line. *)
Definition needs_bid_restoration (d : Depth) : outcome (bool * Price) :=
  if SIZE >? 1 then
    let restoration_price := price (deref d (last_bid_level - 1)) in
    Returns (negb (restoration_price =? INVALID_LEVEL_PRICE), restoration_price)
  else if SIZE =? 1 then
    Returns (true, MARKET_ORDER_BID_SORT_PRICE)
  else Throws "Depth size less than one not allowed".

(** [Depth::needs_ask_restoration(restoration_price)]. *)
Definition needs_ask_restoration (d : Depth) : outcome (bool * Price) :=
  if SIZE >? 1 then
    let restoration_price := price (deref d (last_ask_level - 1)) in
    Returns (negb (restoration_price =? INVALID_LEVEL_PRICE), restoration_price)
  else if SIZE =? 1 then
    Returns (true, MARKET_ORDER_ASK_SORT_PRICE)
  else Throws "Depth size less than one not allowed".

End Depth.

(** ** Sequences of calls *)

(** The eight mutators of the public interface. *)
Inductive mutator : Type :=
| AddBid (p : Price) (qty : Quantity)
| CloseBid (p : Price) (qty : Quantity)
| IncreaseBid (p : Price) (qty : Quantity)
| DecreaseBid (p : Price) (qty : Quantity)
| AddAsk (p : Price) (qty : Quantity)
| CloseAsk (p : Price) (qty : Quantity)
| IncreaseAsk (p : Price) (qty : Quantity)
| DecreaseAsk (p : Price) (qty : Quantity).

(** One mutator call on the array. *)
Definition mutate (SIZE : Z) (d : Depth) (m : mutator) : Depth :=
  match m with
  | AddBid p q => add_bid SIZE p q d
  | CloseBid p q => fst (close_bid SIZE p q d)
  | IncreaseBid p q => increase_bid SIZE p q d
  | DecreaseBid p q => decrease_bid SIZE p q d
  | AddAsk p q => add_ask SIZE p q d
  | CloseAsk p q => fst (close_ask SIZE p q d)
  | IncreaseAsk p q => increase_ask SIZE p q d
  | DecreaseAsk p q => decrease_ask SIZE p q d
  end.

(** The calls applied in order to a freshly constructed instance. *)
Definition run (SIZE : Z) (ms : list mutator) : Depth :=
  foldl (mutate SIZE) (Depth_new SIZE) ms.

(** The prices of a run of the array: [len] slots from slot [from]. *)
Definition prices (d : Depth) (from : Z) (len : Z) : list Price :=
  map (fun i => price (deref d (from + Z.of_nat i))) (seq 0 (Z.to_nat len)).

(** ** Predicates on the array *)

Definition len (d : Depth) : Z := Z.of_nat (length d).

Definition slot_price (d : Depth) (i : Z) : Price := price (deref d i).

(** The valid prices of the bid run strictly decrease. *)
Definition bids_strictly_descending (SIZE : Z) (d : Depth) : Prop :=
  ∀ i j, 0 ≤ i → i < j → j < SIZE →
    slot_price d i ≠ INVALID_LEVEL_PRICE →
    slot_price d j ≠ INVALID_LEVEL_PRICE →
    slot_price d i > slot_price d j.

(** The valid prices of the ask run strictly increase. *)
Definition asks_strictly_ascending (SIZE : Z) (d : Depth) : Prop :=
  ∀ i j, SIZE ≤ i → i < j → j < SIZE * 2 →
    slot_price d i ≠ INVALID_LEVEL_PRICE →
    slot_price d j ≠ INVALID_LEVEL_PRICE →
    slot_price d i < slot_price d j.

(** In slots [lo .. hi-1] no valid slot follows a sentinel slot. *)
Definition contiguous_prefix (d : Depth) (lo hi : Z) : Prop :=
  ∀ i j, lo ≤ i → i < j → j < hi →
    slot_price d i = INVALID_LEVEL_PRICE →
    slot_price d j = INVALID_LEVEL_PRICE.

(** Slots [lo .. hi-1] are all valid: the run is full. *)
Definition full_run (d : Depth) (lo hi : Z) : Prop :=
  ∀ k, lo ≤ k → k < hi → slot_price d k ≠ INVALID_LEVEL_PRICE.

(** Slots [lo .. hi-1] hold exactly [c] valid levels, in front. *)
Definition valid_levels (d : Depth) (lo hi : Z) (c : Z) : Prop :=
  0 ≤ c ≤ hi - lo ∧
  (∀ k, lo ≤ k → k < lo + c → slot_price d k ≠ INVALID_LEVEL_PRICE) ∧
  (∀ k, lo + c ≤ k → k < hi → slot_price d k = INVALID_LEVEL_PRICE).

(** No valid slot of [lo .. hi-1] has price [p]. *)
Definition untracked (d : Depth) (lo hi : Z) (p : Price) : Prop :=
  ∀ k, lo ≤ k → k < hi →
    slot_price d k ≠ INVALID_LEVEL_PRICE → slot_price d k ≠ p.

(** Slot [i] is the first slot of [lo .. hi-1] with price [p]. *)
Definition first_at_price (d : Depth) (lo hi : Z) (p : Price) (i : Z) : Prop :=
  lo ≤ i < hi ∧ slot_price d i = p ∧
  ∀ k, lo ≤ k → k < i → slot_price d k ≠ p.

(** [d'] is [d] with slot [i] of the run [.. last] removed by shift
    compaction: the following slots move one position toward the better
    end and the last slot is blank; everything else is as before. *)
Definition erased_at (d d' : Depth) (last i : Z) : Prop :=
  length d' = length d ∧
  ∀ k, 0 ≤ k → k < len d →
    deref d' k =
      if decide (k = last) then init INVALID_LEVEL_PRICE
      else if decide (i ≤ k < last) then deref d (k + 1)
      else deref d k.

(** [d'] is [d] with a level [l] put in at slot [i] of the run
    [.. last]: the slots from [i] on move one position toward the worse
    end and what was in the last slot is gone. *)
Definition inserted_at (d d' : Depth) (last i : Z) (l : DepthLevel) : Prop :=
  length d' = length d ∧
  ∀ k, 0 ≤ k → k < len d →
    deref d' k =
      if decide (k = i) then l
      else if decide (i < k ≤ last) then deref d (k - 1)
      else deref d k.

(** A sequence of calls in which no add is given the sentinel price. *)
Definition adds_priced (ms : list mutator) : Prop :=
  Forall (fun m => match m with
                   | AddBid p _ | AddAsk p _ => p ≠ INVALID_LEVEL_PRICE
                   | _ => True
                   end) ms.

(** ** The common shape of the two scans

    [find_bid] and [find_ask] are one loop up to the comparison and the
    last slot of the run.  [find_from] is that loop; [find_bid_from] and
    [find_ask_from] are shown equal to it below, so that each property
    of the scan is proved once. *)

Section scan.

Variable worse : Price → Price → bool.
Variable last_level : Z.

Fixpoint find_from (n : nat) (cur : Z) (p : Price) (should_create : bool)
    (d : Depth) : option Z * Depth :=
  match n with
  | O => (None, d)
  | S n' =>
      if price (deref d cur) =? p then (Some cur, d)
      else if should_create && (price (deref d cur) =? INVALID_LEVEL_PRICE)
      then (Some cur, assign d cur (init p))
      else if should_create && worse (price (deref d cur)) p
      then (Some cur, insert_level_before cur last_level p d)
      else find_from n' (cur + 1) p should_create d
  end.

(** The scan stops at a slot of price [a]. *)
Definition stops (p : Price) (should_create : bool) (a : Price) : bool :=
  (a =? p) || should_create && ((a =? INVALID_LEVEL_PRICE) || worse a p).

(** What the scan does to the array when it stops at slot [i]. *)
Definition on_stop (p : Price) (should_create : bool) (i : Z) (d : Depth) : Depth :=
  if slot_price d i =? p then d
  else if should_create && (slot_price d i =? INVALID_LEVEL_PRICE)
  then assign d i (init p)
  else insert_level_before i last_level p d.

(** The run [lo .. hi-1] in order: a later valid slot has only valid
    and strictly better slots before it. *)
Definition ordered_run (d : Depth) (lo hi : Z) : Prop :=
  ∀ i j, lo ≤ i → i < j → j < hi →
    slot_price d j ≠ INVALID_LEVEL_PRICE →
    slot_price d i ≠ INVALID_LEVEL_PRICE ∧
    worse (slot_price d j) (slot_price d i) = true.

End scan.

(** The body shared by add, increase and decrease: apply [f] to the
    level [find] returned, if any. *)
Definition update_found (f : DepthLevel → DepthLevel) (r : option Z * Depth) : Depth :=
  match r with
  | (Some level, d') => assign d' level (f (deref d' level))
  | (None, d') => d'
  end.

(** The body shared by close_bid and close_ask. *)
Definition close_found (last_level : Z) (qty : Quantity) (r : option Z * Depth) : Depth * bool :=
  match r with
  | (Some level, d') =>
      let '(l, empty) := close_order qty (deref d' level) in
      let d'' := assign d' level l in
      if empty then (erase_level level last_level d'', true)
      else (d'', false)
  | (None, d') => (d', false)
  end.

(** The data-model invariant of the whole array. *)
Definition well_formed (SIZE : Z) (d : Depth) : Prop :=
  len d = SIZE * 2 ∧
  ordered_run Z.ltb d 0 SIZE ∧
  ordered_run Z.gtb d SIZE (SIZE * 2).

(** [p] is strictly better than the worst tracked level of the run, the
    one in its last valid slot (an empty run has none to beat). *)
Definition beats_worst (worse : Price → Price → bool) (d : Depth) (lo hi : Z)
    (p : Price) : Prop :=
  ∀ k, lo ≤ k → k < hi →
    slot_price d k ≠ INVALID_LEVEL_PRICE →
    k + 1 = hi ∨ slot_price d (k + 1) = INVALID_LEVEL_PRICE →
    worse (slot_price d k) p = true.

(** A sequence of adds on one side, in order. *)
Definition add_all (add : Price → Quantity → Depth → Depth) (d : Depth)
    (adds : list (Price * Quantity)) : Depth :=
  foldl (fun d a => add a.1 a.2 d) d adds.

(** Each price of the sequence is, when its turn comes, strictly better
    than the worst level then tracked in the run. *)
Fixpoint inserts_beat_worst (worse : Price → Price → bool)
    (add : Price → Quantity → Depth → Depth) (lo hi : Z) (d : Depth)
    (adds : list (Price * Quantity)) : Prop :=
  match adds with
  | [] => True
  | a :: rest =>
      beats_worst worse d lo hi a.1 ∧
      inserts_beat_worst worse add lo hi (add a.1 a.2 d) rest
  end.

(** ** Calls with their outcome *)

Inductive request : Type :=
| Mutator (m : mutator)
| NeedsBidRestoration
| NeedsAskRestoration.

Inductive reply : Type :=
| NoValue
| Flag (b : bool)
| Restoration (b : bool) (restoration_price : Price).

(** One call of the public interface: the array afterwards and the
    value handed back, or the exception. *)
Definition call (SIZE : Z) (market_bid market_ask : Price) (r : request) (d : Depth)
    : outcome (Depth * reply) :=
  match r with
  | Mutator (CloseBid p q) =>
      let '(d', b) := close_bid SIZE p q d in Returns (d', Flag b)
  | Mutator (CloseAsk p q) =>
      let '(d', b) := close_ask SIZE p q d in Returns (d', Flag b)
  | Mutator m => Returns (mutate SIZE d m, NoValue)
  | NeedsBidRestoration =>
      match needs_bid_restoration SIZE market_bid d with
      | Returns (b, rp) => Returns (d, Restoration b rp)
      | Throws what => Throws what
      end
  | NeedsAskRestoration =>
      match needs_ask_restoration SIZE market_ask d with
      | Returns (b, rp) => Returns (d, Restoration b rp)
      | Throws what => Throws what
      end
  end.

(** [Depth<SIZE> depth;]: the constructor has no throw statement. *)
Definition construct (SIZE : Z) : outcome Depth := Returns (Depth_new SIZE).

(** ** Further predicates *)

Definition mutator_price (m : mutator) : Price :=
  match m with
  | AddBid p _ | CloseBid p _ | IncreaseBid p _ | DecreaseBid p _
  | AddAsk p _ | CloseAsk p _ | IncreaseAsk p _ | DecreaseAsk p _ => p
  end.

(** A sequence of calls none of which is given the sentinel price. *)
Definition all_priced (ms : list mutator) : Prop :=
  Forall (fun m => mutator_price m ≠ INVALID_LEVEL_PRICE) ms.

(** In slots [lo .. hi-1] every unused slot is all-zero and every valid
    slot counts at least one order. *)
Definition tidy_run (d : Depth) (lo hi : Z) : Prop :=
  ∀ k, lo ≤ k → k < hi →
    (slot_price d k = INVALID_LEVEL_PRICE → deref d k = zeroed) ∧
    (slot_price d k ≠ INVALID_LEVEL_PRICE → 1 ≤ order_count_ (deref d k)).

(** ** The performance test, [test/perf/pt_order_book.cpp] *)

(** The arguments of [new impl::SimpleOrder(is_buy, price, qty)]. *)
Record SimpleOrder := mkSimpleOrder {
  order_is_buy : bool;
  order_price : Price;
  order_qty : Quantity
}.

(** The body of the loop of [build_and_run_test] that makes order [i]:
    [rand1] and [rand2] are the results of its two calls of [rand()],
    [Z.rem] is the [%] of C. *)
Definition make_order (i rand1 rand2 : Z) : SimpleOrder :=
  let is_buy := Z.rem i 2 =? 0 in
  let delta := if is_buy then 1880 else 1884 in
  let price := Z.rem rand1 10 + delta in
  let qty := (Z.rem rand2 10 + 1) * 100 in
  mkSimpleOrder is_buy price qty.

Section run_test.

(** The order book and its orders are not part of these sources:
    [add_order_to_book book o] stands for [order_book.add(o)] followed by
    [order_book.perform_callbacks()], and [clock k] for the value of the
    call number [k] of [clock()].  [INT_MAX] is the largest [int] of the
    platform. *)
Variables OrderBook Order : Type.
Variable add_order_to_book : OrderBook → Order → OrderBook.
Variable clock : nat → Z.
Variable end_time : Z.
Variable INT_MAX : Z.

(** The conversion of the pointer difference [pp_order - orders] to the
    [int] that [run_test] returns: reduction modulo the number of [int]
    values, [2 * (INT_MAX + 1)]. *)
Definition to_int (z : Z) : Z :=
  (z + (INT_MAX + 1)) mod (2 * (INT_MAX + 1)) - (INT_MAX + 1).

(** The do-while loop of [run_test], entered with [pp_order - orders]
    equal to [pp_order] and pointing at the order [o], the orders [rest]
    between it and the final NULL, the [int] variable [count] and [k]
    calls of [clock()] made.  The result is the order book afterwards and
    the returned [int]; [None] is [++count] overflowing [int], which is
    undefined. *)
Fixpoint run_test_from (order_book : OrderBook) (o : Order) (rest : list Order)
    (k : nat) (pp_order count : Z) : option (OrderBook * Z) :=
  let order_book := add_order_to_book order_book o in
  let pp_order := pp_order + 1 in
  match rest with
  | [] => Some (order_book, -1)
  | o' :: rest' =>
      if count + 1 >? INT_MAX then None
      else
        let count := count + 1 in
        if clock k <? end_time
        then run_test_from order_book o' rest' (S k) pp_order count
        else Some (order_book, to_int pp_order)
  end.

(** [run_test(order_book, orders, end)] on the array [o; rest...; NULL]. *)
Definition run_test (order_book : OrderBook) (o : Order) (rest : list Order)
    : option (OrderBook * Z) :=
  run_test_from order_book o rest 0 0 0.

End run_test.

(** * Reading and writing the array *)

Lemma length_assign (d : Depth) i l : length (assign d i l) = length d.
Proof. apply length_insert. Qed.

Lemma len_assign (d : Depth) i l : len (assign d i l) = len d.
Proof. unfold len. by rewrite length_assign. Qed.

Lemma deref_assign (d : Depth) i k l :
  0 ≤ i < len d → 0 ≤ k →
  deref (assign d i l) k = if decide (k = i) then l else deref d k.
Proof.
  unfold len, deref, assign. intros Hi Hk. case_decide as Hki.
  - subst k. apply list_lookup_total_insert_eq. lia.
  - apply list_lookup_total_insert_ne. lia.
Qed.

Lemma deref_assign_outside (d : Depth) i k l :
  0 ≤ i → 0 ≤ k → k ≠ i → deref (assign d i l) k = deref d k.
Proof.
  unfold deref, assign. intros Hi Hk Hki.
  apply list_lookup_total_insert_ne. lia.
Qed.

Lemma assign_deref_same (d : Depth) i : assign d i (deref d i) = d.
Proof.
  unfold assign, deref. destruct (decide (Z.to_nat i < length d)%nat) as [Hlt|Hge].
  - apply list_insert_id. by apply list_lookup_lookup_total_lt.
  - apply list_insert_ge. lia.
Qed.

(** Two arrays of the same length with the same slots are the same array. *)
Lemma Depth_ext (d1 d2 : Depth) :
  length d1 = length d2 →
  (∀ k, 0 ≤ k < len d1 → deref d1 k = deref d2 k) →
  d1 = d2.
Proof.
  intros Hlen Hk. apply list_eq. intros n.
  destruct (decide (n < length d1)%nat) as [Hlt|Hge].
  - rewrite (list_lookup_lookup_total_lt d1), (list_lookup_lookup_total_lt d2) by lia.
    f_equal. specialize (Hk (Z.of_nat n)). unfold deref, len in Hk.
    rewrite Nat2Z.id in Hk. apply Hk. lia.
  - rewrite !lookup_ge_None_2; [done | lia | lia].
Qed.

Lemma len_Depth_new SIZE : 0 ≤ SIZE → len (Depth_new SIZE) = SIZE * 2.
Proof. intros H. unfold len, Depth_new. rewrite length_replicate. lia. Qed.

Lemma deref_Depth_new SIZE k : deref (Depth_new SIZE) k = zeroed.
Proof.
  unfold deref, Depth_new. rewrite list_lookup_total_alt.
  destruct (replicate _ _ !! _) as [x|] eqn:E; [|done].
  apply lookup_replicate in E. by destruct E.
Qed.

(** * The two shift loops *)

Lemma length_shift_down n cur lvl d :
  length (shift_down n cur lvl d) = length d.
Proof.
  revert cur d. induction n as [|n IH]; intros cur d; simpl; [done|].
  destruct (cur >=? lvl); [|done]. by rewrite IH, length_assign.
Qed.

(** With at least the trip count as bound, the loop of
    [insert_level_before] runs until its condition fails: slots
    [lvl+1 .. cur+1] receive their left neighbour, the rest is untouched. *)
Lemma shift_down_deref n cur lvl d k :
  0 ≤ lvl → (Z.to_nat (cur - lvl + 1) ≤ n)%nat → cur + 1 < len d → 0 ≤ k →
  deref (shift_down n cur lvl d) k =
    if decide (lvl < k ≤ cur + 1) then deref d (k - 1) else deref d k.
Proof.
  intros Hlvl. revert cur d. induction n as [|n IH]; intros cur d Hn Hlen Hk; simpl.
  - destruct (decide _); [lia|done].
  - rewrite Z.geb_leb. destruct (Z.leb_spec lvl cur) as [Hle|Hgt].
    + rewrite IH; [|lia|rewrite len_assign; lia|done].
      destruct (decide (lvl < k ≤ cur - 1 + 1)), (decide (lvl < k ≤ cur + 1));
        try lia.
      * rewrite deref_assign_outside; [done|lia..].
      * rewrite deref_assign by lia.
        destruct (decide (k = cur + 1)); [subst k; f_equal; lia|lia].
      * rewrite deref_assign_outside; [done|lia..].
    + destruct (decide _); [lia|done].
Qed.

Lemma length_insert_level_before lvl last p d :
  length (insert_level_before lvl last p d) = length d.
Proof. unfold insert_level_before. by rewrite length_assign, length_shift_down. Qed.

(** [insert_level_before] slot by slot. *)
Lemma insert_level_before_deref lvl last p d k :
  0 ≤ lvl ≤ last → last < len d → 0 ≤ k →
  deref (insert_level_before lvl last p d) k =
    if decide (k = lvl) then init p
    else if decide (lvl < k ≤ last) then deref d (k - 1)
    else deref d k.
Proof.
  intros Hlvl Hlast Hk. unfold insert_level_before.
  rewrite deref_assign; [|unfold len; rewrite length_shift_down; fold (len d); lia|done].
  case_decide; [done|].
  rewrite shift_down_deref; [|lia..].
  replace (last - 1 + 1) with last by lia. done.
Qed.

Lemma length_shift_up n lvl last d :
  length (shift_up n lvl last d) = length d.
Proof.
  revert lvl d. induction n as [|n IH]; intros lvl d; simpl; [done|].
  destruct (lvl <? last); [|done]. by rewrite IH, length_assign.
Qed.

(** The loop of [erase_level], with at least its trip count as bound:
    slots [lvl .. last-1] receive their right neighbour. *)
Lemma shift_up_deref n lvl last d k :
  0 ≤ lvl → (Z.to_nat (last - lvl) ≤ n)%nat → last < len d → 0 ≤ k →
  deref (shift_up n lvl last d) k =
    if decide (lvl ≤ k < last) then deref d (k + 1) else deref d k.
Proof.
  revert lvl d. induction n as [|n IH]; intros lvl d Hlvl Hn Hlen Hk; simpl.
  - destruct (decide _); [lia|done].
  - destruct (Z.ltb_spec lvl last) as [Hlt|Hge].
    + rewrite IH; [|lia|lia|rewrite len_assign; lia|done].
      destruct (decide (lvl + 1 ≤ k < last)), (decide (lvl ≤ k < last));
        try lia.
      * rewrite deref_assign_outside; [done|lia..].
      * rewrite deref_assign by lia.
        destruct (decide (k = lvl)); [by subst k|lia].
      * rewrite deref_assign_outside; [done|lia..].
    + destruct (decide _); [lia|done].
Qed.

Lemma length_erase_level lvl last d :
  length (erase_level lvl last d) = length d.
Proof. unfold erase_level. by rewrite length_assign, length_shift_up. Qed.

(** [erase_level] slot by slot. *)
Lemma erase_level_deref lvl last d k :
  0 ≤ lvl ≤ last → last < len d → 0 ≤ k →
  deref (erase_level lvl last d) k =
    if decide (k = last) then init INVALID_LEVEL_PRICE
    else if decide (lvl ≤ k < last) then deref d (k + 1)
    else deref d k.
Proof.
  intros Hlvl Hlast Hk. unfold erase_level.
  rewrite deref_assign; [|unfold len; rewrite length_shift_up; fold (len d); lia|done].
  case_decide; [done|].
  rewrite shift_up_deref; [done|lia..].
Qed.

(** * The scan *)

(** The first slot of a range at which a test holds, if any. *)
Lemma first_stop (Q : Z → bool) n cur :
  (∃ i, cur ≤ i < cur + Z.of_nat n ∧ Q i = true ∧
        ∀ k, cur ≤ k → k < i → Q k = false)
  ∨ (∀ k, cur ≤ k → k < cur + Z.of_nat n → Q k = false).
Proof.
  revert cur. induction n as [|n IH]; intros cur.
  - right. intros k ? ?. lia.
  - destruct (Q cur) eqn:Hcur.
    + left. exists cur. split; [lia|]. split; [done|]. intros k ? ?. lia.
    + destruct (IH (cur + 1)) as [(i & Hi & HQ & Hbefore)|Hnone].
      * left. exists i. split; [lia|]. split; [done|]. intros k ? ?.
        destruct (decide (k = cur)) as [->|]; [done|]. apply Hbefore; lia.
      * right. intros k ? ?.
        destruct (decide (k = cur)) as [->|]; [done|]. apply Hnone; lia.
Qed.

Section scan_facts.

Variable worse : Price → Price → bool.
Variable last : Z.

Lemma stops_no_create p a : stops worse p false a = (a =? p).
Proof. unfold stops. simpl. apply orb_false_r. Qed.

(** The scan returns the first slot at which it stops, after acting on it. *)
Lemma find_from_stop n cur p sc d i :
  cur ≤ i < cur + Z.of_nat n →
  stops worse p sc (slot_price d i) = true →
  (∀ k, cur ≤ k → k < i → stops worse p sc (slot_price d k) = false) →
  find_from worse last n cur p sc d = (Some i, on_stop last p sc i d).
Proof.
  revert cur. induction n as [|n IH]; intros cur Hi Hstop Hbefore; [lia|].
  simpl. destruct (decide (cur = i)) as [->|Hne].
  - unfold on_stop, stops, slot_price in *.
    destruct (price (deref d i) =? p); [done|]. simpl in Hstop.
    destruct sc; [|done]. simpl in *.
    destruct (price (deref d i) =? INVALID_LEVEL_PRICE); [done|].
    simpl in Hstop. by rewrite Hstop.
  - assert (Hcur : stops worse p sc (slot_price d cur) = false)
      by (apply Hbefore; lia).
    unfold stops, slot_price in Hcur.
    apply orb_false_elim in Hcur as [-> Hcur].
    destruct sc; simpl in *.
    + apply orb_false_elim in Hcur as [-> ->]. apply IH; [lia|done|].
      intros k ? ?. apply Hbefore; lia.
    + apply IH; [lia|done|]. intros k ? ?. apply Hbefore; lia.
Qed.

(** A scan that stops nowhere returns NULL and leaves the array alone. *)
Lemma find_from_pass n cur p sc d :
  (∀ k, cur ≤ k → k < cur + Z.of_nat n →
        stops worse p sc (slot_price d k) = false) →
  find_from worse last n cur p sc d = (None, d).
Proof.
  revert cur. induction n as [|n IH]; intros cur Hpass; [done|].
  simpl. assert (Hcur : stops worse p sc (slot_price d cur) = false)
    by (apply Hpass; lia).
  unfold stops, slot_price in Hcur.
  apply orb_false_elim in Hcur as [-> Hcur].
  destruct sc; simpl in *.
  - apply orb_false_elim in Hcur as [-> ->]. apply IH.
    intros k ? ?. apply Hpass; lia.
  - apply IH. intros k ? ?. apply Hpass; lia.
Qed.

(** Every scan is one of the two. *)
Lemma find_from_cases n cur p sc d :
  (∃ i, cur ≤ i < cur + Z.of_nat n ∧
        stops worse p sc (slot_price d i) = true ∧
        (∀ k, cur ≤ k → k < i → stops worse p sc (slot_price d k) = false) ∧
        find_from worse last n cur p sc d = (Some i, on_stop last p sc i d))
  ∨ ((∀ k, cur ≤ k → k < cur + Z.of_nat n →
           stops worse p sc (slot_price d k) = false) ∧
     find_from worse last n cur p sc d = (None, d)).
Proof.
  destruct (first_stop (fun k => stops worse p sc (slot_price d k)) n cur)
    as [(i & Hi & Hstop & Hbefore)|Hpass].
  - left. exists i. eauto using find_from_stop.
  - right. eauto using find_from_pass.
Qed.

Lemma length_on_stop p sc i d :
  length (on_stop last p sc i d) = length d.
Proof.
  unfold on_stop. destruct (_ =? _); [done|].
  destruct (_ && _); [apply length_assign|apply length_insert_level_before].
Qed.

Lemma length_find_from n cur p sc d :
  length (find_from worse last n cur p sc d).2 = length d.
Proof.
  destruct (find_from_cases n cur p sc d) as [(i & _ & _ & _ & ->)|[_ ->]];
    [apply length_on_stop|done].
Qed.

(** Acting on slot [i] touches no slot before [i] and none after [last]. *)
Lemma on_stop_outside p sc i d k :
  0 ≤ i ≤ last → last < len d → 0 ≤ k → k < i ∨ last < k →
  deref (on_stop last p sc i d) k = deref d k.
Proof.
  intros Hi Hlast Hk Hout. unfold on_stop. destruct (_ =? _); [done|].
  destruct (_ && _).
  - apply deref_assign_outside; lia.
  - rewrite insert_level_before_deref by lia.
    repeat case_decide; (done || lia).
Qed.

(** Without creation the array is never written. *)
Lemma find_from_no_create n cur p d :
  (find_from worse last n cur p false d).2 = d.
Proof.
  destruct (find_from_cases n cur p false d) as [(i & _ & Hstop & _ & ->)|[_ ->]];
    [|done].
  rewrite stops_no_create in Hstop. simpl. unfold on_stop. by rewrite Hstop.
Qed.

End scan_facts.

(** The two scans of the source are instances of [find_from]. *)
Lemma find_bid_from_eq SIZE n bid p sc d :
  find_bid_from SIZE n bid p sc d = find_from Z.ltb (SIZE - 1) n bid p sc d.
Proof.
  revert bid. induction n as [|n IH]; intros bid; [done|].
  simpl. by rewrite IH.
Qed.

Lemma find_ask_from_eq SIZE n ask p sc d :
  find_ask_from SIZE n ask p sc d = find_from Z.gtb (SIZE * 2 - 1) n ask p sc d.
Proof.
  revert ask. induction n as [|n IH]; intros ask; [done|].
  simpl. by rewrite IH.
Qed.

Lemma find_bid_eq SIZE p sc d :
  find_bid SIZE p sc d = find_from Z.ltb (SIZE - 1) (Z.to_nat SIZE) 0 p sc d.
Proof.
  unfold find_bid, asks, bids. rewrite find_bid_from_eq. by rewrite Z.sub_0_r.
Qed.

Lemma find_ask_eq SIZE p sc d :
  find_ask SIZE p sc d = find_from Z.gtb (SIZE * 2 - 1) (Z.to_nat SIZE) SIZE p sc d.
Proof.
  unfold find_ask, asks, end_. rewrite find_ask_from_eq.
  by replace (SIZE * 2 - SIZE) with SIZE by lia.
Qed.

(** * Order of a run *)

Section order_facts.

Variable worse : Price → Price → bool.
Hypothesis worse_irrefl : ∀ a, worse a a = false.
Hypothesis worse_trans :
  ∀ a b c, worse a b = true → worse b c = true → worse a c = true.
Hypothesis worse_total : ∀ a b, a ≠ b → worse a b = false → worse b a = true.

Lemma worse_asym a b : worse a b = true → worse b a = false.
Proof using worse_irrefl worse_trans.
  intros Hab. destruct (worse b a) eqn:Hba; [|done].
  by rewrite <- (worse_irrefl a), (worse_trans a b a).
Qed.

(** A slot the creating scan walks past is valid and strictly better
    than the price looked for. *)
Lemma stops_false_create p a :
  stops worse p true a = false →
  a ≠ p ∧ a ≠ INVALID_LEVEL_PRICE ∧ worse p a = true.
Proof using worse_total.
  unfold stops. simpl. intros H.
  apply orb_false_elim in H as [Hp H]. apply orb_false_elim in H as [Hinv Hw].
  apply Z.eqb_neq in Hp, Hinv. split; [done|]. split; [done|].
  by apply worse_total.
Qed.

Lemma ordered_run_same_prices d d' lo hi :
  (∀ k, lo ≤ k → k < hi → slot_price d' k = slot_price d k) →
  ordered_run worse d lo hi → ordered_run worse d' lo hi.
Proof using Type.
  intros Hsame Hord i j Hi Hij Hj. rewrite !Hsame by lia. by apply Hord.
Qed.

(** Shift compaction keeps a run in order, whichever slot is erased. *)
Lemma ordered_run_erase d lo last i :
  0 ≤ lo → lo ≤ i → i ≤ last → last < len d →
  ordered_run worse d lo (last + 1) →
  ordered_run worse (erase_level i last d) lo (last + 1).
Proof using Type.
  intros Hlo Hi Hlast Hlen Hord a b Ha Hab Hb. unfold slot_price in *.
  rewrite !erase_level_deref by lia.
  destruct (decide (b = last)) as [->|Hbl]; [done|].
  rewrite (decide_False (P := a = last)) by lia.
  destruct (decide (i ≤ a < last)), (decide (i ≤ b < last)); try lia;
    intros; apply Hord; (done || lia).
Qed.

(** The write a creating scan makes when it stops keeps the run in order,
    provided the price created is not the sentinel. *)
Lemma ordered_run_on_stop d lo last p i :
  0 ≤ lo → lo ≤ i → i ≤ last → last < len d →
  p ≠ INVALID_LEVEL_PRICE →
  ordered_run worse d lo (last + 1) →
  stops worse p true (slot_price d i) = true →
  (∀ k, lo ≤ k → k < i → stops worse p true (slot_price d k) = false) →
  ordered_run worse (on_stop last p true i d) lo (last + 1).
Proof using worse_trans worse_total.
  intros Hlo Hi Hlast Hlen Hp Hord Hstop Hbefore.
  assert (Hpast : ∀ k, lo ≤ k → k < i →
            slot_price d k ≠ INVALID_LEVEL_PRICE ∧ worse p (slot_price d k) = true).
  { intros k ? ?. destruct (stops_false_create p (slot_price d k)) as (_ & ? & ?);
      [by apply Hbefore|done]. }
  unfold on_stop, stops in *. simpl in *.
  destruct (slot_price d i =? p) eqn:Heq; [done|]. simpl in Hstop.
  destruct (slot_price d i =? INVALID_LEVEL_PRICE) eqn:Hblank; simpl in Hstop.
  - apply Z.eqb_eq in Hblank.
    intros a b Ha Hab Hb. unfold slot_price in *. rewrite !deref_assign by lia.
    destruct (decide (b = i)) as [->|Hbi].
    + rewrite decide_False by lia. intros _. apply Hpast; lia.
    + destruct (decide (a = i)) as [->|Hai].
      * intros Hvalid. destruct (Hord i b) as [Hcontra _]; (done || lia).
      * apply Hord; lia.
  - apply Z.eqb_neq in Hblank.
    intros a b Ha Hab Hb. unfold slot_price in *.
    rewrite !insert_level_before_deref by lia.
    destruct (decide (b = i)) as [->|Hbi].
    + rewrite decide_False by lia. rewrite (decide_False (P := i < a ≤ last)) by lia.
      intros _. apply Hpast; lia.
    + destruct (decide (a = i)) as [->|Hai].
      * rewrite decide_True by lia. intros Hvalid. split; [done|]. simpl.
        destruct (decide (b - 1 = i)) as [->|Hne]; [done|].
        apply worse_trans with (price (deref d i)); [|done].
        apply Hord; (done || lia).
      * destruct (decide (i < a ≤ last)), (decide (i < b ≤ last)); try lia;
          intros; apply Hord; (done || lia).
Qed.

(** After a scan that stopped at slot [i], that slot has the price. *)
Lemma slot_price_on_stop d last p sc i :
  0 ≤ i ≤ last → last < len d →
  stops worse p sc (slot_price d i) = true →
  slot_price (on_stop last p sc i d) i = p.
Proof using Type.
  intros Hi Hlen Hstop. unfold on_stop.
  destruct (slot_price d i =? p) eqn:Heq; [by apply Z.eqb_eq|].
  unfold slot_price. destruct (_ && _).
  - rewrite deref_assign by lia. by rewrite decide_True.
  - rewrite insert_level_before_deref by lia. by rewrite decide_True.
Qed.

End order_facts.

(** * The operations on one run *)

Lemma price_add_order q l : price (add_order q l) = price l.
Proof. done. Qed.

Lemma price_increase_qty q l : price (increase_qty q l) = price l.
Proof. done. Qed.

Lemma price_decrease_qty q l : price (decrease_qty q l) = price l.
Proof. done. Qed.

Lemma price_close_order q l : price (close_order q l).1 = price l.
Proof. done. Qed.

(** Rewriting a slot with a level of the same price changes no price. *)
Lemma slot_price_assign_same d i l k :
  0 ≤ i < len d → 0 ≤ k → price l = slot_price d i →
  slot_price (assign d i l) k = slot_price d k.
Proof.
  intros Hi Hk Hl. unfold slot_price in *. rewrite deref_assign by lia.
  case_decide; [by subst|done].
Qed.

Lemma on_stop_no_create worse last p i d :
  stops worse p false (slot_price d i) = true → on_stop last p false i d = d.
Proof. rewrite stops_no_create. unfold on_stop. by intros ->. Qed.

Lemma erase_level_overwrites d i last l :
  0 ≤ i ≤ last → last < len d →
  erase_level i last (assign d i l) = erase_level i last d.
Proof.
  intros Hi Hlen. apply Depth_ext.
  - by rewrite !length_erase_level, length_assign.
  - intros k Hk. unfold len in Hk. rewrite length_erase_level, length_assign in Hk.
    fold (len d) in Hk.
    rewrite !erase_level_deref by (rewrite ?len_assign; lia).
    repeat case_decide; try done; rewrite deref_assign_outside; (done || lia).
Qed.

Section run_ops.

Variable worse : Price → Price → bool.
Hypothesis worse_irrefl : ∀ a, worse a a = false.
Hypothesis worse_trans :
  ∀ a b c, worse a b = true → worse b c = true → worse a c = true.
Hypothesis worse_total : ∀ a b, a ≠ b → worse a b = false → worse b a = true.

(** The run: slots [lo .. last], [n] of them. *)
Variables (lo last : Z) (n : nat).
Hypothesis lo_nonneg : 0 ≤ lo.
Hypothesis run_size : lo + Z.of_nat n = last + 1.

Lemma length_update_found f p sc d :
  length (update_found f (find_from worse last n lo p sc d)) = length d.
Proof using Type.
  pose proof (length_find_from worse last n lo p sc d) as Hlen.
  destruct (find_from _ _ _ _ _ _ _) as [[i|] d']; simpl in *;
    by rewrite ?length_assign.
Qed.

Lemma length_close_found q p d :
  length (close_found last q (find_from worse last n lo p false d)).1 = length d.
Proof using Type.
  pose proof (length_find_from worse last n lo p false d) as Hlen.
  destruct (find_from _ _ _ _ _ _ _) as [[i|] d']; simpl in *; [|done].
  destruct (_ =? 0); simpl; by rewrite ?length_erase_level, ?length_assign.
Qed.

(** Add, increase and decrease leave every slot outside the run as it was. *)
Lemma update_found_outside f p sc d k :
  last < len d → 0 ≤ k → k < lo ∨ last < k →
  deref (update_found f (find_from worse last n lo p sc d)) k = deref d k.
Proof using lo_nonneg run_size.
  intros Hlen Hk Hout.
  destruct (find_from_cases worse last n lo p sc d)
    as [(i & Hi & _ & _ & ->)|[_ ->]]; [|done].
  simpl. rewrite deref_assign_outside by lia.
  apply on_stop_outside; lia.
Qed.

(** So does close. *)
Lemma close_found_outside q p d k :
  last < len d → 0 ≤ k → k < lo ∨ last < k →
  deref (close_found last q (find_from worse last n lo p false d)).1 k = deref d k.
Proof using lo_nonneg run_size.
  intros Hlen Hk Hout.
  destruct (find_from_cases worse last n lo p false d)
    as [(i & Hi & Hstop & _ & ->)|[_ ->]]; [|done].
  rewrite (on_stop_no_create worse) by done. simpl.
  destruct (_ =? 0); simpl.
  - rewrite erase_level_deref by (rewrite ?len_assign; lia).
    rewrite !decide_False by lia. apply deref_assign_outside; lia.
  - apply deref_assign_outside; lia.
Qed.

(** Add (with a non-sentinel price), increase and decrease keep the run
    in order. *)
Lemma update_found_ordered f p sc d :
  (∀ l, price (f l) = price l) →
  (sc = true → p ≠ INVALID_LEVEL_PRICE) →
  last < len d →
  ordered_run worse d lo (last + 1) →
  ordered_run worse (update_found f (find_from worse last n lo p sc d)) lo (last + 1).
Proof using lo_nonneg run_size worse_trans worse_total.
  intros Hf Hp Hlen Hord.
  destruct (find_from_cases worse last n lo p sc d)
    as [(i & Hi & Hstop & Hbefore & ->)|[_ ->]]; [|done].
  simpl. set (d' := on_stop last p sc i d).
  assert (Hlen' : len d' = len d) by (unfold len, d'; by rewrite length_on_stop).
  eapply ordered_run_same_prices.
  { intros k ? ?. apply slot_price_assign_same; [lia|lia|apply Hf]. }
  subst d'. destruct sc.
  - apply (ordered_run_on_stop worse worse_trans worse_total d lo); auto; lia.
  - by rewrite (on_stop_no_create worse).
Qed.

(** Close keeps the run in order, whatever the price. *)
Lemma close_found_ordered q p d :
  last < len d →
  ordered_run worse d lo (last + 1) →
  ordered_run worse (close_found last q (find_from worse last n lo p false d)).1
    lo (last + 1).
Proof using lo_nonneg run_size.
  intros Hlen Hord.
  destruct (find_from_cases worse last n lo p false d)
    as [(i & Hi & Hstop & _ & ->)|[_ ->]]; [|done].
  rewrite (on_stop_no_create worse) by done. simpl.
  assert (Hsame : ordered_run worse
            (assign d i (close_order q (deref d i)).1) lo (last + 1)).
  { eapply ordered_run_same_prices; [|done].
    intros k ? ?. apply slot_price_assign_same; [lia|lia|done]. }
  destruct (_ =? 0); simpl; [|done].
  apply ordered_run_erase; rewrite ?len_assign; (done || lia).
Qed.

End run_ops.

(** * The bid run and the ask run *)

Lemma ltb_irrefl a : (a <? a) = false.
Proof. apply Z.ltb_irrefl. Qed.

Lemma ltb_trans a b c : (a <? b) = true → (b <? c) = true → (a <? c) = true.
Proof. rewrite !Z.ltb_lt. lia. Qed.

Lemma ltb_total a b : a ≠ b → (a <? b) = false → (b <? a) = true.
Proof. rewrite Z.ltb_lt, Z.ltb_ge. lia. Qed.

Lemma gtb_irrefl a : (a >? a) = false.
Proof. rewrite Z.gtb_ltb. apply Z.ltb_irrefl. Qed.

Lemma gtb_trans a b c : (a >? b) = true → (b >? c) = true → (a >? c) = true.
Proof. rewrite !Z.gtb_ltb, !Z.ltb_lt. lia. Qed.

Lemma gtb_total a b : a ≠ b → (a >? b) = false → (b >? a) = true.
Proof. rewrite !Z.gtb_ltb, Z.ltb_lt, Z.ltb_ge. lia. Qed.

Lemma add_bid_eq SIZE p q d :
  add_bid SIZE p q d =
    update_found (add_order q) (find_from Z.ltb (SIZE - 1) (Z.to_nat SIZE) 0 p true d).
Proof. unfold add_bid. by rewrite find_bid_eq. Qed.

Lemma increase_bid_eq SIZE p q d :
  increase_bid SIZE p q d =
    update_found (increase_qty q) (find_from Z.ltb (SIZE - 1) (Z.to_nat SIZE) 0 p false d).
Proof. unfold increase_bid. by rewrite find_bid_eq. Qed.

Lemma decrease_bid_eq SIZE p q d :
  decrease_bid SIZE p q d =
    update_found (decrease_qty q) (find_from Z.ltb (SIZE - 1) (Z.to_nat SIZE) 0 p false d).
Proof. unfold decrease_bid. by rewrite find_bid_eq. Qed.

Lemma close_bid_eq SIZE p q d :
  close_bid SIZE p q d =
    close_found (SIZE - 1) q (find_from Z.ltb (SIZE - 1) (Z.to_nat SIZE) 0 p false d).
Proof. unfold close_bid. by rewrite find_bid_eq. Qed.

Lemma add_ask_eq SIZE p q d :
  add_ask SIZE p q d =
    update_found (add_order q)
      (find_from Z.gtb (SIZE * 2 - 1) (Z.to_nat SIZE) SIZE p true d).
Proof. unfold add_ask. by rewrite find_ask_eq. Qed.

Lemma increase_ask_eq SIZE p q d :
  increase_ask SIZE p q d =
    update_found (increase_qty q)
      (find_from Z.gtb (SIZE * 2 - 1) (Z.to_nat SIZE) SIZE p false d).
Proof. unfold increase_ask. by rewrite find_ask_eq. Qed.

Lemma decrease_ask_eq SIZE p q d :
  decrease_ask SIZE p q d =
    update_found (decrease_qty q)
      (find_from Z.gtb (SIZE * 2 - 1) (Z.to_nat SIZE) SIZE p false d).
Proof. unfold decrease_ask. by rewrite find_ask_eq. Qed.

Lemma close_ask_eq SIZE p q d :
  close_ask SIZE p q d =
    close_found (SIZE * 2 - 1) q
      (find_from Z.gtb (SIZE * 2 - 1) (Z.to_nat SIZE) SIZE p false d).
Proof. unfold close_ask. by rewrite find_ask_eq. Qed.

Lemma bid_run_size SIZE : 0 ≤ SIZE → 0 + Z.of_nat (Z.to_nat SIZE) = SIZE - 1 + 1.
Proof. lia. Qed.

Lemma ask_run_size SIZE : 0 ≤ SIZE → SIZE + Z.of_nat (Z.to_nat SIZE) = SIZE * 2 - 1 + 1.
Proof. lia. Qed.

(** * The invariant of the array *)

Lemma well_formed_Depth_new SIZE : 0 ≤ SIZE → well_formed SIZE (Depth_new SIZE).
Proof.
  intros HSIZE. split; [by apply len_Depth_new|].
  split; intros i j _ _ _; unfold slot_price; by rewrite !deref_Depth_new.
Qed.

(** A call on the bid run that keeps it in order and leaves the ask run
    alone keeps the invariant. *)
Lemma well_formed_bid_side SIZE d d' :
  0 ≤ SIZE →
  well_formed SIZE d →
  length d' = length d →
  ordered_run Z.ltb d' 0 (SIZE - 1 + 1) →
  (∀ k, 0 ≤ k → k < 0 ∨ SIZE - 1 < k → deref d' k = deref d k) →
  well_formed SIZE d'.
Proof.
  intros HSIZE (Hlen & Hbid & Hask) Hlen' Hbid' Hout. split; [|split].
  - unfold len in *. by rewrite Hlen'.
  - by replace SIZE with (SIZE - 1 + 1) at 1 by lia.
  - eapply ordered_run_same_prices; [|done].
    intros k ? ?. unfold slot_price. rewrite Hout; [done|lia|lia].
Qed.

Lemma well_formed_ask_side SIZE d d' :
  0 ≤ SIZE →
  well_formed SIZE d →
  length d' = length d →
  ordered_run Z.gtb d' SIZE (SIZE * 2 - 1 + 1) →
  (∀ k, 0 ≤ k → k < SIZE ∨ SIZE * 2 - 1 < k → deref d' k = deref d k) →
  well_formed SIZE d'.
Proof.
  intros HSIZE (Hlen & Hbid & Hask) Hlen' Hask' Hout. split; [|split].
  - unfold len in *. by rewrite Hlen'.
  - eapply ordered_run_same_prices; [|done].
    intros k ? ?. unfold slot_price. rewrite Hout; [done|lia|lia].
  - by replace (SIZE * 2) with (SIZE * 2 - 1 + 1) by lia.
Qed.

Ltac run_side :=
  solve [ done | lia | intros; lia
        | eauto using ltb_trans, ltb_total, gtb_trans, gtb_total ].

(** Every mutator keeps the invariant, unless it is an add at the
    sentinel price. *)
Lemma well_formed_mutate SIZE d m :
  0 ≤ SIZE →
  match m with
  | AddBid p _ | AddAsk p _ => p ≠ INVALID_LEVEL_PRICE
  | _ => True
  end →
  well_formed SIZE d → well_formed SIZE (mutate SIZE d m).
Proof.
  intros HSIZE Hm Hwf. pose proof Hwf as (Hlen & Hbid & Hask).
  pose proof (bid_run_size SIZE HSIZE) as Hb.
  pose proof (ask_run_size SIZE HSIZE) as Ha.
  replace SIZE with (SIZE - 1 + 1) in Hbid at 1 by lia.
  replace (SIZE * 2) with (SIZE * 2 - 1 + 1) in Hask by lia.
  destruct m as [p q|p q|p q|p q|p q|p q|p q|p q]; simpl.
  - rewrite add_bid_eq. apply (well_formed_bid_side SIZE d); [done|done|..].
    + apply length_update_found.
    + apply update_found_ordered; run_side.
    + intros k ? ?. apply update_found_outside; run_side.
  - rewrite close_bid_eq. apply (well_formed_bid_side SIZE d); [done|done|..].
    + apply length_close_found.
    + apply close_found_ordered; run_side.
    + intros k ? ?. apply close_found_outside; run_side.
  - rewrite increase_bid_eq. apply (well_formed_bid_side SIZE d); [done|done|..].
    + apply length_update_found.
    + apply update_found_ordered; run_side.
    + intros k ? ?. apply update_found_outside; run_side.
  - rewrite decrease_bid_eq. apply (well_formed_bid_side SIZE d); [done|done|..].
    + apply length_update_found.
    + apply update_found_ordered; run_side.
    + intros k ? ?. apply update_found_outside; run_side.
  - rewrite add_ask_eq. apply (well_formed_ask_side SIZE d); [done|done|..].
    + apply length_update_found.
    + apply update_found_ordered; run_side.
    + intros k ? ?. apply update_found_outside; run_side.
  - rewrite close_ask_eq. apply (well_formed_ask_side SIZE d); [done|done|..].
    + apply length_close_found.
    + apply close_found_ordered; run_side.
    + intros k ? ?. apply close_found_outside; run_side.
  - rewrite increase_ask_eq. apply (well_formed_ask_side SIZE d); [done|done|..].
    + apply length_update_found.
    + apply update_found_ordered; run_side.
    + intros k ? ?. apply update_found_outside; run_side.
  - rewrite decrease_ask_eq. apply (well_formed_ask_side SIZE d); [done|done|..].
    + apply length_update_found.
    + apply update_found_ordered; run_side.
    + intros k ? ?. apply update_found_outside; run_side.
Qed.

Lemma well_formed_foldl SIZE ms d :
  0 ≤ SIZE → adds_priced ms → well_formed SIZE d →
  well_formed SIZE (foldl (mutate SIZE) d ms).
Proof.
  intros HSIZE Hms. revert d. induction Hms as [|m ms Hm _ IH]; intros d Hwf;
    [done|].
  simpl. apply IH. by apply well_formed_mutate.
Qed.

(** Every state reached from a fresh instance without an add at the
    sentinel price satisfies the invariant. *)
Lemma well_formed_run SIZE ms :
  0 ≤ SIZE → adds_priced ms → well_formed SIZE (run SIZE ms).
Proof.
  intros HSIZE Hms. apply well_formed_foldl; [done|done|].
  by apply well_formed_Depth_new.
Qed.

Lemma well_formed_bids_descending SIZE d :
  well_formed SIZE d → bids_strictly_descending SIZE d.
Proof.
  intros (_ & Hbid & _) i j Hi Hij Hj _ Hvalid.
  destruct (Hbid i j) as [_ Hlt]; [done..|]. apply Z.ltb_lt in Hlt. lia.
Qed.

Lemma well_formed_asks_ascending SIZE d :
  well_formed SIZE d → asks_strictly_ascending SIZE d.
Proof.
  intros (_ & _ & Hask) i j Hi Hij Hj _ Hvalid.
  destruct (Hask i j) as [_ Hgt]; [done..|].
  rewrite Z.gtb_ltb in Hgt. by apply Z.ltb_lt in Hgt.
Qed.

Lemma ordered_run_contiguous worse d lo hi :
  ordered_run worse d lo hi → contiguous_prefix d lo hi.
Proof.
  intros Hord i j Hi Hij Hj Hblank.
  destruct (decide (slot_price d j = INVALID_LEVEL_PRICE)) as [|Hvalid]; [done|].
  by destruct (Hord i j).
Qed.

(** * Sort and contiguity invariants *)

(** C1, as stated, fails: on a Depth<2>, [add_ask(5,1)], then
    [add_ask(0,1)] (the sentinel price, inserted before 5), then
    [add_ask(9,1)] (which takes the sentinel-priced first slot for blank)
    leave the ask run at 9, 5: two valid prices that do not increase. *)
Lemma C1_counterexample :
  1 ≤ 2 ∧
  ¬ (bids_strictly_descending 2 (run 2 [AddAsk 5 1; AddAsk 0 1; AddAsk 9 1]) ∧
     asks_strictly_ascending 2 (run 2 [AddAsk 5 1; AddAsk 0 1; AddAsk 9 1])).
Proof.
  split; [lia|]. intros [_ Hask].
  pose proof (Hask 2 3 ltac:(lia) ltac:(lia) ltac:(lia)) as H.
  vm_compute in H.
  pose proof (H ltac:(discriminate) ltac:(discriminate)) as Hlt.
  discriminate Hlt.
Qed.

(** C1, amended: for every Depth<SIZE> with SIZE >= 1 and every finite
    sequence of mutator calls in which no add_bid/add_ask is given the
    sentinel price, applied to a freshly constructed instance, the valid
    prices of the bid run are strictly decreasing and those of the ask
    run strictly increasing (so no price occurs twice within a run). *)
Theorem C1_sort_invariant (SIZE : Z) (ms : list mutator) :
  1 ≤ SIZE → adds_priced ms →
  bids_strictly_descending SIZE (run SIZE ms) ∧
  asks_strictly_ascending SIZE (run SIZE ms).
Proof.
  intros HSIZE Hms.
  assert (Hwf : well_formed SIZE (run SIZE ms)) by (apply well_formed_run; [lia|done]).
  split; [by apply well_formed_bids_descending|by apply well_formed_asks_ascending].
Qed.

Lemma C1_sort_invariant_witness :
  bids_strictly_descending 3
    (run 3 [AddBid 100 50; AddBid 101 5; AddAsk 103 1; AddAsk 102 7; CloseBid 100 50]) ∧
  asks_strictly_ascending 3
    (run 3 [AddBid 100 50; AddBid 101 5; AddAsk 103 1; AddAsk 102 7; CloseBid 100 50]).
Proof.
  apply (C1_sort_invariant 3
           [AddBid 100 50; AddBid 101 5; AddAsk 103 1; AddAsk 102 7; CloseBid 100 50]).
  - lia.
  - repeat constructor; discriminate.
Defined.

(** C2, as stated, fails: on a Depth<2>, [add_ask(5,1)] then
    [add_ask(0,1)] insert a level at the sentinel price before the level
    at 5, so a valid slot follows a sentinel-priced slot in the ask run. *)
Lemma C2_counterexample :
  1 ≤ 2 ∧
  ¬ (contiguous_prefix (run 2 [AddAsk 5 1; AddAsk 0 1]) 0 2 ∧
     contiguous_prefix (run 2 [AddAsk 5 1; AddAsk 0 1]) 2 (2 * 2)).
Proof.
  split; [lia|]. intros [_ Hask].
  pose proof (Hask 2 3 ltac:(lia) ltac:(lia) ltac:(lia)) as H.
  vm_compute in H.
  pose proof (H eq_refl) as Heq. discriminate Heq.
Qed.

(** C2, amended: for every Depth<SIZE> with SIZE >= 1 and every finite
    sequence of mutator calls in which no add_bid/add_ask is given the
    sentinel price, applied after construction, the non-sentinel slots of
    each run form a contiguous prefix: no valid slot follows a sentinel
    slot within the bid run (slots 0 .. SIZE-1) or within the ask run
    (slots SIZE .. 2*SIZE-1). *)
Theorem C2_contiguity_invariant (SIZE : Z) (ms : list mutator) :
  1 ≤ SIZE → adds_priced ms →
  contiguous_prefix (run SIZE ms) 0 SIZE ∧
  contiguous_prefix (run SIZE ms) SIZE (SIZE * 2).
Proof.
  intros HSIZE Hms.
  destruct (well_formed_run SIZE ms) as (_ & Hbid & Hask); [lia|done|].
  split; eapply ordered_run_contiguous; eassumption.
Qed.

Lemma C2_contiguity_invariant_witness :
  contiguous_prefix
    (run 2 [AddAsk 7 1; AddAsk 5 2; CloseAsk 5 2; AddBid 3 1; IncreaseBid 3 4]) 0 2 ∧
  contiguous_prefix
    (run 2 [AddAsk 7 1; AddAsk 5 2; CloseAsk 5 2; AddBid 3 1; IncreaseBid 3 4]) 2 (2 * 2).
Proof.
  apply (C2_contiguity_invariant 2
           [AddAsk 7 1; AddAsk 5 2; CloseAsk 5 2; AddBid 3 1; IncreaseBid 3 4]).
  - lia.
  - repeat constructor; discriminate.
Defined.

(** * Restoration queries *)

(** C4: for every Depth<SIZE> state, when SIZE > 1 the bid (ask)
    restoration query returns normally, writes the price of the slot just
    before the run's last slot to the out-parameter, and returns true
    exactly when that slot is valid, false when it is the sentinel; when
    SIZE = 1 it returns true with the side's market-order sort sentinel,
    whatever the state. *)
Theorem C4_needs_restoration (SIZE : Z) (market_bid market_ask : Price) (d : Depth) :
  (1 < SIZE →
     (∃ b rp, needs_bid_restoration SIZE market_bid d = Returns (b, rp) ∧
        ((b = true ∧ rp = slot_price d (SIZE - 2)) ↔
           slot_price d (SIZE - 2) ≠ INVALID_LEVEL_PRICE) ∧
        (slot_price d (SIZE - 2) = INVALID_LEVEL_PRICE → b = false)) ∧
     (∃ b rp, needs_ask_restoration SIZE market_ask d = Returns (b, rp) ∧
        ((b = true ∧ rp = slot_price d (SIZE * 2 - 2)) ↔
           slot_price d (SIZE * 2 - 2) ≠ INVALID_LEVEL_PRICE) ∧
        (slot_price d (SIZE * 2 - 2) = INVALID_LEVEL_PRICE → b = false))) ∧
  (SIZE = 1 →
     needs_bid_restoration SIZE market_bid d = Returns (true, market_bid) ∧
     needs_ask_restoration SIZE market_ask d = Returns (true, market_ask)).
Proof.
  assert (Hflag : ∀ a : Price,
            ((negb (a =? INVALID_LEVEL_PRICE) = true ∧ a = a) ↔ a ≠ INVALID_LEVEL_PRICE) ∧
            (a = INVALID_LEVEL_PRICE → negb (a =? INVALID_LEVEL_PRICE) = false)).
  { intros a. destruct (Z.eqb_spec a INVALID_LEVEL_PRICE) as [Heq|Hne]; simpl.
    - split; [|done]. split; [by intros [? _]|done].
    - done. }
  split.
  - intros HSIZE. unfold needs_bid_restoration, needs_ask_restoration.
    assert ((SIZE >? 1) = true) as -> by lia.
    unfold last_bid_level, last_ask_level.
    replace (SIZE - 1 - 1) with (SIZE - 2) by lia.
    replace (SIZE * 2 - 1 - 1) with (SIZE * 2 - 2) by lia.
    fold (slot_price d (SIZE - 2)). fold (slot_price d (SIZE * 2 - 2)).
    split; eexists _, _; (split; [reflexivity|]); apply Hflag.
  - intros ->. done.
Qed.

Lemma C4_needs_restoration_witness :
  (∃ b rp, needs_bid_restoration 3 4294967295
             (run 3 [AddBid 101 10; AddBid 100 10; AddBid 99 10; CloseBid 99 10])
           = Returns (b, rp) ∧
      ((b = true ∧ rp = slot_price
          (run 3 [AddBid 101 10; AddBid 100 10; AddBid 99 10; CloseBid 99 10]) (3 - 2)) ↔
       slot_price
          (run 3 [AddBid 101 10; AddBid 100 10; AddBid 99 10; CloseBid 99 10]) (3 - 2)
         ≠ INVALID_LEVEL_PRICE) ∧
      (slot_price
          (run 3 [AddBid 101 10; AddBid 100 10; AddBid 99 10; CloseBid 99 10]) (3 - 2)
         = INVALID_LEVEL_PRICE → b = false)) ∧
  needs_ask_restoration 1 0 (run 1 [AddAsk 7 1; CloseAsk 7 1]) = Returns (true, 0).
Proof.
  split.
  - apply (C4_needs_restoration 3 4294967295 0
             (run 3 [AddBid 101 10; AddBid 100 10; AddBid 99 10; CloseBid 99 10])).
    lia.
  - apply (C4_needs_restoration 1 4294967295 0 (run 1 [AddAsk 7 1; CloseAsk 7 1])).
    reflexivity.
Defined.

(** * Exceptions *)

(** C8: for SIZE < 1 both restoration queries throw; construction does
    not throw for any SIZE, so the misconfiguration only shows when a
    restoration query runs; no mutator throws for any SIZE, and for
    SIZE >= 1 no call of the interface throws. *)
Theorem C8_configuration_error (SIZE : Z) (market_bid market_ask : Price) :
  (SIZE < 1 → ∀ d,
     needs_bid_restoration SIZE market_bid d
       = Throws "Depth size less than one not allowed" ∧
     needs_ask_restoration SIZE market_ask d
       = Throws "Depth size less than one not allowed" ∧
     call SIZE market_bid market_ask NeedsBidRestoration d
       = Throws "Depth size less than one not allowed" ∧
     call SIZE market_bid market_ask NeedsAskRestoration d
       = Throws "Depth size less than one not allowed") ∧
  construct SIZE = Returns (Depth_new SIZE) ∧
  (∀ d m, ∃ d' v, call SIZE market_bid market_ask (Mutator m) d = Returns (d', v)) ∧
  (1 ≤ SIZE → ∀ d r, ∃ d' v, call SIZE market_bid market_ask r d = Returns (d', v)).
Proof.
  assert (Hmut : ∀ d m, ∃ d' v,
            call SIZE market_bid market_ask (Mutator m) d = Returns (d', v)).
  { intros d m. destruct m; simpl; try (by eexists _, _).
    - destruct (close_bid SIZE p qty d). by eexists _, _.
    - destruct (close_ask SIZE p qty d). by eexists _, _. }
  split; [|split; [done|split; [done|]]].
  - intros HSIZE d. unfold call, needs_bid_restoration, needs_ask_restoration.
    assert ((SIZE >? 1) = false) as -> by lia.
    assert ((SIZE =? 1) = false) as -> by lia. done.
  - intros HSIZE d r. destruct r as [m| |]; [apply Hmut|..];
      unfold call, needs_bid_restoration, needs_ask_restoration;
      destruct (SIZE >? 1) eqn:Hgt; try (by eexists _, _);
      assert ((SIZE =? 1) = true) as -> by lia; by eexists _, _.
Qed.

Lemma C8_configuration_error_witness :
  (∀ d, needs_bid_restoration 0 4294967295 d
          = Throws "Depth size less than one not allowed" ∧
        needs_ask_restoration 0 0 d
          = Throws "Depth size less than one not allowed" ∧
        call 0 4294967295 0 NeedsBidRestoration d
          = Throws "Depth size less than one not allowed" ∧
        call 0 4294967295 0 NeedsAskRestoration d
          = Throws "Depth size less than one not allowed") ∧
  (∀ d r, ∃ d' v, call 1 4294967295 0 r d = Returns (d', v)).
Proof.
  split.
  - apply (C8_configuration_error 0 4294967295 0). lia.
  - apply (C8_configuration_error 1 4294967295 0). lia.
Defined.

(** * Frame *)

(** C9: on an array of 2*SIZE slots, add_bid, close_bid, increase_bid
    and decrease_bid leave every ask slot (SIZE .. 2*SIZE-1) exactly as
    it was, add_ask, close_ask, increase_ask and decrease_ask leave every
    bid slot (0 .. SIZE-1) exactly as it was, no mutator changes the
    number of slots, and a restoration query that returns hands back the
    array it was given. *)
Theorem C9_frame (SIZE : Z) (market_bid market_ask : Price) (d : Depth)
    (p : Price) (q : Quantity) :
  0 ≤ SIZE → len d = SIZE * 2 →
  (∀ k, SIZE ≤ k → k < SIZE * 2 →
     deref (add_bid SIZE p q d) k = deref d k ∧
     deref (close_bid SIZE p q d).1 k = deref d k ∧
     deref (increase_bid SIZE p q d) k = deref d k ∧
     deref (decrease_bid SIZE p q d) k = deref d k) ∧
  (∀ k, 0 ≤ k → k < SIZE →
     deref (add_ask SIZE p q d) k = deref d k ∧
     deref (close_ask SIZE p q d).1 k = deref d k ∧
     deref (increase_ask SIZE p q d) k = deref d k ∧
     deref (decrease_ask SIZE p q d) k = deref d k) ∧
  (∀ m, length (mutate SIZE d m) = length d) ∧
  (∀ d' v, call SIZE market_bid market_ask NeedsBidRestoration d = Returns (d', v) →
     d' = d) ∧
  (∀ d' v, call SIZE market_bid market_ask NeedsAskRestoration d = Returns (d', v) →
     d' = d).
Proof.
  intros HSIZE Hlen.
  pose proof (bid_run_size SIZE HSIZE) as Hb.
  pose proof (ask_run_size SIZE HSIZE) as Ha.
  split; [|split; [|split; [|split]]].
  - intros k ? ?.
    rewrite add_bid_eq, close_bid_eq, increase_bid_eq, decrease_bid_eq.
    repeat split;
      (apply update_found_outside || apply close_found_outside); run_side.
  - intros k ? ?.
    rewrite add_ask_eq, close_ask_eq, increase_ask_eq, decrease_ask_eq.
    repeat split;
      (apply update_found_outside || apply close_found_outside); run_side.
  - intros m. destruct m; simpl;
      rewrite ?add_bid_eq, ?close_bid_eq, ?increase_bid_eq, ?decrease_bid_eq,
        ?add_ask_eq, ?close_ask_eq, ?increase_ask_eq, ?decrease_ask_eq;
      (apply length_update_found || apply length_close_found).
  - intros d' v. simpl. destruct (needs_bid_restoration _ _ _) as [[b rp]|];
      [|done]. by intros [= <- _].
  - intros d' v. simpl. destruct (needs_ask_restoration _ _ _) as [[b rp]|];
      [|done]. by intros [= <- _].
Qed.

Lemma C9_frame_witness :
  deref (add_bid 2 100 50 (run 2 [AddBid 99 1; AddAsk 101 2; AddAsk 102 3])) 3
    = deref (run 2 [AddBid 99 1; AddAsk 101 2; AddAsk 102 3]) 3 ∧
  deref (close_bid 2 100 50 (run 2 [AddBid 99 1; AddAsk 101 2; AddAsk 102 3])).1 3
    = deref (run 2 [AddBid 99 1; AddAsk 101 2; AddAsk 102 3]) 3 ∧
  deref (increase_bid 2 100 50 (run 2 [AddBid 99 1; AddAsk 101 2; AddAsk 102 3])) 3
    = deref (run 2 [AddBid 99 1; AddAsk 101 2; AddAsk 102 3]) 3 ∧
  deref (decrease_bid 2 100 50 (run 2 [AddBid 99 1; AddAsk 101 2; AddAsk 102 3])) 3
    = deref (run 2 [AddBid 99 1; AddAsk 101 2; AddAsk 102 3]) 3.
Proof.
  destruct (C9_frame 2 4294967295 0
              (run 2 [AddBid 99 1; AddAsk 101 2; AddAsk 102 3]) 100 50)
    as [Hbid _].
  - lia.
  - reflexivity.
  - apply (Hbid 3); lia.
Defined.

(** * Looking up a price without creating it *)

Lemma len_run SIZE ms : 0 ≤ SIZE → len (run SIZE ms) = SIZE * 2.
Proof.
  intros HSIZE. unfold run.
  assert (H : ∀ d, len d = SIZE * 2 → len (foldl (mutate SIZE) d ms) = SIZE * 2).
  { induction ms as [|m ms IH]; intros d Hd; [done|]. simpl. apply IH.
    unfold len in *. rewrite <- Hd. f_equal.
    pose proof (bid_run_size SIZE HSIZE). pose proof (ask_run_size SIZE HSIZE).
    destruct m; simpl;
      rewrite ?add_bid_eq, ?close_bid_eq, ?increase_bid_eq, ?decrease_bid_eq,
        ?add_ask_eq, ?close_ask_eq, ?increase_ask_eq, ?decrease_ask_eq;
      (apply length_update_found || apply length_close_found). }
  apply H. by apply len_Depth_new.
Qed.

Lemma erased_at_erase_level d i last :
  0 ≤ i ≤ last → last < len d → erased_at d (erase_level i last d) last i.
Proof.
  intros Hi Hlen. split; [apply length_erase_level|].
  intros k ? ?. by apply erase_level_deref.
Qed.

Section found_facts.

Variable worse : Price → Price → bool.
Variables (lo last : Z) (n : nat).
Hypothesis lo_nonneg : 0 ≤ lo.
Hypothesis run_size : lo + Z.of_nat n = last + 1.

(** Either no slot of the run has the price, or there is a first one. *)
Lemma first_at_price_cases d p :
  (∀ k, lo ≤ k → k < last + 1 → slot_price d k ≠ p) ∨
  (∃ i, first_at_price d lo (last + 1) p i).
Proof using run_size.
  destruct (first_stop (fun k => slot_price d k =? p) n lo)
    as [(i & Hi & Heq & Hbefore)|Hnone].
  - right. exists i. split; [lia|]. split; [by apply Z.eqb_eq|].
    intros k ? ?. apply Z.eqb_neq. by apply Hbefore.
  - left. intros k ? ?. apply Z.eqb_neq. apply Hnone; lia.
Qed.

Lemma find_from_present d p i :
  first_at_price d lo (last + 1) p i →
  find_from worse last n lo p false d = (Some i, d).
Proof using run_size.
  intros (Hi & Heq & Hbefore).
  rewrite (find_from_stop worse last n lo p false d i).
  - by rewrite (on_stop_no_create worse) by (rewrite stops_no_create; by apply Z.eqb_eq).
  - lia.
  - rewrite stops_no_create. by apply Z.eqb_eq.
  - intros k ? ?. rewrite stops_no_create. apply Z.eqb_neq. by apply Hbefore.
Qed.

Lemma find_from_absent d p :
  (∀ k, lo ≤ k → k < last + 1 → slot_price d k ≠ p) →
  find_from worse last n lo p false d = (None, d).
Proof using run_size.
  intros Hnone. apply find_from_pass. intros k ? ?.
  rewrite stops_no_create. apply Z.eqb_neq. apply Hnone; lia.
Qed.

Lemma untracked_absent d p :
  p ≠ INVALID_LEVEL_PRICE → untracked d lo (last + 1) p →
  ∀ k, lo ≤ k → k < last + 1 → slot_price d k ≠ p.
Proof using Type.
  intros Hp Hun k ? ?.
  destruct (decide (slot_price d k = INVALID_LEVEL_PRICE)) as [->|Hvalid];
    [done|by apply Hun].
Qed.

(** Increase and decrease (and add, when the price is there). *)
Lemma update_found_present f d p i :
  first_at_price d lo (last + 1) p i →
  update_found f (find_from worse last n lo p false d) = assign d i (f (deref d i)).
Proof using run_size. intros Hi. by rewrite (find_from_present d p i). Qed.

Lemma update_found_absent f d p :
  (∀ k, lo ≤ k → k < last + 1 → slot_price d k ≠ p) →
  update_found f (find_from worse last n lo p false d) = d.
Proof using run_size. intros Hnone. by rewrite find_from_absent. Qed.

(** Close. *)
Lemma close_found_present q d p i :
  last < len d →
  first_at_price d lo (last + 1) p i →
  close_found last q (find_from worse last n lo p false d) =
    if (close_order q (deref d i)).2
    then (erase_level i last d, true)
    else (assign d i (close_order q (deref d i)).1, false).
Proof using run_size lo_nonneg.
  intros Hlen Hi. rewrite (find_from_present d p i) by done. simpl.
  destruct (_ =? 0); [|done].
  rewrite erase_level_overwrites; [done|destruct Hi; lia|done].
Qed.

Lemma close_found_absent q d p :
  (∀ k, lo ≤ k → k < last + 1 → slot_price d k ≠ p) →
  close_found last q (find_from worse last n lo p false d) = (d, false).
Proof using run_size. intros Hnone. by rewrite find_from_absent. Qed.

(** What close does on one run, for a non-sentinel price. *)
Lemma close_found_spec q d p :
  last < len d → p ≠ INVALID_LEVEL_PRICE →
  (untracked d lo (last + 1) p →
     close_found last q (find_from worse last n lo p false d) = (d, false)) ∧
  (∀ i, first_at_price d lo (last + 1) p i →
     ((close_order q (deref d i)).2 = false →
        close_found last q (find_from worse last n lo p false d)
          = (assign d i (close_order q (deref d i)).1, false) ∧
        ∀ k, 0 ≤ k →
          slot_price (assign d i (close_order q (deref d i)).1) k = slot_price d k) ∧
     ((close_order q (deref d i)).2 = true →
        ∃ d', close_found last q (find_from worse last n lo p false d) = (d', true) ∧
              erased_at d d' last i)) ∧
  (untracked d lo (last + 1) p ∨ ∃ i, first_at_price d lo (last + 1) p i).
Proof using run_size lo_nonneg.
  intros Hlen Hp. split; [|split].
  - intros Hun. apply close_found_absent. by apply untracked_absent.
  - intros i Hi. rewrite (close_found_present q d p i) by done. split.
    + intros ->. split; [done|]. intros k Hk.
      apply slot_price_assign_same; [destruct Hi; lia|done|done].
    + intros ->. eexists. split; [done|].
      apply erased_at_erase_level; destruct Hi; lia.
  - destruct (first_at_price_cases d p) as [Hnone|Hsome]; [|by right].
    left. intros k ? ? _. by apply Hnone.
Qed.

End found_facts.

(** * Close *)

(** C3, as stated, fails for the sentinel price: on a fresh Depth<1> no
    tracked (valid) bid level has the sentinel price, yet
    [close_bid(INVALID_LEVEL_PRICE, 7)] finds the unused slot and closes an
    order on it, so the array is not what it was. *)
Lemma C3_counterexample :
  untracked (run 1 []) 0 1 INVALID_LEVEL_PRICE ∧
  close_bid 1 INVALID_LEVEL_PRICE 7 (run 1 []) ≠ (run 1 [], false).
Proof.
  split.
  - intros k _ _ Hvalid. exact Hvalid.
  - vm_compute. discriminate.
Qed.

(** C3, amended: for every array of 2*SIZE slots (every reachable state
    is one, [len_run]) and every call close_bid(p, q) with p other than
    the sentinel price: if no tracked bid level has price p the call
    returns false and the array is unchanged; if a level with price p is
    tracked (slot i, the first with that price) and closing q leaves it
    with orders, the call returns false, only that slot's aggregates
    change and nothing is erased; if closing q empties the level, slot i is
    erased by shift compaction (the following slots of the run move one
    position toward the better end, the run's last slot becomes blank) and
    the call returns true.  One of the cases always applies.  The same
    holds for close_ask on the ask run. *)
Theorem C3_close_level (SIZE : Z) (d : Depth) (p : Price) (q : Quantity) :
  0 ≤ SIZE → len d = SIZE * 2 → p ≠ INVALID_LEVEL_PRICE →
  ((untracked d 0 SIZE p → close_bid SIZE p q d = (d, false)) ∧
   (∀ i, first_at_price d 0 SIZE p i →
      ((close_order q (deref d i)).2 = false →
         close_bid SIZE p q d = (assign d i (close_order q (deref d i)).1, false) ∧
         ∀ k, 0 ≤ k →
           slot_price (assign d i (close_order q (deref d i)).1) k = slot_price d k) ∧
      ((close_order q (deref d i)).2 = true →
         ∃ d', close_bid SIZE p q d = (d', true) ∧ erased_at d d' (SIZE - 1) i)) ∧
   (untracked d 0 SIZE p ∨ ∃ i, first_at_price d 0 SIZE p i)) ∧
  ((untracked d SIZE (SIZE * 2) p → close_ask SIZE p q d = (d, false)) ∧
   (∀ i, first_at_price d SIZE (SIZE * 2) p i →
      ((close_order q (deref d i)).2 = false →
         close_ask SIZE p q d = (assign d i (close_order q (deref d i)).1, false) ∧
         ∀ k, 0 ≤ k →
           slot_price (assign d i (close_order q (deref d i)).1) k = slot_price d k) ∧
      ((close_order q (deref d i)).2 = true →
         ∃ d', close_ask SIZE p q d = (d', true) ∧ erased_at d d' (SIZE * 2 - 1) i)) ∧
   (untracked d SIZE (SIZE * 2) p ∨ ∃ i, first_at_price d SIZE (SIZE * 2) p i)).
Proof.
  intros HSIZE Hlen Hp. split.
  - pose proof (close_found_spec Z.ltb 0 (SIZE - 1) (Z.to_nat SIZE)
                  ltac:(lia) (bid_run_size SIZE HSIZE) q d p ltac:(lia) Hp) as H.
    replace (SIZE - 1 + 1) with SIZE in H by lia.
    by rewrite <- close_bid_eq in H.
  - pose proof (close_found_spec Z.gtb SIZE (SIZE * 2 - 1) (Z.to_nat SIZE)
                  ltac:(lia) (ask_run_size SIZE HSIZE) q d p ltac:(lia) Hp) as H.
    replace (SIZE * 2 - 1 + 1) with (SIZE * 2) in H by lia.
    by rewrite <- close_ask_eq in H.
Qed.

Lemma C3_close_level_witness :
  ∃ d', close_bid 3 101 10 (run 3 [AddBid 101 10; AddBid 100 10; AddBid 99 10])
          = (d', true) ∧
        erased_at (run 3 [AddBid 101 10; AddBid 100 10; AddBid 99 10]) d' (3 - 1) 0.
Proof.
  destruct (C3_close_level 3 (run 3 [AddBid 101 10; AddBid 100 10; AddBid 99 10]) 101 10)
    as [(_ & Hpresent & _) _].
  - lia.
  - reflexivity.
  - discriminate.
  - apply (Hpresent 0).
    + split; [lia|]. split; [reflexivity|]. intros k ? ?. lia.
    + reflexivity.
Defined.

(** * Queries at the sentinel price *)

Lemma assign_changes d i l :
  0 ≤ i < len d → l ≠ deref d i → assign d i l ≠ d.
Proof.
  intros Hi Hne Heq. apply Hne. rewrite <- Heq.
  rewrite deref_assign by lia. by rewrite decide_True.
Qed.

Lemma increase_qty_changes q l : q ≠ 0 → increase_qty q l ≠ l.
Proof.
  intros Hq Heq. apply (f_equal aggregate_qty_) in Heq. simpl in Heq. lia.
Qed.

Lemma decrease_qty_changes q l : q ≠ 0 → decrease_qty q l ≠ l.
Proof.
  intros Hq Heq. apply (f_equal aggregate_qty_) in Heq. simpl in Heq. lia.
Qed.

Lemma close_order_changes q l : (close_order q l).1 ≠ l.
Proof.
  intros Heq. apply (f_equal order_count_) in Heq. simpl in Heq. lia.
Qed.

Section sentinel_query.

Variable worse : Price → Price → bool.
Variables (lo last : Z) (n : nat).
Hypothesis lo_nonneg : 0 ≤ lo.
Hypothesis run_size : lo + Z.of_nat n = last + 1.

(** With the sentinel as the price looked for, the first unused slot of
    the run is an exact match. *)
Lemma sentinel_query_found q d i :
  last < len d →
  first_at_price d lo (last + 1) INVALID_LEVEL_PRICE i →
  find_from worse last n lo INVALID_LEVEL_PRICE false d = (Some i, d) ∧
  ((∀ k, lo ≤ k → k < i → worse (slot_price d k) INVALID_LEVEL_PRICE = false) →
     find_from worse last n lo INVALID_LEVEL_PRICE true d = (Some i, d)) ∧
  close_found last q (find_from worse last n lo INVALID_LEVEL_PRICE false d) =
    (if (close_order q (deref d i)).2
     then (erase_level i last d, true)
     else (assign d i (close_order q (deref d i)).1, false)) ∧
  close_found last q (find_from worse last n lo INVALID_LEVEL_PRICE false d)
    ≠ (d, false) ∧
  update_found (increase_qty q) (find_from worse last n lo INVALID_LEVEL_PRICE false d)
    = assign d i (increase_qty q (deref d i)) ∧
  update_found (decrease_qty q) (find_from worse last n lo INVALID_LEVEL_PRICE false d)
    = assign d i (decrease_qty q (deref d i)) ∧
  (q ≠ 0 →
     update_found (increase_qty q)
       (find_from worse last n lo INVALID_LEVEL_PRICE false d) ≠ d ∧
     update_found (decrease_qty q)
       (find_from worse last n lo INVALID_LEVEL_PRICE false d) ≠ d).
Proof using lo_nonneg run_size.
  intros Hlen Hfirst. pose proof Hfirst as (Hi & Hblank & Hbefore).
  rewrite (close_found_present worse lo last n lo_nonneg run_size q d _ i) by done.
  rewrite !(update_found_present worse lo last n run_size _ d _ i) by done.
  split; [by apply find_from_present|]. split; [|split; [done|split; [|split; [done|split; [done|]]]]].
  - intros Hnot_worse.
    rewrite (find_from_stop worse last n lo INVALID_LEVEL_PRICE true d i).
    + unfold on_stop. by rewrite Hblank.
    + lia.
    + unfold stops. by rewrite Hblank.
    + intros k ? ?. unfold stops. simpl.
      assert ((slot_price d k =? INVALID_LEVEL_PRICE) = false) as ->
        by (apply Z.eqb_neq; by apply Hbefore).
      simpl. by apply Hnot_worse.
  - destruct (close_order q (deref d i)).2; [by intros [= _]|].
    intros [= Heq]. revert Heq. apply assign_changes; [lia|].
    apply close_order_changes.
  - intros Hq. split; (apply assign_changes; [lia|]);
      [by apply increase_qty_changes|by apply decrease_qty_changes].
Qed.

(** For any other price that no valid slot has, close, increase and
    decrease do nothing. *)
Lemma untracked_query_noop q d p :
  p ≠ INVALID_LEVEL_PRICE → untracked d lo (last + 1) p →
  find_from worse last n lo p false d = (None, d) ∧
  close_found last q (find_from worse last n lo p false d) = (d, false) ∧
  update_found (increase_qty q) (find_from worse last n lo p false d) = d ∧
  update_found (decrease_qty q) (find_from worse last n lo p false d) = d.
Proof using run_size.
  intros Hp Hun. pose proof (untracked_absent lo last d p Hp Hun) as Hnone.
  by rewrite (find_from_absent worse lo last n run_size d p Hnone).
Qed.

End sentinel_query.

(** C10: on an array of 2*SIZE slots whose bid run has a sentinel slot,
    the first one being slot i, [find_bid] with the sentinel as price (no
    creation) returns slot i as an exact match, and so does the creating
    scan when no earlier slot is lower than the sentinel, without
    re-initialising it; hence close_bid, increase_bid and decrease_bid
    with the sentinel price act on slot i: they are not no-ops (close
    never is, increase and decrease are not for a non-zero quantity).  For
    a non-sentinel price that no valid slot has, the three calls are
    no-ops.  The same holds on the ask run. *)
Theorem C10_sentinel_price (SIZE : Z) (d : Depth) (q : Quantity) :
  0 ≤ SIZE → len d = SIZE * 2 →
  (∀ i, first_at_price d 0 SIZE INVALID_LEVEL_PRICE i →
     find_bid SIZE INVALID_LEVEL_PRICE false d = (Some i, d) ∧
     ((∀ k, 0 ≤ k → k < i → (slot_price d k <? INVALID_LEVEL_PRICE) = false) →
        find_bid SIZE INVALID_LEVEL_PRICE true d = (Some i, d)) ∧
     close_bid SIZE INVALID_LEVEL_PRICE q d =
       (if (close_order q (deref d i)).2
        then (erase_level i (SIZE - 1) d, true)
        else (assign d i (close_order q (deref d i)).1, false)) ∧
     close_bid SIZE INVALID_LEVEL_PRICE q d ≠ (d, false) ∧
     increase_bid SIZE INVALID_LEVEL_PRICE q d = assign d i (increase_qty q (deref d i)) ∧
     decrease_bid SIZE INVALID_LEVEL_PRICE q d = assign d i (decrease_qty q (deref d i)) ∧
     (q ≠ 0 → increase_bid SIZE INVALID_LEVEL_PRICE q d ≠ d ∧
              decrease_bid SIZE INVALID_LEVEL_PRICE q d ≠ d)) ∧
  (∀ i, first_at_price d SIZE (SIZE * 2) INVALID_LEVEL_PRICE i →
     find_ask SIZE INVALID_LEVEL_PRICE false d = (Some i, d) ∧
     ((∀ k, SIZE ≤ k → k < i → (slot_price d k >? INVALID_LEVEL_PRICE) = false) →
        find_ask SIZE INVALID_LEVEL_PRICE true d = (Some i, d)) ∧
     close_ask SIZE INVALID_LEVEL_PRICE q d =
       (if (close_order q (deref d i)).2
        then (erase_level i (SIZE * 2 - 1) d, true)
        else (assign d i (close_order q (deref d i)).1, false)) ∧
     close_ask SIZE INVALID_LEVEL_PRICE q d ≠ (d, false) ∧
     increase_ask SIZE INVALID_LEVEL_PRICE q d = assign d i (increase_qty q (deref d i)) ∧
     decrease_ask SIZE INVALID_LEVEL_PRICE q d = assign d i (decrease_qty q (deref d i)) ∧
     (q ≠ 0 → increase_ask SIZE INVALID_LEVEL_PRICE q d ≠ d ∧
              decrease_ask SIZE INVALID_LEVEL_PRICE q d ≠ d)) ∧
  (∀ p, p ≠ INVALID_LEVEL_PRICE → untracked d 0 SIZE p →
     find_bid SIZE p false d = (None, d) ∧
     close_bid SIZE p q d = (d, false) ∧
     increase_bid SIZE p q d = d ∧
     decrease_bid SIZE p q d = d) ∧
  (∀ p, p ≠ INVALID_LEVEL_PRICE → untracked d SIZE (SIZE * 2) p →
     find_ask SIZE p false d = (None, d) ∧
     close_ask SIZE p q d = (d, false) ∧
     increase_ask SIZE p q d = d ∧
     decrease_ask SIZE p q d = d).
Proof.
  intros HSIZE Hlen.
  pose proof (bid_run_size SIZE HSIZE) as Hb.
  pose proof (ask_run_size SIZE HSIZE) as Ha.
  split; [|split; [|split]].
  - intros i Hi.
    rewrite !find_bid_eq, close_bid_eq, increase_bid_eq, decrease_bid_eq.
    replace SIZE with (SIZE - 1 + 1) in Hi at 1 by lia.
    apply sentinel_query_found; run_side.
  - intros i Hi.
    rewrite !find_ask_eq, close_ask_eq, increase_ask_eq, decrease_ask_eq.
    replace (SIZE * 2) with (SIZE * 2 - 1 + 1) in Hi by lia.
    apply sentinel_query_found; run_side.
  - intros p Hp Hun.
    rewrite find_bid_eq, close_bid_eq, increase_bid_eq, decrease_bid_eq.
    replace SIZE with (SIZE - 1 + 1) in Hun at 1 by lia.
    by apply (untracked_query_noop Z.ltb 0).
  - intros p Hp Hun.
    rewrite find_ask_eq, close_ask_eq, increase_ask_eq, decrease_ask_eq.
    replace (SIZE * 2) with (SIZE * 2 - 1 + 1) in Hun by lia.
    by apply (untracked_query_noop Z.gtb SIZE).
Qed.

Lemma C10_sentinel_price_witness :
  increase_bid 2 INVALID_LEVEL_PRICE 7 (run 2 [AddBid 100 50])
    = assign (run 2 [AddBid 100 50]) 1
        (increase_qty 7 (deref (run 2 [AddBid 100 50]) 1)) ∧
  increase_bid 2 INVALID_LEVEL_PRICE 7 (run 2 [AddBid 100 50])
    ≠ run 2 [AddBid 100 50].
Proof.
  destruct (C10_sentinel_price 2 (run 2 [AddBid 100 50]) 7) as [Hbid _].
  - lia.
  - reflexivity.
  - destruct (Hbid 1) as (_ & _ & _ & _ & Hinc & _ & Hne).
    + split; [lia|]. split; [reflexivity|].
      intros k ? ?. assert (k = 0) as -> by lia. discriminate.
    + split; [exact Hinc|]. apply Hne. discriminate.
Defined.

(** * Creating scans *)

Lemma assign_assign d i x y : assign (assign d i y) i x = assign d i x.
Proof. apply list_insert_insert_eq. Qed.

Lemma stops_blank worse p : stops worse p true INVALID_LEVEL_PRICE = true.
Proof. unfold stops. simpl. apply orb_true_r. Qed.

Lemma stops_worse worse p a : worse a p = true → stops worse p true a = true.
Proof. unfold stops. intros ->. simpl. by rewrite !orb_true_r. Qed.

Section create_facts.

Variable worse : Price → Price → bool.
Hypothesis worse_irrefl : ∀ a, worse a a = false.
Hypothesis worse_trans :
  ∀ a b c, worse a b = true → worse b c = true → worse a c = true.
Hypothesis worse_total : ∀ a b, a ≠ b → worse a b = false → worse b a = true.

Variables (lo last : Z) (n : nat).
Hypothesis lo_nonneg : 0 ≤ lo.
Hypothesis run_size : lo + Z.of_nat n = last + 1.

(** An add at a price that a slot of an ordered run already has goes to
    that slot and writes nothing else. *)
Lemma update_found_tracked f d p i :
  ordered_run worse d lo (last + 1) → p ≠ INVALID_LEVEL_PRICE →
  lo ≤ i ≤ last → slot_price d i = p →
  update_found f (find_from worse last n lo p true d) = assign d i (f (deref d i)).
Proof using worse_irrefl worse_trans run_size.
  intros Hord Hp Hi Heq.
  rewrite (find_from_stop worse last n lo p true d i).
  - unfold on_stop. by rewrite Heq, Z.eqb_refl.
  - lia.
  - unfold stops. by rewrite Heq, Z.eqb_refl.
  - intros k ? ?. destruct (Hord k i) as [Hvalid Hw]; [lia|lia|lia|by rewrite Heq|].
    rewrite Heq in Hw. unfold stops. simpl.
    assert (Hne : slot_price d k ≠ p).
    { intros E. rewrite E in Hw. by rewrite worse_irrefl in Hw. }
    apply Z.eqb_neq in Hne, Hvalid. rewrite Hne, Hvalid. simpl.
    by apply (worse_asym worse worse_irrefl worse_trans).
Qed.

(** An add at a new price, when the scan stops at slot [i]: a blank slot
    is initialised in place, before a worse slot the level is inserted. *)
Lemma add_created d p q i :
  last < len d → lo ≤ i ≤ last →
  slot_price d i ≠ p →
  stops worse p true (slot_price d i) = true →
  (∀ k, lo ≤ k → k < i → stops worse p true (slot_price d k) = false) →
  (slot_price d i = INVALID_LEVEL_PRICE →
     update_found (add_order q) (find_from worse last n lo p true d)
       = assign d i (mkDepthLevel p 1 q)) ∧
  (slot_price d i ≠ INVALID_LEVEL_PRICE →
     inserted_at d (update_found (add_order q) (find_from worse last n lo p true d))
       last i (mkDepthLevel p 1 q)).
Proof using lo_nonneg run_size.
  intros Hlen Hi Hne Hstop Hbefore.
  rewrite (find_from_stop worse last n lo p true d i) by (done || lia).
  unfold on_stop. apply Z.eqb_neq in Hne. rewrite Hne. simpl. split.
  - intros Hblank. rewrite Hblank. simpl.
    rewrite deref_assign by lia. rewrite decide_True by done.
    by rewrite assign_assign.
  - intros Hvalid. apply Z.eqb_neq in Hvalid. rewrite Hvalid.
    assert (Hlen' : len (insert_level_before i last p d) = len d)
      by (unfold len; by rewrite length_insert_level_before).
    split; [by rewrite length_assign, length_insert_level_before|].
    intros k ? ?.
    rewrite deref_assign by lia.
    rewrite (insert_level_before_deref i last p d i) by lia.
    rewrite (decide_True (P := i = i)) by done.
    destruct (decide (k = i)); [done|].
    rewrite insert_level_before_deref by lia. by rewrite decide_False.
Qed.

(** A full run does not take a price worse than all it holds. *)
Lemma update_found_saturated f d p :
  full_run d lo (last + 1) →
  (∀ k, lo ≤ k → k < last + 1 → worse p (slot_price d k) = true) →
  update_found f (find_from worse last n lo p true d) = d.
Proof using worse_irrefl worse_trans run_size.
  intros Hfull Hworse. rewrite find_from_pass; [done|].
  intros k ? ?. unfold stops. simpl.
  assert (Hw : worse p (slot_price d k) = true) by (apply Hworse; lia).
  assert (Hne : slot_price d k ≠ p).
  { intros E. rewrite E in Hw. by rewrite worse_irrefl in Hw. }
  assert (Hvalid : slot_price d k ≠ INVALID_LEVEL_PRICE) by (apply Hfull; lia).
  apply Z.eqb_neq in Hne, Hvalid. rewrite Hne, Hvalid. simpl.
  by apply (worse_asym worse worse_irrefl worse_trans).
Qed.

(** A full ordered run takes a new price better than one it holds at its
    place in the order, and lets go of its last level. *)
Lemma update_found_evicts d p q :
  last < len d →
  full_run d lo (last + 1) →
  ordered_run worse d lo (last + 1) →
  (∀ k, lo ≤ k → k < last + 1 → slot_price d k ≠ p) →
  (∃ k, lo ≤ k ∧ k < last + 1 ∧ worse (slot_price d k) p = true) →
  ∃ i, lo ≤ i ≤ last ∧
    (∀ k, lo ≤ k → k < i → worse p (slot_price d k) = true) ∧
    (∀ k, i ≤ k → k < last + 1 → worse (slot_price d k) p = true) ∧
    inserted_at d (update_found (add_order q) (find_from worse last n lo p true d))
      last i (mkDepthLevel p 1 q).
Proof using worse_trans worse_total lo_nonneg run_size.
  intros Hlen Hfull Hord Hnew (k0 & Hk0 & Hk0' & Hw0).
  destruct (find_from_cases worse last n lo p true d)
    as [(i & Hi & Hstop & Hbefore & _)|[Hpass _]].
  - exists i. split; [lia|].
    assert (Hwi : worse (slot_price d i) p = true).
    { unfold stops in Hstop. simpl in Hstop.
      assert (Hne : slot_price d i ≠ p) by (apply Hnew; lia).
      assert (Hvalid : slot_price d i ≠ INVALID_LEVEL_PRICE) by (apply Hfull; lia).
      apply Z.eqb_neq in Hne, Hvalid. by rewrite Hne, Hvalid in Hstop. }
    split; [|split].
    + intros k ? ?. by apply (stops_false_create worse worse_total), Hbefore.
    + intros k ? ?. destruct (decide (k = i)) as [->|]; [done|].
      apply worse_trans with (slot_price d i); [|done].
      apply Hord; [lia..|]. apply Hfull; lia.
    + apply add_created; [done|lia|apply Hnew; lia|done|done|apply Hfull; lia].
  - pose proof (stops_worse worse p _ Hw0) as Hstop.
    rewrite Hpass in Hstop; [done|lia|lia].
Qed.

End create_facts.

(** * Counting the levels of a run *)

Section count_facts.

Variable worse : Price → Price → bool.
Variables (lo last : Z) (n : nat).
Hypothesis lo_nonneg : 0 ≤ lo.
Hypothesis run_size : lo + Z.of_nat n = last + 1.

(** The prices after a creating scan stopped at slot [i] for a price
    that slot did not have. *)
Lemma slot_price_created d p i k :
  last < len d → lo ≤ i ≤ last → slot_price d i ≠ p → 0 ≤ k →
  slot_price (on_stop last p true i d) k =
    if decide (k = i) then p
    else if decide (slot_price d i ≠ INVALID_LEVEL_PRICE ∧ i < k ≤ last)
         then slot_price d (k - 1)
         else slot_price d k.
Proof using lo_nonneg.
  clear run_size. intros Hlen Hi Hne Hk. unfold on_stop.
  apply Z.eqb_neq in Hne. rewrite Hne. simpl.
  destruct (Z.eqb_spec (slot_price d i) INVALID_LEVEL_PRICE) as [Hblank|Hvalid];
    unfold slot_price in *.
  - rewrite deref_assign by lia. destruct (decide (k = i)); [done|].
    rewrite decide_False; [done|]. by intros [? _].
  - rewrite insert_level_before_deref by lia. destruct (decide (k = i)); [done|].
    destruct (decide (i < k ≤ last)).
    + by rewrite decide_True.
    + rewrite decide_False; [done|]. by intros [_ ?].
Qed.

(** The prices after an add are those the scan left. *)
Lemma slot_price_add_order d q i k :
  0 ≤ i < len d → 0 ≤ k →
  slot_price (update_found (add_order q) (Some i, d)) k = slot_price d k.
Proof using Type.
  intros Hi Hk. simpl. by apply slot_price_assign_same.
Qed.

(** An add of a new, non-sentinel price that beats the worst level
    leaves one level more, up to the capacity of the run. *)
Lemma valid_levels_add d c p q :
  last < len d → valid_levels d lo (last + 1) c →
  p ≠ INVALID_LEVEL_PRICE → untracked d lo (last + 1) p →
  beats_worst worse d lo (last + 1) p →
  valid_levels (update_found (add_order q) (find_from worse last n lo p true d))
    lo (last + 1) (Z.min (c + 1) (last + 1 - lo)).
Proof using lo_nonneg run_size.
  intros Hlen (Hc & Hvalid & Hblank) Hp Hun Hbeats.
  pose proof (untracked_absent lo last d p Hp Hun) as Hnew.
  destruct (find_from_cases worse last n lo p true d)
    as [(i & Hi & Hstop & Hbefore & ->)|[Hpass ->]].
  - assert (Hlen' : len (on_stop last p true i d) = len d)
      by (unfold len; by rewrite length_on_stop).
    assert (Hi_le : i ≤ lo + c).
    { destruct (decide (i ≤ lo + c)); [done|].
      specialize (Hbefore (lo + c) ltac:(lia) ltac:(lia)).
      rewrite Hblank, stops_blank in Hbefore by lia. done. }
    assert (Hprice : ∀ k, 0 ≤ k →
              slot_price (update_found (add_order q) (Some i, on_stop last p true i d)) k
              = if decide (k = i) then p
                else if decide (slot_price d i ≠ INVALID_LEVEL_PRICE ∧ i < k ≤ last)
                     then slot_price d (k - 1)
                     else slot_price d k).
    { intros k Hk. rewrite slot_price_add_order by lia.
      apply slot_price_created; [done|lia|apply Hnew; lia|done]. }
    destruct (decide (slot_price d i = INVALID_LEVEL_PRICE)) as [Hb|Hv].
    + assert (i = lo + c) as ->.
      { destruct (decide (i < lo + c)); [|lia]. exfalso. by apply (Hvalid i); try lia. }
      split; [lia|]. split.
      * intros k ? ?. rewrite Hprice by lia. destruct (decide (k = lo + c)); [done|].
        rewrite decide_False by (by intros [? _]). apply Hvalid; lia.
      * intros k ? ?. rewrite Hprice by lia. rewrite decide_False by lia.
        rewrite decide_False by (by intros [? _]). apply Hblank; lia.
    + assert (i < lo + c).
      { destruct (decide (i < lo + c)); [done|]. exfalso. apply Hv, Hblank; lia. }
      split; [lia|]. split.
      * intros k ? ?. rewrite Hprice by lia. destruct (decide (k = i)); [done|].
        destruct (decide (_ ∧ _)); apply Hvalid; lia.
      * intros k ? ?. rewrite Hprice by lia. rewrite decide_False by lia.
        rewrite decide_True by (split; [done|lia]). apply Hblank; lia.
  - simpl. destruct (decide (c < last + 1 - lo)).
    + exfalso. specialize (Hpass (lo + c) ltac:(lia) ltac:(lia)).
      rewrite Hblank, stops_blank in Hpass by lia. done.
    + destruct (decide (c = 0)).
      * split; [lia|]. split; intros k ? ?; lia.
      * exfalso. specialize (Hpass last ltac:(lia) ltac:(lia)).
        rewrite stops_worse in Hpass; [done|].
        apply Hbeats; [lia|lia|apply Hvalid; lia|left; lia].
Qed.

(** Every price of the run after an add is the added one or was there. *)
Lemma slot_price_add_from d p q k :
  last < len d → lo ≤ k ≤ last →
  slot_price (update_found (add_order q) (find_from worse last n lo p true d)) k = p ∨
  ∃ k', lo ≤ k' ≤ last ∧
    slot_price (update_found (add_order q) (find_from worse last n lo p true d)) k
      = slot_price d k'.
Proof using lo_nonneg run_size.
  intros Hlen Hk.
  destruct (find_from_cases worse last n lo p true d)
    as [(i & Hi & Hstop & Hbefore & ->)|[Hpass ->]]; [|right; by exists k].
  assert (Hlen' : len (on_stop last p true i d) = len d)
    by (unfold len; by rewrite length_on_stop).
  rewrite slot_price_add_order by lia.
  destruct (decide (slot_price d i = p)) as [Heq|Hne].
  - unfold on_stop. apply Z.eqb_eq in Heq. rewrite Heq. right. by exists k.
  - rewrite slot_price_created by (done || lia).
    destruct (decide (k = i)); [by left|]. right.
    destruct (decide (_ ∧ _)); [exists (k - 1)|exists k]; split; (done || lia).
Qed.

Lemma untracked_add d p q p' :
  last < len d → p' ≠ p → untracked d lo (last + 1) p' →
  untracked (update_found (add_order q) (find_from worse last n lo p true d))
    lo (last + 1) p'.
Proof using lo_nonneg run_size.
  intros Hlen Hne Hun k ? ? Hvalid.
  destruct (slot_price_add_from d p q k) as [->|(k' & Hk' & Heq)]; [done|lia|done|].
  rewrite Heq in *. apply Hun; (done || lia).
Qed.

(** The adds of a sequence, as one function. *)
Variable add : Price → Quantity → Depth → Depth.
Hypothesis add_eq : ∀ p q d,
  add p q d = update_found (add_order q) (find_from worse last n lo p true d).

(** Distinct new prices, each beating the worst level when its turn
    comes, add one level each until the run is full. *)
Lemma valid_levels_add_all adds d c :
  last < len d → valid_levels d lo (last + 1) c →
  NoDup adds.*1 →
  Forall (fun a => a.1 ≠ INVALID_LEVEL_PRICE ∧ untracked d lo (last + 1) a.1) adds →
  inserts_beat_worst worse add lo (last + 1) d adds →
  valid_levels (add_all add d adds) lo (last + 1)
    (Z.min (c + Z.of_nat (length adds)) (last + 1 - lo)).
Proof using lo_nonneg run_size add_eq.
  revert d c. induction adds as [|[p q] adds IH]; intros d c Hlen Hc Hdup Hall Hpath.
  - simpl. rewrite Z.add_0_r. destruct Hc as (? & ? & ?).
    rewrite Z.min_l by lia. done.
  - simpl in *. destruct Hpath as [Hbeats Hpath].
    apply NoDup_cons in Hdup as [Hnotin Hdup].
    apply Forall_cons in Hall as [[Hp Hun] Hall].
    pose proof (valid_levels_add d c p q Hlen Hc Hp Hun Hbeats) as Hstep.
    rewrite <- add_eq in Hstep.
    assert (Hlen1 : last < len (add p q d)).
    { rewrite add_eq. unfold len. rewrite length_update_found. by fold (len d). }
    specialize (IH (add p q d) _ Hlen1 Hstep Hdup).
    unfold add_all in *. simpl.
    replace (Z.min (c + Z.of_nat (S (length adds))) (last + 1 - lo))
      with (Z.min (Z.min (c + 1) (last + 1 - lo) + Z.of_nat (length adds))
              (last + 1 - lo)) by lia.
    apply IH; [|done].
    apply Forall_forall. intros [p' q'] Hin.
    rewrite Forall_forall in Hall. destruct (Hall _ Hin) as [Hp' Hun'].
    split; [done|]. simpl in *. rewrite add_eq. apply untracked_add; [done| |done].
    intros ->. apply Hnotin. apply list_elem_of_fmap. by exists (p, q').
Qed.

End count_facts.

(** * Capacity *)

Lemma full_run_inserted d d' lo last i l :
  0 ≤ lo → lo ≤ i → i ≤ last → last < len d →
  price l ≠ INVALID_LEVEL_PRICE →
  full_run d lo (last + 1) → inserted_at d d' last i l →
  full_run d' lo (last + 1).
Proof.
  intros Hlo Hi Hlast Hlen Hl Hfull [_ Hins] k ? ?. unfold slot_price.
  rewrite Hins by lia. destruct (decide (k = i)); [done|].
  destruct (decide (i < k ≤ last)); apply Hfull; lia.
Qed.

(** C5, as stated, fails twice.  On a Depth<2> holding bids 101 and 100,
    [add_bid(101, 5)] is an add at a price strictly better than a tracked
    one, yet no level is inserted and the worst level, 100, stays: the
    price was tracked already.  On a Depth<2> holding asks 5 and 7,
    [add_ask(0, 1)] inserts a level at the sentinel price and evicts 7, so
    one valid level is left, not two. *)
Lemma C5_counterexample :
  (full_run (run 2 [AddBid 101 1; AddBid 100 1]) 0 2 ∧
   slot_price (run 2 [AddBid 101 1; AddBid 100 1]) 1 < 101 ∧
   prices (add_bid 2 101 5 (run 2 [AddBid 101 1; AddBid 100 1])) 0 2 = [101; 100] ∧
   ¬ ∃ i l, 0 ≤ i < 2 ∧
       inserted_at (run 2 [AddBid 101 1; AddBid 100 1])
         (add_bid 2 101 5 (run 2 [AddBid 101 1; AddBid 100 1])) 1 i l) ∧
  (full_run (run 2 [AddAsk 5 1; AddAsk 7 1]) 2 4 ∧
   untracked (run 2 [AddAsk 5 1; AddAsk 7 1]) 2 4 0 ∧
   0 < slot_price (run 2 [AddAsk 5 1; AddAsk 7 1]) 3 ∧
   prices (add_ask 2 0 1 (run 2 [AddAsk 5 1; AddAsk 7 1])) 2 2
     = [INVALID_LEVEL_PRICE; 5] ∧
   ¬ full_run (add_ask 2 0 1 (run 2 [AddAsk 5 1; AddAsk 7 1])) 2 4).
Proof.
  split.
  - split; [|split; [|split]].
    + intros k ? ?. assert (k = 0 ∨ k = 1) as [-> | ->] by lia; discriminate.
    + reflexivity.
    + reflexivity.
    + intros (i & l & Hi & _ & Hins).
      assert (i = 0 ∨ i = 1) as [-> | ->] by lia.
      * specialize (Hins 1 ltac:(lia) ltac:(reflexivity)). discriminate Hins.
      * specialize (Hins 0 ltac:(lia) ltac:(reflexivity)). discriminate Hins.
  - split; [|split; [|split; [|split]]].
    + intros k ? ?. assert (k = 2 ∨ k = 3) as [-> | ->] by lia; discriminate.
    + intros k ? ? _. assert (k = 2 ∨ k = 3) as [-> | ->] by lia; discriminate.
    + reflexivity.
    + reflexivity.
    + intros Hfull. by apply (Hfull 2).
Qed.

(** C5, amended: for every array of 2*SIZE slots whose bid run holds
    SIZE valid levels, add_bid with a price strictly worse than every
    tracked bid leaves the array unchanged; on such an array that
    satisfies the sort invariant, add_bid with a non-sentinel price that
    is not tracked yet and is strictly better than some tracked bid puts a
    level (one order, the given quantity) in at its sorted position,
    moves the following levels one slot toward the worse end and drops
    exactly the level that was last, leaving SIZE valid levels in order.
    Consequently SIZE + 1 adds of distinct non-sentinel prices not tracked
    before, each strictly better than the worst level tracked when its
    turn comes, applied to a run whose valid levels form a prefix, leave
    exactly SIZE valid levels.  The same holds for add_ask on the ask
    run. *)
Theorem C5_capacity (SIZE : Z) :
  1 ≤ SIZE →
  (∀ d p q, len d = SIZE * 2 → full_run d 0 SIZE →
     ((∀ k, 0 ≤ k → k < SIZE → p < slot_price d k) → add_bid SIZE p q d = d) ∧
     (well_formed SIZE d → p ≠ INVALID_LEVEL_PRICE → untracked d 0 SIZE p →
      (∃ k, 0 ≤ k ∧ k < SIZE ∧ slot_price d k < p) →
      ∃ i, 0 ≤ i < SIZE ∧
        (∀ k, 0 ≤ k → k < i → p < slot_price d k) ∧
        (∀ k, i ≤ k → k < SIZE → slot_price d k < p) ∧
        inserted_at d (add_bid SIZE p q d) (SIZE - 1) i (mkDepthLevel p 1 q) ∧
        well_formed SIZE (add_bid SIZE p q d) ∧
        full_run (add_bid SIZE p q d) 0 SIZE)) ∧
  (∀ d c adds, len d = SIZE * 2 → valid_levels d 0 SIZE c →
     NoDup adds.*1 →
     Forall (fun a => a.1 ≠ INVALID_LEVEL_PRICE ∧ untracked d 0 SIZE a.1) adds →
     inserts_beat_worst Z.ltb (add_bid SIZE) 0 SIZE d adds →
     length adds = Z.to_nat (SIZE + 1) →
     valid_levels (add_all (add_bid SIZE) d adds) 0 SIZE SIZE) ∧
  (∀ d p q, len d = SIZE * 2 → full_run d SIZE (SIZE * 2) →
     ((∀ k, SIZE ≤ k → k < SIZE * 2 → p > slot_price d k) → add_ask SIZE p q d = d) ∧
     (well_formed SIZE d → p ≠ INVALID_LEVEL_PRICE → untracked d SIZE (SIZE * 2) p →
      (∃ k, SIZE ≤ k ∧ k < SIZE * 2 ∧ slot_price d k > p) →
      ∃ i, SIZE ≤ i < SIZE * 2 ∧
        (∀ k, SIZE ≤ k → k < i → p > slot_price d k) ∧
        (∀ k, i ≤ k → k < SIZE * 2 → slot_price d k > p) ∧
        inserted_at d (add_ask SIZE p q d) (SIZE * 2 - 1) i (mkDepthLevel p 1 q) ∧
        well_formed SIZE (add_ask SIZE p q d) ∧
        full_run (add_ask SIZE p q d) SIZE (SIZE * 2))) ∧
  (∀ d c adds, len d = SIZE * 2 → valid_levels d SIZE (SIZE * 2) c →
     NoDup adds.*1 →
     Forall (fun a => a.1 ≠ INVALID_LEVEL_PRICE ∧ untracked d SIZE (SIZE * 2) a.1) adds →
     inserts_beat_worst Z.gtb (add_ask SIZE) SIZE (SIZE * 2) d adds →
     length adds = Z.to_nat (SIZE + 1) →
     valid_levels (add_all (add_ask SIZE) d adds) SIZE (SIZE * 2) SIZE).
Proof.
  intros HSIZE.
  assert (H0 : 0 ≤ SIZE) by lia.
  pose proof (bid_run_size SIZE H0) as Hb.
  pose proof (ask_run_size SIZE H0) as Ha.
  split; [|split; [|split]].
  - intros d p q Hlen Hfull. split.
    + intros Hworse. rewrite add_bid_eq.
      apply (update_found_saturated Z.ltb ltb_irrefl ltb_trans 0 (SIZE - 1));
        [done| |].
      * by replace (SIZE - 1 + 1) with SIZE by lia.
      * intros k ? ?. apply Z.ltb_lt. apply Hworse; lia.
    + intros Hwf Hp Hun (k0 & ? & ? & Hk0).
      pose proof Hwf as (_ & Hord & _).
      replace SIZE with (SIZE - 1 + 1) in Hfull, Hord, Hun at 1 by lia.
      destruct (update_found_evicts Z.ltb ltb_trans ltb_total 0 (SIZE - 1)
                  (Z.to_nat SIZE) ltac:(lia) Hb d p q)
        as (i & Hi & Hbetter & Hworse & Hins);
        [lia|done|done|by apply untracked_absent| |].
      { exists k0. split; [lia|]. split; [lia|]. by apply Z.ltb_lt. }
      rewrite <- add_bid_eq in Hins.
      exists i. split; [lia|]. split; [|split; [|split; [done|split]]].
      * intros k ? ?. apply Z.ltb_lt. by apply Hbetter.
      * intros k ? ?. apply Z.ltb_lt. apply Hworse; lia.
      * by apply (well_formed_mutate SIZE d (AddBid p q)).
      * replace SIZE with (SIZE - 1 + 1) at 2 by lia.
        apply (full_run_inserted d _ 0 (SIZE - 1) i (mkDepthLevel p 1 q));
          [lia|lia|lia|lia|done|done|done].
  - intros d c adds Hlen Hc Hdup Hall Hpath Hn.
    assert (E : SIZE - 1 + 1 = SIZE) by lia.
    pose proof (valid_levels_add_all Z.ltb 0 (SIZE - 1) (Z.to_nat SIZE) ltac:(lia) Hb
                  (add_bid SIZE) (add_bid_eq SIZE) adds d c ltac:(lia)) as H.
    rewrite E in H. specialize (H Hc Hdup Hall Hpath).
    destruct Hc as (? & _). rewrite Hn in H.
    by replace (Z.min _ _) with SIZE in H by lia.
  - intros d p q Hlen Hfull. split.
    + intros Hworse. rewrite add_ask_eq.
      apply (update_found_saturated Z.gtb gtb_irrefl gtb_trans SIZE (SIZE * 2 - 1));
        [done| |].
      * by replace (SIZE * 2 - 1 + 1) with (SIZE * 2) by lia.
      * intros k ? ?. rewrite Z.gtb_ltb. apply Z.ltb_lt.
        assert (p > slot_price d k) by (apply Hworse; lia). lia.
    + intros Hwf Hp Hun (k0 & ? & ? & Hk0).
      pose proof Hwf as (_ & _ & Hord).
      replace (SIZE * 2) with (SIZE * 2 - 1 + 1) in Hfull, Hord, Hun by lia.
      destruct (update_found_evicts Z.gtb gtb_trans gtb_total SIZE (SIZE * 2 - 1)
                  (Z.to_nat SIZE) ltac:(lia) Ha d p q)
        as (i & Hi & Hbetter & Hworse & Hins);
        [lia|done|done|by apply untracked_absent| |].
      { exists k0. split; [lia|]. split; [lia|].
        rewrite Z.gtb_ltb. apply Z.ltb_lt. lia. }
      rewrite <- add_ask_eq in Hins.
      exists i. split; [lia|]. split; [|split; [|split; [done|split]]].
      * intros k ? ?. specialize (Hbetter k ltac:(lia) ltac:(lia)).
        rewrite Z.gtb_ltb in Hbetter. apply Z.ltb_lt in Hbetter. lia.
      * intros k ? ?. specialize (Hworse k ltac:(lia) ltac:(lia)).
        rewrite Z.gtb_ltb in Hworse. apply Z.ltb_lt in Hworse. lia.
      * by apply (well_formed_mutate SIZE d (AddAsk p q)).
      * replace (SIZE * 2) with (SIZE * 2 - 1 + 1) by lia.
        apply (full_run_inserted d _ SIZE (SIZE * 2 - 1) i (mkDepthLevel p 1 q));
          [lia|lia|lia|lia|done|done|done].
  - intros d c adds Hlen Hc Hdup Hall Hpath Hn.
    assert (E : SIZE * 2 - 1 + 1 = SIZE * 2) by lia.
    pose proof (valid_levels_add_all Z.gtb SIZE (SIZE * 2 - 1) (Z.to_nat SIZE)
                  ltac:(lia) Ha (add_ask SIZE) (add_ask_eq SIZE) adds d c ltac:(lia)) as H.
    rewrite E in H. specialize (H Hc Hdup Hall Hpath).
    destruct Hc as (? & _). rewrite Hn in H.
    by replace (Z.min _ _) with SIZE in H by lia.
Qed.

Lemma C5_capacity_witness :
  add_bid 2 99 5 (run 2 [AddBid 101 1; AddBid 100 1])
    = run 2 [AddBid 101 1; AddBid 100 1] ∧
  valid_levels (add_all (add_bid 2) (Depth_new 2) [(1, 10); (2, 10); (3, 10)]) 0 2 2.
Proof.
  destruct (C5_capacity 2 ltac:(lia)) as (Hfull & Hcount & _).
  split.
  - apply (Hfull (run 2 [AddBid 101 1; AddBid 100 1]) 99 5).
    + reflexivity.
    + intros k ? ?. assert (k = 0 ∨ k = 1) as [-> | ->] by lia; discriminate.
    + intros k ? ?. assert (k = 0 ∨ k = 1) as [-> | ->] by lia; reflexivity.
  - apply (Hcount (Depth_new 2) 0 [(1, 10); (2, 10); (3, 10)]).
    + reflexivity.
    + split; [lia|]. split; [intros k ? ?; lia|].
      intros k ? ?. assert (k = 0 ∨ k = 1) as [-> | ->] by lia; reflexivity.
    + compute_done.
    + repeat (apply Forall_cons; split;
        [split; [discriminate|];
         intros k ? ? Hvalid;
         (assert (k = 0 ∨ k = 1) as [-> | ->] by lia); by destruct Hvalid|]).
      constructor.
    + simpl. repeat split; intros k ? ? Hvalid Hlast;
        (assert (k = 0 ∨ k = 1) as [-> | ->] by lia);
        first [reflexivity | by destruct Hvalid | destruct Hlast as [Hl|Hl]; discriminate Hl].
    + reflexivity.
Defined.

(** * Aggregation *)

Lemma add_ask_fresh SIZE :
  1 ≤ SIZE →
  add_ask SIZE 10 5 (Depth_new SIZE) = assign (Depth_new SIZE) SIZE (mkDepthLevel 10 1 5).
Proof.
  intros HSIZE. rewrite add_ask_eq.
  assert (Hblank : slot_price (Depth_new SIZE) SIZE = INVALID_LEVEL_PRICE)
    by (unfold slot_price; by rewrite deref_Depth_new).
  destruct (add_created Z.gtb SIZE (SIZE * 2 - 1) (Z.to_nat SIZE) ltac:(lia)
              (ask_run_size SIZE ltac:(lia)) (Depth_new SIZE) 10 5 SIZE)
    as [Hinit _].
  - rewrite len_Depth_new; lia.
  - lia.
  - by rewrite Hblank.
  - rewrite Hblank. apply stops_blank.
  - intros k ? ?. lia.
  - by apply Hinit.
Qed.

(** C7, as stated, fails in its general part: a Depth<3> after
    [add_ask(5,1)], [add_ask(0,1)], [add_ask(9,1)] holds the asks 9, 5, so
    the price 5 is tracked (ask slot 4); [add_ask(5,3)] stops at the
    higher price 9 in front of it and inserts a second level at 5 instead
    of adding the order to the one that is there: the asks are 5, 9, 5. *)
Lemma C7_counterexample :
  slot_price (run 3 [AddAsk 5 1; AddAsk 0 1; AddAsk 9 1]) 4 = 5 ∧
  5 ≠ INVALID_LEVEL_PRICE ∧
  add_ask 3 5 3 (run 3 [AddAsk 5 1; AddAsk 0 1; AddAsk 9 1])
    ≠ assign (run 3 [AddAsk 5 1; AddAsk 0 1; AddAsk 9 1]) 4
        (add_order 3 (deref (run 3 [AddAsk 5 1; AddAsk 0 1; AddAsk 9 1]) 4)) ∧
  prices (add_ask 3 5 3 (run 3 [AddAsk 5 1; AddAsk 0 1; AddAsk 9 1])) 3 3
    = [5; 9; 5].
Proof.
  split; [reflexivity|]. split; [discriminate|]. split; [|reflexivity].
  vm_compute. discriminate.
Qed.

(** C7, amended: on a fresh Depth<SIZE>, SIZE >= 1, add_ask(10, 5)
    followed by add_ask(10, 3) leaves exactly one occupied slot, the first
    ask slot, at price 10 with two orders and aggregate quantity 8; every
    other slot is as constructed.  In general, on an array that satisfies
    the sort and contiguity invariants (as every state reached without an
    add at the sentinel price does), an add at a non-sentinel price that a
    slot of the run already has adds the order to that slot and changes no
    other slot. *)
Theorem C7_aggregation (SIZE : Z) :
  1 ≤ SIZE →
  run SIZE [AddAsk 10 5; AddAsk 10 3]
    = assign (Depth_new SIZE) SIZE (mkDepthLevel 10 2 8) ∧
  (∀ k, 0 ≤ k → k < SIZE * 2 →
     deref (run SIZE [AddAsk 10 5; AddAsk 10 3]) k =
       if decide (k = SIZE) then mkDepthLevel 10 2 8 else zeroed) ∧
  (∀ d p q i, well_formed SIZE d → p ≠ INVALID_LEVEL_PRICE →
     SIZE ≤ i < SIZE * 2 → slot_price d i = p →
     add_ask SIZE p q d = assign d i (add_order q (deref d i))) ∧
  (∀ d p q i, well_formed SIZE d → p ≠ INVALID_LEVEL_PRICE →
     0 ≤ i < SIZE → slot_price d i = p →
     add_bid SIZE p q d = assign d i (add_order q (deref d i))).
Proof.
  intros HSIZE.
  assert (H0 : 0 ≤ SIZE) by lia.
  pose proof (bid_run_size SIZE H0) as Hb.
  pose proof (ask_run_size SIZE H0) as Ha.
  assert (Hask : ∀ d p q i, well_formed SIZE d → p ≠ INVALID_LEVEL_PRICE →
            SIZE ≤ i < SIZE * 2 → slot_price d i = p →
            add_ask SIZE p q d = assign d i (add_order q (deref d i))).
  { intros d p q i (Hlen & _ & Hord) Hp Hi Heq. rewrite add_ask_eq.
    replace (SIZE * 2) with (SIZE * 2 - 1 + 1) in Hord by lia.
    apply (update_found_tracked Z.gtb gtb_irrefl gtb_trans SIZE (SIZE * 2 - 1));
      (done || lia). }
  assert (Hrun : run SIZE [AddAsk 10 5; AddAsk 10 3]
                 = assign (Depth_new SIZE) SIZE (mkDepthLevel 10 2 8)).
  { unfold run. simpl.
    assert (Hwf : well_formed SIZE (add_ask SIZE 10 5 (Depth_new SIZE))).
    { apply (well_formed_mutate SIZE (Depth_new SIZE) (AddAsk 10 5));
        [done|done|by apply well_formed_Depth_new]. }
    rewrite (Hask _ 10 3 SIZE Hwf); [|done|lia|].
    - rewrite add_ask_fresh by done.
      rewrite deref_assign by (rewrite ?len_Depth_new; lia).
      rewrite decide_True by done. by rewrite assign_assign.
    - rewrite add_ask_fresh by done. unfold slot_price.
      rewrite deref_assign by (rewrite ?len_Depth_new; lia).
      by rewrite decide_True.
  }
  split; [done|]. split; [|split; [done|]].
  - intros k ? ?. rewrite Hrun.
    rewrite deref_assign by (rewrite ?len_Depth_new; lia).
    destruct (decide (k = SIZE)); [done|apply deref_Depth_new].
  - intros d p q i (Hlen & Hord & _) Hp Hi Heq. rewrite add_bid_eq.
    replace SIZE with (SIZE - 1 + 1) in Hord at 1 by lia.
    apply (update_found_tracked Z.ltb ltb_irrefl ltb_trans 0 (SIZE - 1));
      (done || lia).
Qed.

Lemma C7_aggregation_witness :
  run 5 [AddAsk 10 5; AddAsk 10 3]
    = assign (Depth_new 5) 5 (mkDepthLevel 10 2 8) ∧
  prices (run 5 [AddAsk 10 5; AddAsk 10 3]) 5 5 = [10; 0; 0; 0; 0].
Proof.
  split.
  - apply (C7_aggregation 5). lia.
  - reflexivity.
Defined.

(** * Round trip *)

Section round_trip.

Variable worse : Price → Price → bool.
Variables (lo last : Z) (n : nat).
Hypothesis lo_nonneg : 0 ≤ lo.
Hypothesis run_size : lo + Z.of_nat n = last + 1.

(** An add of a new price that finds room, followed by a close of the
    same price and quantity: the close erases the slot the add created. *)
Lemma add_then_close d p q :
  last < len d → p ≠ INVALID_LEVEL_PRICE →
  untracked d lo (last + 1) p →
  (∃ k, lo ≤ k ∧ k < last + 1 ∧
        (slot_price d k = INVALID_LEVEL_PRICE ∨ worse (slot_price d k) p = true)) →
  ∃ i, lo ≤ i ≤ last ∧
    stops worse p true (slot_price d i) = true ∧
    (∀ k, lo ≤ k → k < i → stops worse p true (slot_price d k) = false) ∧
    (slot_price d i = INVALID_LEVEL_PRICE →
       update_found (add_order q) (find_from worse last n lo p true d)
         = assign d i (mkDepthLevel p 1 q)) ∧
    (slot_price d i ≠ INVALID_LEVEL_PRICE →
       inserted_at d (update_found (add_order q) (find_from worse last n lo p true d))
         last i (mkDepthLevel p 1 q)) ∧
    close_found last q
      (find_from worse last n lo p false
         (update_found (add_order q) (find_from worse last n lo p true d)))
    = (erase_level i last
         (update_found (add_order q) (find_from worse last n lo p true d)), true).
Proof using lo_nonneg run_size.
  intros Hlen Hp Hun (k0 & ? & ? & Hk0).
  pose proof (untracked_absent lo last d p Hp Hun) as Hnew.
  destruct (find_from_cases worse last n lo p true d)
    as [(i & Hi & Hstop & Hbefore & _)|[Hpass _]].
  2: { specialize (Hpass k0 ltac:(lia) ltac:(lia)).
       destruct Hk0 as [Hk0|Hk0].
       - rewrite Hk0, stops_blank in Hpass. done.
       - by rewrite stops_worse in Hpass. }
  exists i. split; [lia|]. split; [done|]. split; [done|].
  destruct (add_created worse lo last n lo_nonneg run_size d p q i)
    as [Hinit Hins]; [done|lia|apply Hnew; lia|done|done|].
  split; [done|]. split; [done|].
  set (d1 := update_found (add_order q) (find_from worse last n lo p true d)) in *.
  assert (Hlen1 : len d1 = len d)
    by (unfold len, d1; by rewrite length_update_found).
  assert (Hd1 : deref d1 i = mkDepthLevel p 1 q ∧
                ∀ k, 0 ≤ k → k < i → deref d1 k = deref d k).
  { destruct (decide (slot_price d i = INVALID_LEVEL_PRICE)) as [Hb|Hv].
    - rewrite (Hinit Hb). split.
      + rewrite deref_assign by lia. by rewrite decide_True.
      + intros k ? ?. apply deref_assign_outside; lia.
    - destruct (Hins Hv) as [_ Hat]. split.
      + rewrite Hat by lia. by rewrite decide_True.
      + intros k ? ?. rewrite Hat by lia. by rewrite !decide_False by lia. }
  destruct Hd1 as [Hd1 Hd1_before].
  rewrite (close_found_present worse lo last n lo_nonneg run_size q d1 p i).
  - by rewrite Hd1.
  - lia.
  - split; [lia|]. split; [unfold slot_price; by rewrite Hd1|].
    intros k ? ?. unfold slot_price. rewrite Hd1_before by lia. apply Hnew; lia.
Qed.

End round_trip.

(** C6, as stated, fails for SIZE > 1 when a better bid is tracked: on a
    Depth<2> holding the bid 101, [add_bid(100, 50)] then
    [close_bid(100, 50)] returns true, but the first slot afterwards holds
    101, the best level as before, not the level that was second-best. *)
Lemma C6_counterexample :
  untracked (run 2 [AddBid 101 1]) 0 2 100 ∧
  (∃ k, 0 ≤ k ∧ k < 2 ∧
        (slot_price (run 2 [AddBid 101 1]) k = INVALID_LEVEL_PRICE ∨
         slot_price (run 2 [AddBid 101 1]) k < 100)) ∧
  ∃ d2, close_bid 2 100 50 (add_bid 2 100 50 (run 2 [AddBid 101 1])) = (d2, true) ∧
        deref d2 0 = deref (run 2 [AddBid 101 1]) 0 ∧
        deref d2 0 ≠ deref (add_bid 2 100 50 (run 2 [AddBid 101 1])) 1 ∧
        deref d2 0 ≠ deref (run 2 [AddBid 101 1]) 1.
Proof.
  split; [|split].
  - intros k ? ? _. assert (k = 0 ∨ k = 1) as [-> | ->] by lia; discriminate.
  - exists 1. split; [lia|]. split; [lia|]. by left.
  - eexists. split; [reflexivity|]. split; [reflexivity|]. split; discriminate.
Qed.

(** C6, amended: from any reachable state of a Depth<SIZE>, SIZE >= 1,
    in which the bid price 100 is not tracked and the bid run is not
    saturated with better prices, add_bid(100, 50) followed by
    close_bid(100, 50) makes close_bid return true; for SIZE = 1 the single
    bid slot is blank afterwards; for SIZE > 1, provided 100 became the
    best bid (the first slot was unused or held a lower price), the level
    that was second-best before the close occupies the first slot
    afterwards, and that is the level that was best before the add, if
    there was one. *)
Theorem C6_round_trip (SIZE : Z) (ms : list mutator) :
  1 ≤ SIZE →
  untracked (run SIZE ms) 0 SIZE 100 →
  (∃ k, 0 ≤ k ∧ k < SIZE ∧
        (slot_price (run SIZE ms) k = INVALID_LEVEL_PRICE ∨
         slot_price (run SIZE ms) k < 100)) →
  ∃ d2, close_bid SIZE 100 50 (add_bid SIZE 100 50 (run SIZE ms)) = (d2, true) ∧
    (SIZE = 1 → deref d2 0 = init INVALID_LEVEL_PRICE) ∧
    (1 < SIZE →
       slot_price (run SIZE ms) 0 = INVALID_LEVEL_PRICE ∨
       slot_price (run SIZE ms) 0 < 100 →
       deref d2 0 = deref (add_bid SIZE 100 50 (run SIZE ms)) 1 ∧
       (slot_price (run SIZE ms) 0 ≠ INVALID_LEVEL_PRICE →
          deref d2 0 = deref (run SIZE ms) 0)).
Proof.
  intros HSIZE Hun (k0 & ? & ? & Hk0).
  assert (Hnonneg : 0 ≤ SIZE) by lia.
  pose proof (bid_run_size SIZE Hnonneg) as Hb.
  pose proof (len_run SIZE ms Hnonneg) as Hlen.
  set (d := run SIZE ms) in *.
  replace SIZE with (SIZE - 1 + 1) in Hun at 1 by lia.
  destruct (add_then_close Z.ltb 0 (SIZE - 1) (Z.to_nat SIZE) ltac:(lia) Hb d 100 50)
    as (i & Hi & Hstop & Hbefore & Hinit & Hins & Hclose);
    [lia|done|done| |].
  { exists k0. split; [lia|]. split; [lia|].
    destruct Hk0 as [?|?]; [by left|right; by apply Z.ltb_lt]. }
  rewrite <- !add_bid_eq in *. rewrite <- close_bid_eq in Hclose.
  set (d1 := add_bid SIZE 100 50 d) in *.
  assert (Hlen1 : len d1 = len d).
  { unfold len, d1. rewrite add_bid_eq. by rewrite length_update_found. }
  eexists. split; [exact Hclose|]. split.
  - intros ->. assert (i = 0) as -> by lia.
    rewrite erase_level_deref by lia. by rewrite decide_True.
  - intros Hbig Hfirst.
    assert (i = 0) as ->.
    { destruct (decide (i = 0)); [done|].
      specialize (Hbefore 0 ltac:(lia) ltac:(lia)).
      destruct Hfirst as [Hf|Hf].
      - rewrite Hf, stops_blank in Hbefore. done.
      - rewrite stops_worse in Hbefore; [done|by apply Z.ltb_lt]. }
    rewrite erase_level_deref by lia.
    rewrite decide_False by lia. rewrite decide_True by lia.
    split; [done|]. intros Hvalid.
    destruct (Hins Hvalid) as [_ Hat]. rewrite Hat by lia.
    rewrite decide_False by lia. rewrite decide_True by lia. f_equal.
Qed.

Lemma C6_round_trip_witness :
  ∃ d2, close_bid 2 100 50 (add_bid 2 100 50 (run 2 [AddBid 99 1])) = (d2, true) ∧
    (2 = 1 → deref d2 0 = init INVALID_LEVEL_PRICE) ∧
    (1 < 2 →
       slot_price (run 2 [AddBid 99 1]) 0 = INVALID_LEVEL_PRICE ∨
       slot_price (run 2 [AddBid 99 1]) 0 < 100 →
       deref d2 0 = deref (add_bid 2 100 50 (run 2 [AddBid 99 1])) 1 ∧
       (slot_price (run 2 [AddBid 99 1]) 0 ≠ INVALID_LEVEL_PRICE →
          deref d2 0 = deref (run 2 [AddBid 99 1]) 0)).
Proof.
  apply (C6_round_trip 2 [AddBid 99 1]).
  - lia.
  - intros k ? ? _. assert (k = 0 ∨ k = 1) as [-> | ->] by lia; discriminate.
  - exists 0. split; [lia|]. split; [lia|]. right. reflexivity.
Defined.

(** * Further properties of the shifts *)

(** Erasing the slot at which a level was just inserted gives back the
    array with its last slot blank (the level that was there is lost);
    inserting at the slot that was just erased gives back the array with a
    fresh level in that slot. *)
Theorem insert_erase_inverse (i last : Z) (p : Price) (d : Depth) :
  0 ≤ i ≤ last → last < len d →
  erase_level i last (insert_level_before i last p d)
    = assign d last (init INVALID_LEVEL_PRICE) ∧
  insert_level_before i last p (erase_level i last d) = assign d i (init p).
Proof.
  intros Hi Hlen.
  assert (Hlen_ins : len (insert_level_before i last p d) = len d)
    by (unfold len; by rewrite length_insert_level_before).
  assert (Hlen_er : len (erase_level i last d) = len d)
    by (unfold len; by rewrite length_erase_level).
  split; apply Depth_ext.
  - by rewrite length_erase_level, length_insert_level_before, length_assign.
  - intros k Hk. unfold len in Hk. rewrite length_erase_level in Hk.
    fold (len (insert_level_before i last p d)) in Hk.
    rewrite erase_level_deref by lia. rewrite deref_assign by lia.
    destruct (decide (k = last)); [done|].
    destruct (decide (i ≤ k < last)).
    + rewrite insert_level_before_deref by lia.
      rewrite decide_False by lia. rewrite decide_True by lia. f_equal. lia.
    + rewrite insert_level_before_deref by lia.
      rewrite decide_False by lia. by rewrite decide_False by lia.
  - by rewrite length_insert_level_before, length_erase_level, length_assign.
  - intros k Hk. unfold len in Hk. rewrite length_insert_level_before in Hk.
    fold (len (erase_level i last d)) in Hk.
    rewrite insert_level_before_deref by lia. rewrite deref_assign by lia.
    destruct (decide (k = i)); [done|].
    destruct (decide (i < k ≤ last)).
    + rewrite erase_level_deref by lia.
      rewrite decide_False by lia. rewrite decide_True by lia. f_equal. lia.
    + rewrite erase_level_deref by lia.
      rewrite decide_False by lia. by rewrite decide_False by lia.
Qed.

Lemma insert_erase_inverse_witness :
  erase_level 0 2 (insert_level_before 0 2 100
                     (run 3 [AddBid 99 1; AddBid 98 1; AddBid 97 1]))
    = assign (run 3 [AddBid 99 1; AddBid 98 1; AddBid 97 1]) 2
        (init INVALID_LEVEL_PRICE) ∧
  insert_level_before 0 2 100
    (erase_level 0 2 (run 3 [AddBid 99 1; AddBid 98 1; AddBid 97 1]))
    = assign (run 3 [AddBid 99 1; AddBid 98 1; AddBid 97 1]) 0 (init 100).
Proof.
  apply (insert_erase_inverse 0 2 100
           (run 3 [AddBid 99 1; AddBid 98 1; AddBid 97 1])).
  - lia.
  - reflexivity.
Defined.

(** * Further properties of the scans *)

Section lookup_facts.

Variable worse : Price → Price → bool.
Variables (lo last : Z) (n : nat).
Hypothesis lo_nonneg : 0 ≤ lo.
Hypothesis run_size : lo + Z.of_nat n = last + 1.

(** A scan that may not create is a lookup of the first slot with the
    price. *)
Lemma find_from_lookup d p :
  (find_from worse last n lo p false d).2 = d ∧
  (∀ i, (find_from worse last n lo p false d).1 = Some i ↔
        first_at_price d lo (last + 1) p i) ∧
  ((find_from worse last n lo p false d).1 = None ↔
     ∀ k, lo ≤ k → k < last + 1 → slot_price d k ≠ p).
Proof using run_size.
  destruct (first_at_price_cases lo last n run_size d p) as [Hnone|[i Hi]].
  - rewrite (find_from_absent worse lo last n run_size d p Hnone). simpl.
    split; [done|]. split; [|done].
    intros i. split; [done|]. intros (Hi & Heq & _). exfalso.
    apply (Hnone i); (done || lia).
  - rewrite (find_from_present worse lo last n run_size d p i Hi). simpl.
    split; [done|]. split.
    + intros j. split; [by intros [= <-]|].
      intros (Hj & Hjeq & Hjbefore). destruct Hi as (Hi & Hieq & Hibefore).
      f_equal. destruct (Z.lt_trichotomy i j) as [Hlt|[Heq|Hgt]]; [|done|].
      * exfalso. apply (Hjbefore i); (done || lia).
      * exfalso. apply (Hibefore j); (done || lia).
    + split; [done|]. intros Hnone. exfalso. destruct Hi as (Hi & Hieq & _).
      apply (Hnone i); (done || lia).
Qed.

Hypothesis worse_irrefl : ∀ a, worse a a = false.
Hypothesis worse_trans :
  ∀ a b c, worse a b = true → worse b c = true → worse a c = true.
Hypothesis worse_total : ∀ a b, a ≠ b → worse a b = false → worse b a = true.

Lemma stops_create_false p a :
  stops worse p true a = false ↔
  a ≠ INVALID_LEVEL_PRICE ∧ worse p a = true.
Proof using worse_irrefl worse_trans worse_total.
  split.
  - intros H. by destruct (stops_false_create worse worse_total p a H) as (_ & ? & ?).
  - intros [Hvalid Hw]. unfold stops. simpl.
    assert (Hne : a ≠ p).
    { intros ->. by rewrite worse_irrefl in Hw. }
    apply Z.eqb_neq in Hne, Hvalid. rewrite Hne, Hvalid. simpl.
    by apply (worse_asym worse worse_irrefl worse_trans).
Qed.

(** A creating scan returns NULL exactly when every slot of the run is
    valid and strictly better than the price, and then writes nothing;
    otherwise it returns a slot of the run that now has the price, having
    walked only past valid, strictly better slots, which it left alone. *)
Lemma find_from_create d p :
  last < len d →
  ((find_from worse last n lo p true d).1 = None ↔
     ∀ k, lo ≤ k → k < last + 1 →
       slot_price d k ≠ INVALID_LEVEL_PRICE ∧ worse p (slot_price d k) = true) ∧
  ((find_from worse last n lo p true d).1 = None →
     (find_from worse last n lo p true d).2 = d) ∧
  (∀ i, (find_from worse last n lo p true d).1 = Some i →
     lo ≤ i ≤ last ∧
     slot_price (find_from worse last n lo p true d).2 i = p ∧
     length (find_from worse last n lo p true d).2 = length d ∧
     ∀ k, lo ≤ k → k < i →
       deref (find_from worse last n lo p true d).2 k = deref d k ∧
       slot_price d k ≠ INVALID_LEVEL_PRICE ∧ worse p (slot_price d k) = true).
Proof using lo_nonneg run_size worse_irrefl worse_trans worse_total.
  intros Hlen.
  destruct (find_from_cases worse last n lo p true d)
    as [(i & Hi & Hstop & Hbefore & ->)|[Hpass ->]]; simpl.
  - split; [|split; [done|]].
    + split; [done|]. intros Hall. exfalso.
      assert (stops worse p true (slot_price d i) = false) as Hf
        by (apply stops_create_false, Hall; lia).
      by rewrite Hf in Hstop.
    + intros j [= <-]. split; [lia|]. split; [|split].
      * apply (slot_price_on_stop worse); (done || lia).
      * apply length_on_stop.
      * intros k ? ?. split; [apply on_stop_outside; lia|].
        by apply stops_create_false, Hbefore.
  - split; [|done]. split; [|done]. intros _ k ? ?.
    apply stops_create_false, Hpass; lia.
Qed.

(** The first slot of the run after an update through a creating scan:
    the price if the slot was unused or worse, what it was otherwise. *)
Lemma first_slot_after_create f d p :
  (∀ l, price (f l) = price l) →
  lo ≤ last → last < len d →
  slot_price (update_found f (find_from worse last n lo p true d)) lo =
    if slot_price d lo =? INVALID_LEVEL_PRICE then p
    else if worse (slot_price d lo) p then p
    else slot_price d lo.
Proof using lo_nonneg run_size worse_irrefl worse_trans worse_total.
  intros Hf Hlo Hlen.
  destruct (find_from_cases worse last n lo p true d)
    as [(i & Hi & Hstop & Hbefore & ->)|[Hpass ->]]; simpl.
  - assert (Hlen' : len (on_stop last p true i d) = len d)
      by (unfold len; by rewrite length_on_stop).
    rewrite slot_price_assign_same; [|lia|lia|apply Hf].
    destruct (decide (i = lo)) as [->|Hne].
    + rewrite (slot_price_on_stop worse) by (done || lia).
      unfold stops in Hstop. simpl in Hstop.
      destruct (Z.eqb_spec (slot_price d lo) INVALID_LEVEL_PRICE); [done|].
      destruct (worse (slot_price d lo) p); [done|].
      simpl in Hstop. rewrite orb_false_r in Hstop. by apply Z.eqb_eq in Hstop.
    + assert (Hpast : stops worse p true (slot_price d lo) = false)
        by (apply Hbefore; lia).
      apply stops_create_false in Hpast as [Hvalid Hw].
      unfold slot_price at 1. rewrite on_stop_outside by lia.
      fold (slot_price d lo).
      apply Z.eqb_neq in Hvalid. rewrite Hvalid.
      by rewrite (worse_asym worse worse_irrefl worse_trans _ _ Hw).
  - assert (Hpast : stops worse p true (slot_price d lo) = false)
      by (apply Hpass; lia).
    apply stops_create_false in Hpast as [Hvalid Hw].
    apply Z.eqb_neq in Hvalid. rewrite Hvalid.
    by rewrite (worse_asym worse worse_irrefl worse_trans _ _ Hw).
Qed.

(** An add never loses or alters a level in front of the last slot,
    except that it adds the order to the level at its price; and every
    slot of the run afterwards holds the price added or a price that was
    in the run. *)
Lemma add_keeps_levels d p q :
  last < len d →
  (∀ k, lo ≤ k → k < last → slot_price d k ≠ INVALID_LEVEL_PRICE →
     ∃ k', k ≤ k' ≤ k + 1 ∧
       (deref (update_found (add_order q) (find_from worse last n lo p true d)) k'
          = deref d k ∨
        (slot_price d k = p ∧
         deref (update_found (add_order q) (find_from worse last n lo p true d)) k'
           = add_order q (deref d k)))) ∧
  (∀ k, lo ≤ k → k ≤ last →
     slot_price (update_found (add_order q) (find_from worse last n lo p true d)) k = p ∨
     ∃ k', lo ≤ k' ≤ last ∧
       slot_price (update_found (add_order q) (find_from worse last n lo p true d)) k
         = slot_price d k').
Proof using lo_nonneg run_size.
  clear worse_irrefl worse_trans worse_total.
  intros Hlen. split; [|intros k ? ?; apply slot_price_add_from; (done || lia)].
  intros k ? ? Hvalid.
  destruct (find_from_cases worse last n lo p true d)
    as [(i & Hi & Hstop & Hbefore & Hfind)|[Hpass ->]];
    [|exists k; split; [lia|by left]].
  destruct (decide (slot_price d i = p)) as [Heq|Hne].
  - rewrite Hfind. simpl. unfold on_stop. apply Z.eqb_eq in Heq as Heqb.
    rewrite Heqb. exists k. split; [lia|]. rewrite deref_assign by lia.
    destruct (decide (k = i)) as [->|]; [by right|by left].
  - destruct (add_created worse lo last n lo_nonneg run_size d p q i)
      as [Hinit Hins]; [done|lia|done|done|done|].
    destruct (decide (slot_price d i = INVALID_LEVEL_PRICE)) as [Hb|Hv].
    + rewrite (Hinit Hb). exists k. split; [lia|]. left.
      apply deref_assign_outside; [lia|lia|]. by intros ->.
    + destruct (Hins Hv) as [_ Hat].
      destruct (decide (k < i)).
      * exists k. split; [lia|]. left. rewrite Hat by lia.
        by rewrite !decide_False by lia.
      * exists (k + 1). split; [lia|]. left. rewrite Hat by lia.
        rewrite decide_False by lia. rewrite decide_True by lia. f_equal. lia.
Qed.

End lookup_facts.

(** [find_bid] and [find_ask] called with [should_create = false] are
    lookups: they never write the array, return the first slot of their
    run whose price is the one asked for, and return NULL exactly when no
    slot of the run has it. *)
Theorem find_without_create_is_lookup (SIZE : Z) (d : Depth) (p : Price) :
  0 ≤ SIZE →
  ((find_bid SIZE p false d).2 = d ∧
   (∀ i, (find_bid SIZE p false d).1 = Some i ↔ first_at_price d 0 SIZE p i) ∧
   ((find_bid SIZE p false d).1 = None ↔
      ∀ k, 0 ≤ k → k < SIZE → slot_price d k ≠ p)) ∧
  ((find_ask SIZE p false d).2 = d ∧
   (∀ i, (find_ask SIZE p false d).1 = Some i ↔
         first_at_price d SIZE (SIZE * 2) p i) ∧
   ((find_ask SIZE p false d).1 = None ↔
      ∀ k, SIZE ≤ k → k < SIZE * 2 → slot_price d k ≠ p)).
Proof.
  intros HSIZE. split.
  - pose proof (find_from_lookup Z.ltb 0 (SIZE - 1) (Z.to_nat SIZE)
                  (bid_run_size SIZE HSIZE) d p) as H.
    replace (SIZE - 1 + 1) with SIZE in H by lia.
    by rewrite <- find_bid_eq in H.
  - pose proof (find_from_lookup Z.gtb SIZE (SIZE * 2 - 1) (Z.to_nat SIZE)
                  (ask_run_size SIZE HSIZE) d p) as H.
    replace (SIZE * 2 - 1 + 1) with (SIZE * 2) in H by lia.
    by rewrite <- find_ask_eq in H.
Qed.

Lemma find_without_create_is_lookup_witness :
  find_bid 3 99 false (run 3 [AddBid 101 10; AddBid 99 10]) =
    (Some 1, run 3 [AddBid 101 10; AddBid 99 10]) ∧
  ((find_ask 3 99 false (run 3 [AddBid 101 10; AddBid 99 10])).1 = None ↔
     ∀ k, 3 ≤ k → k < 3 * 2 →
       slot_price (run 3 [AddBid 101 10; AddBid 99 10]) k ≠ 99).
Proof.
  destruct (find_without_create_is_lookup 3 (run 3 [AddBid 101 10; AddBid 99 10]) 99)
    as [_ (_ & _ & Hask)]; [lia|].
  split; [reflexivity|exact Hask].
Defined.

(** [find_bid] called with [should_create = true] returns NULL exactly
    when every bid slot is valid and holds a strictly higher price, and it
    then leaves the array as it is; when it returns a slot, the slot lies
    in the bid run and holds the price afterwards, the array keeps its
    size, and the slots in front of it are untouched, valid and strictly
    higher.  [find_ask] is the mirror image, with strictly lower prices. *)
Theorem find_with_create (SIZE : Z) (d : Depth) (p : Price) :
  0 ≤ SIZE → len d = SIZE * 2 →
  (((find_bid SIZE p true d).1 = None ↔
      ∀ k, 0 ≤ k → k < SIZE →
        slot_price d k ≠ INVALID_LEVEL_PRICE ∧ p < slot_price d k) ∧
   ((find_bid SIZE p true d).1 = None → (find_bid SIZE p true d).2 = d) ∧
   (∀ i, (find_bid SIZE p true d).1 = Some i →
      0 ≤ i < SIZE ∧
      slot_price (find_bid SIZE p true d).2 i = p ∧
      length (find_bid SIZE p true d).2 = length d ∧
      ∀ k, 0 ≤ k → k < i →
        deref (find_bid SIZE p true d).2 k = deref d k ∧
        slot_price d k ≠ INVALID_LEVEL_PRICE ∧ p < slot_price d k)) ∧
  (((find_ask SIZE p true d).1 = None ↔
      ∀ k, SIZE ≤ k → k < SIZE * 2 →
        slot_price d k ≠ INVALID_LEVEL_PRICE ∧ slot_price d k < p) ∧
   ((find_ask SIZE p true d).1 = None → (find_ask SIZE p true d).2 = d) ∧
   (∀ i, (find_ask SIZE p true d).1 = Some i →
      SIZE ≤ i < SIZE * 2 ∧
      slot_price (find_ask SIZE p true d).2 i = p ∧
      length (find_ask SIZE p true d).2 = length d ∧
      ∀ k, SIZE ≤ k → k < i →
        deref (find_ask SIZE p true d).2 k = deref d k ∧
        slot_price d k ≠ INVALID_LEVEL_PRICE ∧ slot_price d k < p)).
Proof.
  intros HSIZE Hlen. split.
  - destruct (find_from_create Z.ltb 0 (SIZE - 1) (Z.to_nat SIZE) ltac:(lia)
                (bid_run_size SIZE HSIZE) ltb_irrefl ltb_trans ltb_total d p ltac:(lia))
      as (Hnone & Hsame & Hsome).
    rewrite <- find_bid_eq in *. split; [|split; [done|]].
    + rewrite Hnone. split; intros H k ? ?;
        (destruct (H k) as [? Hw]; [lia..|]); (split; [done|]).
      * by apply Z.ltb_lt.
      * by apply Z.ltb_lt.
    + intros i Hi. destruct (Hsome i Hi) as (? & ? & ? & Hbefore).
      split; [lia|]. split; [done|]. split; [done|].
      intros k ? ?. destruct (Hbefore k) as (? & ? & Hw); [lia..|].
      split; [done|]. split; [done|]. by apply Z.ltb_lt.
  - destruct (find_from_create Z.gtb SIZE (SIZE * 2 - 1) (Z.to_nat SIZE) ltac:(lia)
                (ask_run_size SIZE HSIZE) gtb_irrefl gtb_trans gtb_total d p ltac:(lia))
      as (Hnone & Hsame & Hsome).
    rewrite <- find_ask_eq in *. split; [|split; [done|]].
    + rewrite Hnone. split; intros H k ? ?;
        (destruct (H k) as [? Hw]; [lia..|]); (split; [done|]).
      * rewrite Z.gtb_ltb in Hw. by apply Z.ltb_lt.
      * rewrite Z.gtb_ltb. by apply Z.ltb_lt.
    + intros i Hi. destruct (Hsome i Hi) as (? & ? & ? & Hbefore).
      split; [lia|]. split; [done|]. split; [done|].
      intros k ? ?. destruct (Hbefore k) as (? & ? & Hw); [lia..|].
      split; [done|]. split; [done|]. rewrite Z.gtb_ltb in Hw. by apply Z.ltb_lt.
Qed.

Lemma find_with_create_witness :
  (find_bid 2 99 true (run 2 [AddBid 101 1; AddBid 100 1])).1 = None ↔
  ∀ k, 0 ≤ k → k < 2 →
    slot_price (run 2 [AddBid 101 1; AddBid 100 1]) k ≠ INVALID_LEVEL_PRICE ∧
    99 < slot_price (run 2 [AddBid 101 1; AddBid 100 1]) k.
Proof.
  destruct (find_with_create 2 (run 2 [AddBid 101 1; AddBid 100 1]) 99)
    as [(Hnone & _) _]; [lia|reflexivity|exact Hnone].
Defined.

(** After add_bid the first bid slot holds the higher of the price added
    and the price it held (the price added if it was unused); after
    add_ask the first ask slot holds the lower one. *)
Theorem best_level_after_add (SIZE : Z) (d : Depth) (p : Price) (q : Quantity) :
  1 ≤ SIZE → len d = SIZE * 2 →
  slot_price (add_bid SIZE p q d) 0 =
    (if slot_price d 0 =? INVALID_LEVEL_PRICE then p
     else Z.max (slot_price d 0) p) ∧
  slot_price (add_ask SIZE p q d) SIZE =
    (if slot_price d SIZE =? INVALID_LEVEL_PRICE then p
     else Z.min (slot_price d SIZE) p).
Proof.
  intros HSIZE Hlen. assert (H0 : 0 ≤ SIZE) by lia. split.
  - rewrite add_bid_eq.
    rewrite (first_slot_after_create Z.ltb 0 (SIZE - 1) (Z.to_nat SIZE) ltac:(lia)
               (bid_run_size SIZE H0) ltb_irrefl ltb_trans ltb_total)
      by (done || lia).
    destruct (_ =? INVALID_LEVEL_PRICE); [done|].
    destruct (Z.ltb_spec (slot_price d 0) p); lia.
  - rewrite add_ask_eq.
    rewrite (first_slot_after_create Z.gtb SIZE (SIZE * 2 - 1) (Z.to_nat SIZE)
               ltac:(lia) (ask_run_size SIZE H0) gtb_irrefl gtb_trans gtb_total)
      by (done || lia).
    destruct (_ =? INVALID_LEVEL_PRICE); [done|].
    rewrite Z.gtb_ltb. destruct (Z.ltb_spec p (slot_price d SIZE)); lia.
Qed.

Lemma best_level_after_add_witness :
  slot_price (add_bid 2 100 50 (run 2 [AddBid 99 1])) 0 =
    (if slot_price (run 2 [AddBid 99 1]) 0 =? INVALID_LEVEL_PRICE then 100
     else Z.max (slot_price (run 2 [AddBid 99 1]) 0) 100) ∧
  slot_price (add_ask 2 100 50 (run 2 [AddBid 99 1])) 2 =
    (if slot_price (run 2 [AddBid 99 1]) 2 =? INVALID_LEVEL_PRICE then 100
     else Z.min (slot_price (run 2 [AddBid 99 1]) 2) 100).
Proof.
  apply (best_level_after_add 2 (run 2 [AddBid 99 1]) 100 50).
  - lia.
  - reflexivity.
Defined.

(** add_bid never loses or alters a bid level in front of the last bid
    slot: each is afterwards in its slot or the next one, unchanged, or
    with the order added if it is the level at the price; and every bid
    slot afterwards holds the price added or a price the run held.  The
    same for add_ask on the ask run. *)
Theorem add_keeps_better_levels (SIZE : Z) (d : Depth) (p : Price) (q : Quantity) :
  0 ≤ SIZE → len d = SIZE * 2 →
  ((∀ k, 0 ≤ k → k < SIZE - 1 → slot_price d k ≠ INVALID_LEVEL_PRICE →
      ∃ k', k ≤ k' ≤ k + 1 ∧
        (deref (add_bid SIZE p q d) k' = deref d k ∨
         (slot_price d k = p ∧ deref (add_bid SIZE p q d) k' = add_order q (deref d k)))) ∧
   (∀ k, 0 ≤ k → k ≤ SIZE - 1 →
      slot_price (add_bid SIZE p q d) k = p ∨
      ∃ k', 0 ≤ k' ≤ SIZE - 1 ∧ slot_price (add_bid SIZE p q d) k = slot_price d k')) ∧
  ((∀ k, SIZE ≤ k → k < SIZE * 2 - 1 → slot_price d k ≠ INVALID_LEVEL_PRICE →
      ∃ k', k ≤ k' ≤ k + 1 ∧
        (deref (add_ask SIZE p q d) k' = deref d k ∨
         (slot_price d k = p ∧ deref (add_ask SIZE p q d) k' = add_order q (deref d k)))) ∧
   (∀ k, SIZE ≤ k → k ≤ SIZE * 2 - 1 →
      slot_price (add_ask SIZE p q d) k = p ∨
      ∃ k', SIZE ≤ k' ≤ SIZE * 2 - 1 ∧
        slot_price (add_ask SIZE p q d) k = slot_price d k')).
Proof.
  intros HSIZE Hlen. split.
  - rewrite add_bid_eq.
    apply (add_keeps_levels Z.ltb 0 (SIZE - 1) (Z.to_nat SIZE) ltac:(lia)
             (bid_run_size SIZE HSIZE)). lia.
  - rewrite add_ask_eq.
    apply (add_keeps_levels Z.gtb SIZE (SIZE * 2 - 1) (Z.to_nat SIZE) ltac:(lia)
             (ask_run_size SIZE HSIZE)). lia.
Qed.

Lemma add_keeps_better_levels_witness :
  ∃ k', 0 ≤ k' ≤ 0 + 1 ∧
    (deref (add_bid 2 102 5 (run 2 [AddBid 101 1; AddBid 100 1])) k'
       = deref (run 2 [AddBid 101 1; AddBid 100 1]) 0 ∨
     (slot_price (run 2 [AddBid 101 1; AddBid 100 1]) 0 = 102 ∧
      deref (add_bid 2 102 5 (run 2 [AddBid 101 1; AddBid 100 1])) k'
        = add_order 5 (deref (run 2 [AddBid 101 1; AddBid 100 1]) 0))).
Proof.
  destruct (add_keeps_better_levels 2 (run 2 [AddBid 101 1; AddBid 100 1]) 102 5)
    as [[Hkeep _] _]; [lia|reflexivity|].
  apply (Hkeep 0); [lia|lia|discriminate].
Defined.

(** * Increase and decrease *)

Lemma increase_decrease_qty q l :
  decrease_qty q (increase_qty q l) = l ∧ increase_qty q (decrease_qty q l) = l ∧
  increase_qty 0 l = l ∧ decrease_qty 0 l = l.
Proof.
  destruct l as [a c g]. unfold increase_qty, decrease_qty. simpl.
  repeat split; f_equal; lia.
Qed.

Section update_facts.

Variable worse : Price → Price → bool.
Variables (lo last : Z) (n : nat).
Hypothesis lo_nonneg : 0 ≤ lo.
Hypothesis run_size : lo + Z.of_nat n = last + 1.

(** An update that changes nothing in the level changes nothing. *)
Lemma update_found_id f d p :
  (∀ l, f l = l) →
  update_found f (find_from worse last n lo p false d) = d.
Proof using run_size.
  intros Hf.
  destruct (first_at_price_cases lo last n run_size d p) as [Hnone|[i Hi]].
  - by apply update_found_absent.
  - rewrite (update_found_present worse lo last n run_size f d p i Hi).
    rewrite Hf. apply assign_deref_same.
Qed.

(** An update followed by the update that undoes it in the level. *)
Lemma update_found_undo f g d p :
  (∀ l, price (f l) = price l) → (∀ l, g (f l) = l) →
  last < len d →
  update_found g
    (find_from worse last n lo p false
       (update_found f (find_from worse last n lo p false d))) = d.
Proof using lo_nonneg run_size.
  intros Hf Hg Hlen.
  destruct (first_at_price_cases lo last n run_size d p) as [Hnone|[i Hi]].
  - rewrite (update_found_absent worse lo last n run_size f d p Hnone).
    by apply update_found_absent.
  - rewrite (update_found_present worse lo last n run_size f d p i Hi).
    pose proof Hi as (Hrange & Heq & Hbefore).
    rewrite (update_found_present worse lo last n run_size g _ p i).
    + rewrite deref_assign by lia. rewrite decide_True by done.
      rewrite Hg, assign_assign. apply assign_deref_same.
    + split; [done|]. split.
      * rewrite slot_price_assign_same; [done|lia|lia|apply Hf].
      * intros k ? ?. rewrite slot_price_assign_same; [|lia|lia|apply Hf].
        by apply Hbefore.
Qed.

End update_facts.

(** decrease_bid undoes increase_bid of the same price and quantity and
    the other way round, whether or not the price is tracked, and a change
    by zero changes nothing; the same for the ask side. *)
Theorem increase_decrease_inverse (SIZE : Z) (d : Depth) (p : Price) (q : Quantity) :
  0 ≤ SIZE → len d = SIZE * 2 →
  (decrease_bid SIZE p q (increase_bid SIZE p q d) = d ∧
   increase_bid SIZE p q (decrease_bid SIZE p q d) = d ∧
   increase_bid SIZE p 0 d = d ∧ decrease_bid SIZE p 0 d = d) ∧
  (decrease_ask SIZE p q (increase_ask SIZE p q d) = d ∧
   increase_ask SIZE p q (decrease_ask SIZE p q d) = d ∧
   increase_ask SIZE p 0 d = d ∧ decrease_ask SIZE p 0 d = d).
Proof.
  intros HSIZE Hlen.
  pose proof (bid_run_size SIZE HSIZE) as Hb.
  pose proof (ask_run_size SIZE HSIZE) as Ha.
  assert (Hdi : ∀ l, decrease_qty q (increase_qty q l) = l)
    by (intros l; apply (increase_decrease_qty q l)).
  assert (Hid : ∀ l, increase_qty q (decrease_qty q l) = l)
    by (intros l; apply (increase_decrease_qty q l)).
  assert (Hi0 : ∀ l, increase_qty 0 l = l)
    by (intros l; apply (increase_decrease_qty q l)).
  assert (Hd0 : ∀ l, decrease_qty 0 l = l)
    by (intros l; apply (increase_decrease_qty q l)).
  split.
  - rewrite !increase_bid_eq, !decrease_bid_eq.
    split; [|split; [|split]].
    + apply update_found_undo; [lia|done|done|done|lia].
    + apply update_found_undo; [lia|done|done|done|lia].
    + by apply update_found_id.
    + by apply update_found_id.
  - rewrite !increase_ask_eq, !decrease_ask_eq.
    split; [|split; [|split]].
    + apply update_found_undo; [lia|done|done|done|lia].
    + apply update_found_undo; [lia|done|done|done|lia].
    + by apply update_found_id.
    + by apply update_found_id.
Qed.

Lemma increase_decrease_inverse_witness :
  decrease_bid 2 100 30 (increase_bid 2 100 30 (run 2 [AddBid 100 50; AddAsk 101 5]))
    = run 2 [AddBid 100 50; AddAsk 101 5] ∧
  increase_ask 2 101 0 (run 2 [AddBid 100 50; AddAsk 101 5])
    = run 2 [AddBid 100 50; AddAsk 101 5].
Proof.
  destruct (increase_decrease_inverse 2 (run 2 [AddBid 100 50; AddAsk 101 5]) 100 30)
    as [(Hbid & _) _]; [lia|reflexivity|].
  destruct (increase_decrease_inverse 2 (run 2 [AddBid 100 50; AddAsk 101 5]) 101 30)
    as [_ (_ & _ & Hask & _)]; [lia|reflexivity|].
  split; [exact Hbid|exact Hask].
Defined.

(** * Unused slots stay blank *)

Lemma tidy_run_same d d' lo hi :
  (∀ k, lo ≤ k → k < hi → deref d' k = deref d k) →
  tidy_run d lo hi → tidy_run d' lo hi.
Proof.
  intros Hsame Htidy k ? ?. unfold slot_price. rewrite Hsame by lia.
  by apply Htidy.
Qed.

Lemma tidy_run_Depth_new SIZE lo hi : tidy_run (Depth_new SIZE) lo hi.
Proof.
  intros k _ _. unfold slot_price. rewrite deref_Depth_new. by split.
Qed.

Section tidy_facts.

Variable worse : Price → Price → bool.
Variables (lo last : Z) (n : nat).
Hypothesis lo_nonneg : 0 ≤ lo.
Hypothesis run_size : lo + Z.of_nat n = last + 1.

Lemma tidy_run_add d p q :
  last < len d → p ≠ INVALID_LEVEL_PRICE →
  tidy_run d lo (last + 1) →
  tidy_run (update_found (add_order q) (find_from worse last n lo p true d))
    lo (last + 1).
Proof using lo_nonneg run_size.
  intros Hlen Hp Htidy.
  destruct (find_from_cases worse last n lo p true d)
    as [(i & Hi & Hstop & Hbefore & Hfind)|[Hpass ->]]; [|done].
  destruct (decide (slot_price d i = p)) as [Heq|Hne].
  - rewrite Hfind. simpl. unfold on_stop. apply Z.eqb_eq in Heq as Heqb.
    rewrite Heqb. intros k ? ?. unfold slot_price. rewrite deref_assign by lia.
    destruct (decide (k = i)) as [->|]; [|by apply Htidy].
    destruct (Htidy i) as [_ Hcount]; [lia..|].
    fold (slot_price d i) in *. split.
    + intros Hblank. exfalso. apply Hp. rewrite <- Heq. exact Hblank.
    + intros _. simpl. specialize (Hcount ltac:(by rewrite Heq)). lia.
  - destruct (add_created worse lo last n lo_nonneg run_size d p q i)
      as [Hinit Hins]; [done|lia|done|done|done|].
    destruct (decide (slot_price d i = INVALID_LEVEL_PRICE)) as [Hb|Hv].
    + rewrite (Hinit Hb). intros k ? ?. unfold slot_price.
      rewrite deref_assign by lia.
      destruct (decide (k = i)); [|by apply Htidy].
      simpl. split; [done|]. intros _. lia.
    + destruct (Hins Hv) as [_ Hat]. intros k ? ?. unfold slot_price.
      rewrite Hat by lia. destruct (decide (k = i)).
      * simpl. split; [done|]. intros _. lia.
      * destruct (decide (i < k ≤ last)); apply Htidy; lia.
Qed.

Lemma tidy_run_update f d p :
  (∀ l, price (f l) = price l) → (∀ l, order_count_ (f l) = order_count_ l) →
  last < len d → p ≠ INVALID_LEVEL_PRICE →
  tidy_run d lo (last + 1) →
  tidy_run (update_found f (find_from worse last n lo p false d)) lo (last + 1).
Proof using lo_nonneg run_size.
  intros Hprice Hcount Hlen Hp Htidy.
  destruct (first_at_price_cases lo last n run_size d p) as [Hnone|[i Hi]].
  - by rewrite update_found_absent.
  - rewrite (update_found_present worse lo last n run_size f d p i Hi).
    destruct Hi as (Hi & Heq & _).
    intros k ? ?. unfold slot_price. rewrite deref_assign by lia.
    destruct (decide (k = i)) as [->|]; [|by apply Htidy].
    rewrite Hprice, Hcount. fold (slot_price d i). split.
    + intros Hblank. exfalso. apply Hp. rewrite <- Heq. exact Hblank.
    + by apply Htidy.
Qed.

Lemma tidy_run_erase d i :
  lo ≤ i ≤ last → last < len d →
  tidy_run d lo (last + 1) → tidy_run (erase_level i last d) lo (last + 1).
Proof using lo_nonneg.
  clear run_size. intros Hi Hlen Htidy k ? ?. unfold slot_price.
  rewrite erase_level_deref by lia.
  destruct (decide (k = last)); [by split|].
  destruct (decide (i ≤ k < last)); apply Htidy; lia.
Qed.

Lemma tidy_run_close d p q :
  last < len d → p ≠ INVALID_LEVEL_PRICE →
  tidy_run d lo (last + 1) →
  tidy_run (close_found last q (find_from worse last n lo p false d)).1
    lo (last + 1).
Proof using lo_nonneg run_size.
  intros Hlen Hp Htidy.
  destruct (first_at_price_cases lo last n run_size d p) as [Hnone|[i Hi]].
  - by rewrite close_found_absent.
  - rewrite (close_found_present worse lo last n lo_nonneg run_size q d p i Hlen Hi).
    destruct Hi as (Hi & Heq & _).
    destruct (close_order q (deref d i)).2 eqn:Hempty; simpl.
    + apply tidy_run_erase; (done || lia).
    + intros k ? ?. unfold slot_price. rewrite deref_assign by lia.
      destruct (decide (k = i)) as [->|]; [|by apply Htidy].
      destruct (Htidy i) as [_ Hcount]; [lia..|]. fold (slot_price d i) in *.
      simpl in *. split.
      * intros Hblank. exfalso. apply Hp. rewrite <- Heq. exact Hblank.
      * intros _. specialize (Hcount ltac:(by rewrite Heq)).
        apply Z.eqb_neq in Hempty. lia.
Qed.

End tidy_facts.

Lemma tidy_mutate SIZE d m :
  0 ≤ SIZE → len d = SIZE * 2 →
  mutator_price m ≠ INVALID_LEVEL_PRICE →
  tidy_run d 0 SIZE ∧ tidy_run d SIZE (SIZE * 2) →
  tidy_run (mutate SIZE d m) 0 SIZE ∧ tidy_run (mutate SIZE d m) SIZE (SIZE * 2).
Proof.
  intros HSIZE Hlen Hm [Hbid Hask].
  pose proof (bid_run_size SIZE HSIZE) as Hb.
  pose proof (ask_run_size SIZE HSIZE) as Ha.
  assert (Eb : SIZE - 1 + 1 = SIZE) by lia.
  assert (Ea : SIZE * 2 - 1 + 1 = SIZE * 2) by lia.
  assert (Hlb : SIZE - 1 < len d) by lia.
  assert (Hla : SIZE * 2 - 1 < len d) by lia.
  assert (Hbid_frame : ∀ d', (∀ k, 0 ≤ k → k < SIZE → deref d' k = deref d k) →
            tidy_run d' 0 SIZE)
    by (intros d' Hsame; by apply (tidy_run_same d)).
  assert (Hask_frame : ∀ d', (∀ k, SIZE ≤ k → k < SIZE * 2 → deref d' k = deref d k) →
            tidy_run d' SIZE (SIZE * 2))
    by (intros d' Hsame; by apply (tidy_run_same d)).
  destruct m as [p q|p q|p q|p q|p q|p q|p q|p q]; simpl in *.
  - rewrite add_bid_eq. split.
    + pose proof (tidy_run_add Z.ltb 0 (SIZE - 1) (Z.to_nat SIZE) ltac:(lia) Hb
                    d p q Hlb Hm) as H.
      rewrite Eb in H. by apply H.
    + apply Hask_frame. intros k ? ?. apply update_found_outside; run_side.
  - rewrite close_bid_eq. split.
    + pose proof (tidy_run_close Z.ltb 0 (SIZE - 1) (Z.to_nat SIZE) ltac:(lia) Hb
                    d p q Hlb Hm) as H.
      rewrite Eb in H. by apply H.
    + apply Hask_frame. intros k ? ?. apply close_found_outside; run_side.
  - rewrite increase_bid_eq. split.
    + pose proof (tidy_run_update Z.ltb 0 (SIZE - 1) (Z.to_nat SIZE) ltac:(lia) Hb
                    (increase_qty q) d p ltac:(done) ltac:(done) Hlb Hm) as H.
      rewrite Eb in H. by apply H.
    + apply Hask_frame. intros k ? ?. apply update_found_outside; run_side.
  - rewrite decrease_bid_eq. split.
    + pose proof (tidy_run_update Z.ltb 0 (SIZE - 1) (Z.to_nat SIZE) ltac:(lia) Hb
                    (decrease_qty q) d p ltac:(done) ltac:(done) Hlb Hm) as H.
      rewrite Eb in H. by apply H.
    + apply Hask_frame. intros k ? ?. apply update_found_outside; run_side.
  - rewrite add_ask_eq. split.
    + apply Hbid_frame. intros k ? ?. apply update_found_outside; run_side.
    + pose proof (tidy_run_add Z.gtb SIZE (SIZE * 2 - 1) (Z.to_nat SIZE) ltac:(lia) Ha
                    d p q Hla Hm) as H.
      rewrite Ea in H. by apply H.
  - rewrite close_ask_eq. split.
    + apply Hbid_frame. intros k ? ?. apply close_found_outside; run_side.
    + pose proof (tidy_run_close Z.gtb SIZE (SIZE * 2 - 1) (Z.to_nat SIZE) ltac:(lia) Ha
                    d p q Hla Hm) as H.
      rewrite Ea in H. by apply H.
  - rewrite increase_ask_eq. split.
    + apply Hbid_frame. intros k ? ?. apply update_found_outside; run_side.
    + pose proof (tidy_run_update Z.gtb SIZE (SIZE * 2 - 1) (Z.to_nat SIZE) ltac:(lia) Ha
                    (increase_qty q) d p ltac:(done) ltac:(done) Hla Hm) as H.
      rewrite Ea in H. by apply H.
  - rewrite decrease_ask_eq. split.
    + apply Hbid_frame. intros k ? ?. apply update_found_outside; run_side.
    + pose proof (tidy_run_update Z.gtb SIZE (SIZE * 2 - 1) (Z.to_nat SIZE) ltac:(lia) Ha
                    (decrease_qty q) d p ltac:(done) ltac:(done) Hla Hm) as H.
      rewrite Ea in H. by apply H.
Qed.

Lemma length_mutate SIZE d m :
  0 ≤ SIZE → length (mutate SIZE d m) = length d.
Proof.
  intros HSIZE. destruct m; simpl;
    rewrite ?add_bid_eq, ?close_bid_eq, ?increase_bid_eq, ?decrease_bid_eq,
      ?add_ask_eq, ?close_ask_eq, ?increase_ask_eq, ?decrease_ask_eq;
    (apply length_update_found || apply length_close_found).
Qed.

(** In every state reached from a fresh Depth<SIZE> by mutator calls none
    of which is given the sentinel price, every unused slot is all-zero
    (no orders, no quantity) and every valid slot counts at least one
    order. *)
Theorem unused_slots_stay_blank (SIZE : Z) (ms : list mutator) :
  0 ≤ SIZE → all_priced ms → tidy_run (run SIZE ms) 0 (SIZE * 2).
Proof.
  intros HSIZE Hms.
  assert (H : ∀ d, len d = SIZE * 2 →
            tidy_run d 0 SIZE ∧ tidy_run d SIZE (SIZE * 2) →
            tidy_run (foldl (mutate SIZE) d ms) 0 SIZE ∧
            tidy_run (foldl (mutate SIZE) d ms) SIZE (SIZE * 2)).
  { induction Hms as [|m ms Hm _ IH]; intros d Hlen Htidy; [done|].
    simpl. apply IH.
    - unfold len in *. by rewrite length_mutate.
    - by apply tidy_mutate. }
  destruct (H (Depth_new SIZE)) as [Hbid Hask].
  - by apply len_Depth_new.
  - split; apply tidy_run_Depth_new.
  - intros k ? ?. destruct (decide (k < SIZE)); [apply Hbid|apply Hask]; lia.
Qed.

Lemma unused_slots_stay_blank_witness :
  tidy_run (run 2 [AddBid 100 50; AddBid 101 5; CloseBid 100 50; AddAsk 102 7]) 0 (2 * 2).
Proof.
  apply (unused_slots_stay_blank 2
           [AddBid 100 50; AddBid 101 5; CloseBid 100 50; AddAsk 102 7]).
  - lia.
  - repeat constructor; discriminate.
Defined.

(** * Level counts, appending, restoration *)

Lemma valid_levels_full d lo hi c :
  valid_levels d lo hi c → (c = hi - lo ↔ full_run d lo hi).
Proof.
  intros (Hc & Hvalid & Hblank). split.
  - intros -> k ? ?. apply Hvalid; lia.
  - intros Hfull. destruct (decide (c = hi - lo)); [done|]. exfalso.
    apply (Hfull (lo + c)); [lia|lia|]. apply Hblank; lia.
Qed.

(** An ordered run has its valid levels in front. *)
Lemma ordered_run_valid_levels worse d lo hi :
  lo ≤ hi → ordered_run worse d lo hi → ∃ c, valid_levels d lo hi c.
Proof.
  intros Hle Hord.
  destruct (first_stop (fun k => slot_price d k =? INVALID_LEVEL_PRICE)
              (Z.to_nat (hi - lo)) lo) as [(i & Hi & Hblank & Hbefore)|Hnone].
  - exists (i - lo). split; [lia|]. split.
    + intros k ? ?. apply Z.eqb_neq. apply Hbefore; lia.
    + intros k ? ?. apply Z.eqb_eq in Hblank.
      destruct (decide (k = i)) as [->|]; [done|].
      apply (ordered_run_contiguous worse d lo hi Hord i k); (done || lia).
  - exists (hi - lo). split; [lia|]. split.
    + intros k ? ?. apply Z.eqb_neq. apply Hnone; lia.
    + intros k ? ?. lia.
Qed.

Section level_facts.

Variable worse : Price → Price → bool.
Hypothesis worse_irrefl : ∀ a, worse a a = false.
Hypothesis worse_trans :
  ∀ a b c, worse a b = true → worse b c = true → worse a c = true.
Hypothesis worse_total : ∀ a b, a ≠ b → worse a b = false → worse b a = true.

Variables (lo last : Z) (n : nat).
Hypothesis lo_nonneg : 0 ≤ lo.
Hypothesis run_size : lo + Z.of_nat n = last + 1.

(** A price worse than every tracked one goes behind the last valid
    level when there is room. *)
Lemma append_level d c p q :
  last < len d → valid_levels d lo (last + 1) c → c < last + 1 - lo →
  p ≠ INVALID_LEVEL_PRICE →
  (∀ k, lo ≤ k → k < lo + c → worse p (slot_price d k) = true) →
  update_found (add_order q) (find_from worse last n lo p true d)
    = assign d (lo + c) (mkDepthLevel p 1 q) ∧
  valid_levels (update_found (add_order q) (find_from worse last n lo p true d))
    lo (last + 1) (c + 1).
Proof using lo_nonneg run_size worse_irrefl worse_trans worse_total.
  intros Hlen (Hc & Hvalid & Hblank) Hroom Hp Hworse.
  assert (Hb : slot_price d (lo + c) = INVALID_LEVEL_PRICE) by (apply Hblank; lia).
  destruct (add_created worse lo last n lo_nonneg run_size d p q (lo + c))
    as [Hinit _].
  - done.
  - lia.
  - by rewrite Hb.
  - rewrite Hb. apply stops_blank.
  - intros k ? ?.
    apply (stops_create_false worse worse_irrefl worse_trans worse_total).
    split; [apply Hvalid; lia|apply Hworse; lia].
  - rewrite (Hinit Hb). split; [done|]. split; [lia|]. split.
    + intros k ? ?. unfold slot_price. rewrite deref_assign by lia.
      destruct (decide (k = lo + c)); [done|]. apply Hvalid; lia.
    + intros k ? ?. unfold slot_price. rewrite deref_assign by lia.
      rewrite decide_False by lia. apply Hblank; lia.
Qed.

(** A close of a non-sentinel price that reports an erased level erased
    the first slot with the price, and the run has one level fewer; a
    close that reports none left every price where it was. *)
Lemma close_levels d c p q :
  last < len d → valid_levels d lo (last + 1) c →
  p ≠ INVALID_LEVEL_PRICE →
  ((close_found last q (find_from worse last n lo p false d)).2 = true →
     1 ≤ c ∧
     (∃ i, first_at_price d lo (last + 1) p i ∧
           (close_found last q (find_from worse last n lo p false d)).1
             = erase_level i last d) ∧
     valid_levels (close_found last q (find_from worse last n lo p false d)).1
       lo (last + 1) (c - 1)) ∧
  ((close_found last q (find_from worse last n lo p false d)).2 = false →
     ∀ k, 0 ≤ k →
       slot_price (close_found last q (find_from worse last n lo p false d)).1 k
         = slot_price d k).
Proof using lo_nonneg run_size.
  clear worse_irrefl worse_trans worse_total.
  intros Hlen (Hc & Hvalid & Hblank) Hp.
  destruct (first_at_price_cases lo last n run_size d p) as [Hnone|[i Hi]].
  - rewrite close_found_absent by done. simpl. split; [done|done].
  - rewrite (close_found_present worse lo last n lo_nonneg run_size q d p i Hlen Hi).
    pose proof Hi as (Hrange & Heq & _).
    assert (Hin : i < lo + c).
    { destruct (decide (i < lo + c)); [done|]. exfalso. apply Hp.
      rewrite <- Heq. apply Hblank; lia. }
    destruct (close_order q (deref d i)).2; simpl.
    + split; [|done]. intros _. split; [lia|]. split; [by exists i|].
      split; [lia|]. split.
      * intros k ? ?. unfold slot_price. rewrite erase_level_deref by lia.
        rewrite decide_False by lia.
        destruct (decide (i ≤ k < last)); apply Hvalid; lia.
      * intros k ? ?. unfold slot_price. rewrite erase_level_deref by lia.
        destruct (decide (k = last)); [done|].
        rewrite decide_True by lia. apply Hblank; lia.
    + split; [done|]. intros _ k ?.
      apply slot_price_assign_same; [lia|done|done].
Qed.

(** On an ordered run whose unused slots are blank, an add of a new price
    that finds room followed by a close of the same price and quantity
    returns true and gives the array back, up to the level the add pushed
    out of the last slot. *)
Lemma add_close_restores d p q :
  last < len d → ordered_run worse d lo (last + 1) → tidy_run d lo (last + 1) →
  p ≠ INVALID_LEVEL_PRICE → untracked d lo (last + 1) p →
  (∃ k, lo ≤ k ∧ k < last + 1 ∧
        (slot_price d k = INVALID_LEVEL_PRICE ∨ worse (slot_price d k) p = true)) →
  close_found last q
    (find_from worse last n lo p false
       (update_found (add_order q) (find_from worse last n lo p true d)))
  = (assign d last (init INVALID_LEVEL_PRICE), true).
Proof using lo_nonneg run_size.
  clear worse_irrefl worse_trans worse_total.
  intros Hlen Hord Htidy Hp Hun Hroom.
  destruct (add_then_close worse lo last n lo_nonneg run_size d p q Hlen Hp Hun Hroom)
    as (i & Hi & Hstop & Hbefore & Hinit & Hins & ->).
  f_equal.
  set (d1 := update_found (add_order q) (find_from worse last n lo p true d)) in *.
  assert (Hlen1 : length d1 = length d) by apply length_update_found.
  apply Depth_ext; [by rewrite length_erase_level, length_assign|].
  intros k Hk. unfold len in Hk. rewrite length_erase_level, Hlen1 in Hk.
  fold (len d) in Hk.
  assert (Hlen1' : len d1 = len d) by (unfold len; by rewrite Hlen1).
  rewrite erase_level_deref by lia. rewrite deref_assign by lia.
  destruct (decide (k = last)); [done|].
  destruct (decide (slot_price d i = INVALID_LEVEL_PRICE)) as [Hb|Hv].
  - rewrite (Hinit Hb). destruct (decide (i ≤ k < last)).
    + rewrite deref_assign_outside by lia.
      assert (Hblank : ∀ j, i ≤ j → j ≤ last → deref d j = zeroed).
      { intros j ? ?. apply Htidy; [lia|lia|].
        destruct (decide (j = i)) as [->|]; [done|].
        apply (ordered_run_contiguous worse d lo (last + 1) Hord i j); (done || lia). }
      rewrite !Hblank by lia. done.
    + apply deref_assign_outside; lia.
  - destruct (Hins Hv) as [_ Hat]. destruct (decide (i ≤ k < last)).
    + rewrite Hat by lia. rewrite decide_False by lia.
      rewrite decide_True by lia. f_equal. lia.
    + rewrite Hat by lia. by rewrite !decide_False by lia.
Qed.

End level_facts.

(** When the bid run holds [c] valid levels in front and is not full,
    add_bid with a non-sentinel price strictly lower than every tracked bid
    writes exactly one slot, the first unused one, with a level of one
    order at that price, and the run holds [c + 1] levels; add_ask with a
    price strictly higher than every tracked ask does the same on the ask
    run. *)
Theorem add_appends_worse_price (SIZE : Z) (d : Depth) (c : Z) (p : Price) (q : Quantity) :
  0 ≤ SIZE → len d = SIZE * 2 → c < SIZE → p ≠ INVALID_LEVEL_PRICE →
  (valid_levels d 0 SIZE c →
   (∀ k, 0 ≤ k → k < c → p < slot_price d k) →
   add_bid SIZE p q d = assign d c (mkDepthLevel p 1 q) ∧
   valid_levels (add_bid SIZE p q d) 0 SIZE (c + 1)) ∧
  (valid_levels d SIZE (SIZE * 2) c →
   (∀ k, SIZE ≤ k → k < SIZE + c → slot_price d k < p) →
   add_ask SIZE p q d = assign d (SIZE + c) (mkDepthLevel p 1 q) ∧
   valid_levels (add_ask SIZE p q d) SIZE (SIZE * 2) (c + 1)).
Proof.
  intros HSIZE Hlen Hc Hp.
  assert (Eb : SIZE - 1 + 1 = SIZE) by lia.
  assert (Ea : SIZE * 2 - 1 + 1 = SIZE * 2) by lia.
  split.
  - intros Hvalid Hworse. rewrite add_bid_eq.
    pose proof (append_level Z.ltb ltb_irrefl ltb_trans ltb_total 0 (SIZE - 1)
                  (Z.to_nat SIZE) ltac:(lia) (bid_run_size SIZE HSIZE) d c p q
                  ltac:(lia)) as H.
    rewrite Eb in H. apply H; [done|lia|done|].
    intros k ? ?. apply Z.ltb_lt. apply Hworse; lia.
  - intros Hvalid Hworse. rewrite add_ask_eq.
    pose proof (append_level Z.gtb gtb_irrefl gtb_trans gtb_total SIZE (SIZE * 2 - 1)
                  (Z.to_nat SIZE) ltac:(lia) (ask_run_size SIZE HSIZE) d c p q
                  ltac:(lia)) as H.
    rewrite Ea in H. apply H; [done|lia|done|].
    intros k ? ?. rewrite Z.gtb_ltb. apply Z.ltb_lt. apply Hworse; lia.
Qed.

Lemma add_appends_worse_price_witness :
  add_bid 3 99 7 (run 3 [AddBid 101 1; AddBid 100 1])
    = assign (run 3 [AddBid 101 1; AddBid 100 1]) 2 (mkDepthLevel 99 1 7) ∧
  valid_levels (add_bid 3 99 7 (run 3 [AddBid 101 1; AddBid 100 1])) 0 3 (2 + 1).
Proof.
  destruct (add_appends_worse_price 3 (run 3 [AddBid 101 1; AddBid 100 1]) 2 99 7)
    as [Hbid _]; [lia|reflexivity|lia|discriminate|].
  apply Hbid.
  - split; [lia|]. split.
    + intros k ? ?. assert (k = 0 ∨ k = 1) as [-> | ->] by lia; discriminate.
    + intros k ? ?. assert (k = 2) as -> by lia. reflexivity.
  - intros k ? ?. assert (k = 0 ∨ k = 1) as [-> | ->] by lia; reflexivity.
Defined.

(** When the bid run holds [c] valid levels in front, a close_bid at a
    non-sentinel price that returns true has erased the first slot with
    that price and leaves [c - 1] levels, again in front; one that returns
    false leaves every price of the array where it was.  The same for
    close_ask. *)
Theorem close_changes_level_count (SIZE : Z) (d : Depth) (c : Z) (p : Price) (q : Quantity) :
  0 ≤ SIZE → len d = SIZE * 2 → p ≠ INVALID_LEVEL_PRICE →
  (valid_levels d 0 SIZE c →
   ((close_bid SIZE p q d).2 = true →
      1 ≤ c ∧
      (∃ i, first_at_price d 0 SIZE p i ∧
            (close_bid SIZE p q d).1 = erase_level i (SIZE - 1) d) ∧
      valid_levels (close_bid SIZE p q d).1 0 SIZE (c - 1)) ∧
   ((close_bid SIZE p q d).2 = false →
      ∀ k, 0 ≤ k → slot_price (close_bid SIZE p q d).1 k = slot_price d k)) ∧
  (valid_levels d SIZE (SIZE * 2) c →
   ((close_ask SIZE p q d).2 = true →
      1 ≤ c ∧
      (∃ i, first_at_price d SIZE (SIZE * 2) p i ∧
            (close_ask SIZE p q d).1 = erase_level i (SIZE * 2 - 1) d) ∧
      valid_levels (close_ask SIZE p q d).1 SIZE (SIZE * 2) (c - 1)) ∧
   ((close_ask SIZE p q d).2 = false →
      ∀ k, 0 ≤ k → slot_price (close_ask SIZE p q d).1 k = slot_price d k)).
Proof.
  intros HSIZE Hlen Hp.
  assert (Eb : SIZE - 1 + 1 = SIZE) by lia.
  assert (Ea : SIZE * 2 - 1 + 1 = SIZE * 2) by lia.
  split.
  - intros Hvalid. rewrite close_bid_eq.
    pose proof (close_levels Z.ltb 0 (SIZE - 1) (Z.to_nat SIZE) ltac:(lia)
                  (bid_run_size SIZE HSIZE) d c p q ltac:(lia)) as H.
    rewrite Eb in H. by apply H.
  - intros Hvalid. rewrite close_ask_eq.
    pose proof (close_levels Z.gtb SIZE (SIZE * 2 - 1) (Z.to_nat SIZE) ltac:(lia)
                  (ask_run_size SIZE HSIZE) d c p q ltac:(lia)) as H.
    rewrite Ea in H. by apply H.
Qed.

Lemma close_changes_level_count_witness :
  valid_levels (close_bid 3 101 1 (run 3 [AddBid 101 1; AddBid 100 1])).1 0 3 (2 - 1).
Proof.
  destruct (close_changes_level_count 3 (run 3 [AddBid 101 1; AddBid 100 1]) 2 101 1)
    as [Hbid _]; [lia|reflexivity|discriminate|].
  destruct Hbid as [Htrue _].
  - split; [lia|]. split.
    + intros k ? ?. assert (k = 0 ∨ k = 1) as [-> | ->] by lia; discriminate.
    + intros k ? ?. assert (k = 2) as -> by lia. reflexivity.
  - apply Htrue. reflexivity.
Defined.

(** For SIZE > 1, after a close_bid at a non-sentinel price that returned
    true on an array satisfying the sort invariant,
    needs_bid_restoration writes the price of the slot before the last bid
    slot and returns true exactly when the bid run was full before the
    close; the last bid slot is unused in any case.  The same for
    close_ask and needs_ask_restoration. *)
Theorem restoration_iff_run_was_full (SIZE : Z) (market_bid market_ask : Price)
    (d : Depth) (p : Price) (q : Quantity) :
  1 < SIZE → well_formed SIZE d → p ≠ INVALID_LEVEL_PRICE →
  ((close_bid SIZE p q d).2 = true →
     ∃ b, needs_bid_restoration SIZE market_bid (close_bid SIZE p q d).1
            = Returns (b, slot_price (close_bid SIZE p q d).1 (SIZE - 2)) ∧
          (b = true ↔ full_run d 0 SIZE) ∧
          slot_price (close_bid SIZE p q d).1 (SIZE - 1) = INVALID_LEVEL_PRICE) ∧
  ((close_ask SIZE p q d).2 = true →
     ∃ b, needs_ask_restoration SIZE market_ask (close_ask SIZE p q d).1
            = Returns (b, slot_price (close_ask SIZE p q d).1 (SIZE * 2 - 2)) ∧
          (b = true ↔ full_run d SIZE (SIZE * 2)) ∧
          slot_price (close_ask SIZE p q d).1 (SIZE * 2 - 1) = INVALID_LEVEL_PRICE).
Proof.
  intros HSIZE (Hlen & Hbid & Hask) Hp.
  assert (H0 : 0 ≤ SIZE) by lia.
  assert (Hflag : ∀ (d' : Depth) lo c,
            valid_levels d' lo (lo + SIZE) (c - 1) →
            valid_levels d lo (lo + SIZE) c →
            (negb (slot_price d' (lo + SIZE - 2) =? INVALID_LEVEL_PRICE) = true
               ↔ full_run d lo (lo + SIZE)) ∧
            slot_price d' (lo + SIZE - 1) = INVALID_LEVEL_PRICE).
  { intros d' lo c (Hc' & Hvalid' & Hblank') Hc.
    pose proof (valid_levels_full d lo (lo + SIZE) c Hc) as Hfull.
    destruct Hc as (Hc & _). split; [|apply Hblank'; lia].
    rewrite <- Hfull. destruct (decide (c = lo + SIZE - lo)) as [Heq|Hne].
    - split; [done|]. intros _. apply negb_true_iff, Z.eqb_neq, Hvalid'; lia.
    - split; [|done]. intros Hnb. exfalso.
      apply negb_true_iff, Z.eqb_neq in Hnb. apply Hnb, Hblank'; lia. }
  split.
  - intros Htrue.
    destruct (ordered_run_valid_levels Z.ltb d 0 SIZE H0 Hbid) as [c Hc].
    pose proof (close_levels Z.ltb 0 (SIZE - 1) (Z.to_nat SIZE) ltac:(lia)
                  (bid_run_size SIZE H0) d c p q ltac:(lia)) as Hcl.
    replace (SIZE - 1 + 1) with SIZE in Hcl by lia.
    rewrite <- close_bid_eq in Hcl.
    destruct (Hcl Hc Hp) as [Hone _]. destruct (Hone Htrue) as (_ & _ & Hc').
    unfold needs_bid_restoration, last_bid_level.
    assert ((SIZE >? 1) = true) as -> by lia.
    replace (SIZE - 1 - 1) with (SIZE - 2) by lia.
    fold (slot_price (close_bid SIZE p q d).1 (SIZE - 2)).
    eexists. split; [reflexivity|].
    apply (Hflag (close_bid SIZE p q d).1 0 c); by rewrite Z.add_0_l.
  - intros Htrue.
    destruct (ordered_run_valid_levels Z.gtb d SIZE (SIZE * 2) ltac:(lia) Hask)
      as [c Hc].
    pose proof (close_levels Z.gtb SIZE (SIZE * 2 - 1) (Z.to_nat SIZE) ltac:(lia)
                  (ask_run_size SIZE H0) d c p q ltac:(lia)) as Hcl.
    replace (SIZE * 2 - 1 + 1) with (SIZE * 2) in Hcl by lia.
    rewrite <- close_ask_eq in Hcl.
    destruct (Hcl Hc Hp) as [Hone _]. destruct (Hone Htrue) as (_ & _ & Hc').
    unfold needs_ask_restoration, last_ask_level.
    assert ((SIZE >? 1) = true) as -> by lia.
    replace (SIZE * 2 - 1 - 1) with (SIZE * 2 - 2) by lia.
    fold (slot_price (close_ask SIZE p q d).1 (SIZE * 2 - 2)).
    eexists. split; [reflexivity|].
    replace (SIZE * 2) with (SIZE + SIZE) in * by lia.
    by apply (Hflag (close_ask SIZE p q d).1 SIZE c).
Qed.

Lemma restoration_iff_run_was_full_witness :
  ∃ b, needs_bid_restoration 3 4294967295
         (close_bid 3 99 10 (run 3 [AddBid 101 10; AddBid 100 10; AddBid 99 10])).1
       = Returns (b, slot_price
           (close_bid 3 99 10 (run 3 [AddBid 101 10; AddBid 100 10; AddBid 99 10])).1
           (3 - 2)) ∧
     (b = true ↔ full_run (run 3 [AddBid 101 10; AddBid 100 10; AddBid 99 10]) 0 3) ∧
     slot_price
       (close_bid 3 99 10 (run 3 [AddBid 101 10; AddBid 100 10; AddBid 99 10])).1
       (3 - 1) = INVALID_LEVEL_PRICE.
Proof.
  destruct (restoration_iff_run_was_full 3 4294967295 0
              (run 3 [AddBid 101 10; AddBid 100 10; AddBid 99 10]) 99 10)
    as [Hbid _].
  - lia.
  - apply well_formed_run; [lia|]. repeat constructor; discriminate.
  - discriminate.
  - apply Hbid. reflexivity.
Defined.

(** On an array that satisfies the sort invariant and whose unused bid
    slots are blank, add_bid(p, q) at a new non-sentinel price that finds
    room, followed by close_bid(p, q), returns true and restores every slot
    except that the last bid slot is blank: the array is exactly as before
    when the bid run was not full, and has lost only its worst bid level
    when it was.  The same for add_ask and close_ask. *)
Theorem add_close_round_trip_exact (SIZE : Z) (d : Depth) (p : Price) (q : Quantity) :
  0 ≤ SIZE → well_formed SIZE d → p ≠ INVALID_LEVEL_PRICE →
  (tidy_run d 0 SIZE → untracked d 0 SIZE p →
   (∃ k, 0 ≤ k ∧ k < SIZE ∧
         (slot_price d k = INVALID_LEVEL_PRICE ∨ slot_price d k < p)) →
   close_bid SIZE p q (add_bid SIZE p q d)
     = (assign d (SIZE - 1) (init INVALID_LEVEL_PRICE), true) ∧
   (slot_price d (SIZE - 1) = INVALID_LEVEL_PRICE →
      close_bid SIZE p q (add_bid SIZE p q d) = (d, true))) ∧
  (tidy_run d SIZE (SIZE * 2) → untracked d SIZE (SIZE * 2) p →
   (∃ k, SIZE ≤ k ∧ k < SIZE * 2 ∧
         (slot_price d k = INVALID_LEVEL_PRICE ∨ p < slot_price d k)) →
   close_ask SIZE p q (add_ask SIZE p q d)
     = (assign d (SIZE * 2 - 1) (init INVALID_LEVEL_PRICE), true) ∧
   (slot_price d (SIZE * 2 - 1) = INVALID_LEVEL_PRICE →
      close_ask SIZE p q (add_ask SIZE p q d) = (d, true))).
Proof.
  intros HSIZE (Hlen & Hbid & Hask) Hp.
  assert (Eb : SIZE - 1 + 1 = SIZE) by lia.
  assert (Ea : SIZE * 2 - 1 + 1 = SIZE * 2) by lia.
  split.
  - intros Htidy Hun (k0 & ? & ? & Hk0).
    pose proof (add_close_restores Z.ltb 0 (SIZE - 1) (Z.to_nat SIZE) ltac:(lia)
                  (bid_run_size SIZE HSIZE) d p q ltac:(lia)) as Hrt.
    rewrite Eb in Hrt. rewrite <- add_bid_eq, <- close_bid_eq in Hrt.
    rewrite Hrt; [|done|done|done|done|].
    + split; [done|]. intros Hblank. f_equal.
      destruct (Htidy (SIZE - 1)) as [Hz _]; [lia..|].
      change (init INVALID_LEVEL_PRICE) with zeroed.
      rewrite <- (Hz Hblank). apply assign_deref_same.
    + exists k0. split; [lia|]. split; [lia|].
      destruct Hk0 as [?|?]; [by left|right; by apply Z.ltb_lt].
  - intros Htidy Hun (k0 & ? & ? & Hk0).
    pose proof (add_close_restores Z.gtb SIZE (SIZE * 2 - 1) (Z.to_nat SIZE) ltac:(lia)
                  (ask_run_size SIZE HSIZE) d p q ltac:(lia)) as Hrt.
    rewrite Ea in Hrt. rewrite <- add_ask_eq, <- close_ask_eq in Hrt.
    rewrite Hrt; [|done|done|done|done|].
    + split; [done|]. intros Hblank. f_equal.
      destruct (Htidy (SIZE * 2 - 1)) as [Hz _]; [lia..|].
      change (init INVALID_LEVEL_PRICE) with zeroed.
      rewrite <- (Hz Hblank). apply assign_deref_same.
    + exists k0. split; [lia|]. split; [lia|].
      destruct Hk0 as [?|?]; [by left|right].
      rewrite Z.gtb_ltb. by apply Z.ltb_lt.
Qed.

Lemma add_close_round_trip_exact_witness :
  close_bid 3 100 50 (add_bid 3 100 50 (run 3 [AddBid 101 1; AddBid 99 2]))
    = (run 3 [AddBid 101 1; AddBid 99 2], true).
Proof.
  destruct (add_close_round_trip_exact 3 (run 3 [AddBid 101 1; AddBid 99 2]) 100 50)
    as [Hbid _].
  - lia.
  - apply well_formed_run; [lia|]. repeat constructor; discriminate.
  - discriminate.
  - destruct Hbid as [_ Hsame].
    + intros k ? ?.
      assert (k = 0 ∨ k = 1 ∨ k = 2) as [-> | [-> | ->]] by lia;
        (split; intros Hk; first [reflexivity | discriminate Hk | by destruct Hk | done]).
    + intros k ? ? _. assert (k = 0 ∨ k = 1 ∨ k = 2) as [-> | [-> | ->]] by lia;
        discriminate.
    + exists 1. split; [lia|]. split; [lia|]. right. reflexivity.
    + apply Hsame. reflexivity.
Defined.

(** For SIZE > 1, after a close_bid at a non-sentinel price that returned
    true on a full bid run of an array satisfying the sort invariant, an
    add_bid with any non-sentinel price strictly lower than the price
    needs_bid_restoration reports (that of the slot before the last)
    writes only the last bid slot, and the run is full and in order again.
    The same for the ask side, with a strictly higher price. *)
Theorem restoration_refills_last_slot (SIZE : Z) (d : Depth)
    (p : Price) (q : Quantity) (p' : Price) (q' : Quantity) :
  1 < SIZE → well_formed SIZE d →
  p ≠ INVALID_LEVEL_PRICE → p' ≠ INVALID_LEVEL_PRICE →
  (full_run d 0 SIZE → (close_bid SIZE p q d).2 = true →
   p' < slot_price (close_bid SIZE p q d).1 (SIZE - 2) →
   add_bid SIZE p' q' (close_bid SIZE p q d).1
     = assign (close_bid SIZE p q d).1 (SIZE - 1) (mkDepthLevel p' 1 q') ∧
   full_run (add_bid SIZE p' q' (close_bid SIZE p q d).1) 0 SIZE ∧
   well_formed SIZE (add_bid SIZE p' q' (close_bid SIZE p q d).1)) ∧
  (full_run d SIZE (SIZE * 2) → (close_ask SIZE p q d).2 = true →
   slot_price (close_ask SIZE p q d).1 (SIZE * 2 - 2) < p' →
   add_ask SIZE p' q' (close_ask SIZE p q d).1
     = assign (close_ask SIZE p q d).1 (SIZE * 2 - 1) (mkDepthLevel p' 1 q') ∧
   full_run (add_ask SIZE p' q' (close_ask SIZE p q d).1) SIZE (SIZE * 2) ∧
   well_formed SIZE (add_ask SIZE p' q' (close_ask SIZE p q d).1)).
Proof.
  intros HSIZE Hwf Hp Hp'. pose proof Hwf as (Hlen & Hbid & Hask).
  assert (H0 : 0 ≤ SIZE) by lia.
  split.
  - intros Hfull Htrue Hlow.
    set (d' := (close_bid SIZE p q d).1) in *.
    assert (Hwf' : well_formed SIZE d')
      by (by apply (well_formed_mutate SIZE d (CloseBid p q))).
    pose proof Hwf' as (Hlen' & Hbid' & _).
    destruct (ordered_run_valid_levels Z.ltb d 0 SIZE H0 Hbid) as [c Hc].
    assert (c = SIZE) as ->
      by (pose proof (proj2 (valid_levels_full d 0 SIZE c Hc) Hfull); lia).
    pose proof (close_levels Z.ltb 0 (SIZE - 1) (Z.to_nat SIZE) ltac:(lia)
                  (bid_run_size SIZE H0) d SIZE p q ltac:(lia)) as Hcl.
    replace (SIZE - 1 + 1) with SIZE in Hcl by lia.
    rewrite <- close_bid_eq in Hcl.
    destruct (Hcl Hc Hp) as [Hone _]. destruct (Hone Htrue) as (_ & _ & Hc').
    fold d' in Hc'.
    pose proof (append_level Z.ltb ltb_irrefl ltb_trans ltb_total 0 (SIZE - 1)
                  (Z.to_nat SIZE) ltac:(lia) (bid_run_size SIZE H0) d' (SIZE - 1) p' q'
                  ltac:(lia)) as Happ.
    replace (SIZE - 1 + 1) with SIZE in Happ by lia.
    rewrite <- add_bid_eq in Happ. rewrite Z.add_0_l in Happ.
    destruct Happ as [Heq Hcount]; [done|lia|done| |].
    { intros k ? ?. apply Z.ltb_lt.
      destruct (decide (k = SIZE - 2)) as [->|]; [done|].
      destruct (Hbid' k (SIZE - 2)) as [_ Hlt]; [lia..| |].
      - destruct Hc' as (_ & Hvalid & _). apply Hvalid; lia.
      - apply Z.ltb_lt in Hlt. lia. }
    split; [done|]. split.
    + replace (SIZE - 1 + 1) with SIZE in Hcount by lia.
      apply (valid_levels_full _ 0 SIZE SIZE); [done|lia].
    + by apply (well_formed_mutate SIZE d' (AddBid p' q')).
  - intros Hfull Htrue Hhigh.
    set (d' := (close_ask SIZE p q d).1) in *.
    assert (Hwf' : well_formed SIZE d')
      by (by apply (well_formed_mutate SIZE d (CloseAsk p q))).
    pose proof Hwf' as (Hlen' & _ & Hask').
    destruct (ordered_run_valid_levels Z.gtb d SIZE (SIZE * 2) ltac:(lia) Hask)
      as [c Hc].
    assert (c = SIZE) as ->
      by (pose proof (proj2 (valid_levels_full d SIZE (SIZE * 2) c Hc) Hfull); lia).
    pose proof (close_levels Z.gtb SIZE (SIZE * 2 - 1) (Z.to_nat SIZE) ltac:(lia)
                  (ask_run_size SIZE H0) d SIZE p q ltac:(lia)) as Hcl.
    replace (SIZE * 2 - 1 + 1) with (SIZE * 2) in Hcl by lia.
    rewrite <- close_ask_eq in Hcl.
    destruct (Hcl Hc Hp) as [Hone _]. destruct (Hone Htrue) as (_ & _ & Hc').
    fold d' in Hc'.
    pose proof (append_level Z.gtb gtb_irrefl gtb_trans gtb_total SIZE (SIZE * 2 - 1)
                  (Z.to_nat SIZE) ltac:(lia) (ask_run_size SIZE H0) d' (SIZE - 1) p' q'
                  ltac:(lia)) as Happ.
    replace (SIZE * 2 - 1 + 1) with (SIZE * 2) in Happ by lia.
    rewrite <- add_ask_eq in Happ.
    replace (SIZE + (SIZE - 1)) with (SIZE * 2 - 1) in Happ by lia.
    destruct Happ as [Heq Hcount]; [done|lia|done| |].
    { intros k ? ?. rewrite Z.gtb_ltb. apply Z.ltb_lt.
      destruct (decide (k = SIZE * 2 - 2)) as [->|]; [done|].
      destruct (Hask' k (SIZE * 2 - 2)) as [_ Hgt]; [lia..| |].
      - destruct Hc' as (_ & Hvalid & _). apply Hvalid; lia.
      - rewrite Z.gtb_ltb in Hgt. apply Z.ltb_lt in Hgt. lia. }
    split; [done|]. split.
    + replace (SIZE - 1 + 1) with SIZE in Hcount by lia.
      apply (valid_levels_full _ SIZE (SIZE * 2) SIZE); [done|lia].
    + by apply (well_formed_mutate SIZE d' (AddAsk p' q')).
Qed.

Lemma restoration_refills_last_slot_witness :
  add_bid 3 98 4
    (close_bid 3 100 10 (run 3 [AddBid 101 10; AddBid 100 10; AddBid 99 10])).1
  = assign (close_bid 3 100 10 (run 3 [AddBid 101 10; AddBid 100 10; AddBid 99 10])).1
      (3 - 1) (mkDepthLevel 98 1 4).
Proof.
  destruct (restoration_refills_last_slot 3
              (run 3 [AddBid 101 10; AddBid 100 10; AddBid 99 10]) 100 10 98 4)
    as [Hbid _].
  - lia.
  - apply well_formed_run; [lia|]. repeat constructor; discriminate.
  - discriminate.
  - discriminate.
  - apply Hbid.
    + intros k ? ?. assert (k = 0 ∨ k = 1 ∨ k = 2) as [-> | [-> | ->]] by lia;
        discriminate.
    + reflexivity.
    + reflexivity.
Defined.

(** * The performance test *)

(** The orders [build_and_run_test] makes: buys (even [i]) are priced
    1880 .. 1889 and sells 1884 .. 1893, so the two sides can cross on
    1884 .. 1889 only; the quantity is a multiple of 100 from 100 to 1000;
    no order has the unused-slot sentinel as its price. *)
Theorem make_order_ranges (i rand1 rand2 : Z) :
  0 ≤ i → 0 ≤ rand1 → 0 ≤ rand2 →
  order_is_buy (make_order i rand1 rand2) = Z.even i ∧
  (order_is_buy (make_order i rand1 rand2) = true →
     1880 ≤ order_price (make_order i rand1 rand2) ≤ 1889) ∧
  (order_is_buy (make_order i rand1 rand2) = false →
     1884 ≤ order_price (make_order i rand1 rand2) ≤ 1893) ∧
  100 ≤ order_qty (make_order i rand1 rand2) ≤ 1000 ∧
  Z.rem (order_qty (make_order i rand1 rand2)) 100 = 0 ∧
  order_price (make_order i rand1 rand2) ≠ INVALID_LEVEL_PRICE.
Proof.
  intros Hi Hr1 Hr2. unfold make_order. simpl.
  pose proof (Z.rem_bound_pos rand1 10 Hr1 ltac:(lia)) as H1.
  pose proof (Z.rem_bound_pos rand2 10 Hr2 ltac:(lia)) as H2.
  assert (Heven : (Z.rem i 2 =? 0) = Z.even i).
  { rewrite Z.rem_mod_nonneg by lia. rewrite Zeven_mod. done. }
  split; [done|].
  destruct (Z.rem i 2 =? 0).
  - repeat split; try lia; try done.
    + by rewrite Z.rem_mul.
    + unfold INVALID_LEVEL_PRICE. lia.
  - repeat split; try lia; try done.
    + by rewrite Z.rem_mul.
    + unfold INVALID_LEVEL_PRICE. lia.
Qed.

Lemma make_order_ranges_witness :
  order_is_buy (make_order 7 1804289383 846930886) = Z.even 7 ∧
  1884 ≤ order_price (make_order 7 1804289383 846930886) ≤ 1893 ∧
  100 ≤ order_qty (make_order 7 1804289383 846930886) ≤ 1000.
Proof.
  destruct (make_order_ranges 7 1804289383 846930886) as (Hbuy & _ & Hsell & Hqty & _);
    [lia|lia|lia|].
  split; [exact Hbuy|]. split; [apply Hsell; reflexivity|exact Hqty].
Defined.

Section run_test_facts.

Variables OrderBook Order : Type.
Variable add_order_to_book : OrderBook → Order → OrderBook.
Variable clock : nat → Z.
Variable end_time : Z.
Variable INT_MAX : Z.

(** A value in the range of [int] is returned as it is. *)
Lemma to_int_small z :
  - (INT_MAX + 1) ≤ z ≤ INT_MAX → to_int INT_MAX z = z.
Proof.
  intros Hz. unfold to_int. rewrite Z.mod_small by lia. lia.
Qed.

Lemma run_test_from_result rest :
  ∀ order_book o k c,
    0 ≤ c → c + Z.of_nat (length rest) ≤ INT_MAX →
    (run_test_from OrderBook Order add_order_to_book clock end_time INT_MAX
       order_book o rest k c c
       = Some (foldl add_order_to_book order_book (o :: rest), -1) ∧
     ∀ j, (j < length rest)%nat → clock (k + j)%nat < end_time) ∨
    (∃ m, (m < length rest)%nat ∧
       run_test_from OrderBook Order add_order_to_book clock end_time INT_MAX
         order_book o rest k c c
         = Some (foldl add_order_to_book order_book (take (S m) (o :: rest)),
                 c + 1 + Z.of_nat m) ∧
       end_time ≤ clock (k + m)%nat ∧
       ∀ j, (j < m)%nat → clock (k + j)%nat < end_time).
Proof.
  induction rest as [|o' rest IH]; intros order_book o k c Hc Hmax.
  - left. simpl. split; [done|]. intros j Hj. lia.
  - cbn [run_test_from]. cbn [length] in Hmax.
    assert ((c + 1 >? INT_MAX) = false) as -> by lia.
    destruct (Z.ltb_spec (clock k) end_time) as [Hlt|Hge].
    + destruct (IH (add_order_to_book order_book o) o' (S k) (c + 1))
        as [(Hr & Hall)|(m & Hm & Hr & Hend & Hall)]; [lia|lia| |].
      * left. split; [done|]. intros j Hj.
        destruct j as [|j]; [by rewrite Nat.add_0_r|].
        replace (k + S j)%nat with (S k + j)%nat by lia. apply Hall.
        simpl in Hj. lia.
      * right. exists (S m). split; [simpl; lia|]. split.
        -- rewrite Hr. cbn [take foldl]. do 2 f_equal. lia.
        -- split; [by replace (k + S m)%nat with (S k + m)%nat by lia|].
           intros j Hj. destruct j as [|j]; [by rewrite Nat.add_0_r|].
           replace (k + S j)%nat with (S k + j)%nat by lia. apply Hall. lia.
    + right. exists 0%nat. split; [simpl; lia|]. split.
      * rewrite to_int_small by lia. cbn [take foldl]. do 2 f_equal. lia.
      * split; [by rewrite Nat.add_0_r|]. intros j Hj. lia.
Qed.

End run_test_facts.

(** [run_test] on [n] orders followed by NULL, [n - 1 <= INT_MAX] (so
    that its [int] counter does not overflow), adds the orders in turn,
    reading the clock after each but the last.  It returns -1 exactly when
    no reading before the last order reached the deadline, having added
    all [n] orders; otherwise it returns the number [r] of orders it added
    before the first late reading, and [1 <= r <= n - 1]: a run that
    consumes all the orders is always reported as -1. *)
Theorem run_test_result (OrderBook Order : Type)
    (add_order_to_book : OrderBook → Order → OrderBook)
    (clock : nat → Z) (end_time INT_MAX : Z)
    (order_book : OrderBook) (o : Order) (rest : list Order) :
  Z.of_nat (length rest) ≤ INT_MAX →
  ∃ book result,
    run_test OrderBook Order add_order_to_book clock end_time INT_MAX
      order_book o rest = Some (book, result) ∧
    (result = -1 ↔ ∀ j, (j < length rest)%nat → clock j < end_time) ∧
    (result = -1 → book = foldl add_order_to_book order_book (o :: rest)) ∧
    (result ≠ -1 →
       ∃ r, (1 ≤ r ≤ length rest)%nat ∧
         result = Z.of_nat r ∧
         book = foldl add_order_to_book order_book (take r (o :: rest)) ∧
         end_time ≤ clock (r - 1)%nat ∧
         ∀ j, (j < r - 1)%nat → clock j < end_time).
Proof.
  intros Hmax. unfold run_test.
  destruct (run_test_from_result OrderBook Order add_order_to_book clock end_time
              INT_MAX rest order_book o 0%nat 0 ltac:(lia) ltac:(lia))
    as [(Hr & Hall)|(m & Hm & Hr & Hend & Hall)]; simpl in *.
  - eexists _, _. split; [exact Hr|]. split; [done|]. split; [done|]. done.
  - eexists _, _. split; [exact Hr|]. split; [|split].
    + split; [lia|]. intros Hno. specialize (Hno m Hm). lia.
    + lia.
    + intros _. exists (S m). split; [lia|]. split; [lia|].
      split; [done|]. split.
      * by replace (S m - 1)%nat with m by lia.
      * intros j Hj. apply Hall. lia.
Qed.

Lemma run_test_result_witness :
  ∃ book result,
    run_test (list nat) nat (fun b o => o :: b) (fun k => Z.of_nat k) 2 2147483647
      [] 10%nat [11; 12; 13]%nat = Some (book, result) ∧
    (result = -1 ↔ ∀ j, (j < length [11; 12; 13]%nat)%nat → Z.of_nat j < 2) ∧
    (result = -1 → book = foldl (fun b o => o :: b) [] [10; 11; 12; 13]%nat) ∧
    (result ≠ -1 →
       ∃ r, (1 ≤ r ≤ length [11; 12; 13]%nat)%nat ∧
         result = Z.of_nat r ∧
         book = foldl (fun b o => o :: b) [] (take r [10; 11; 12; 13]%nat) ∧
         2 ≤ Z.of_nat (r - 1) ∧
         ∀ j, (j < r - 1)%nat → Z.of_nat j < 2).
Proof.
  apply (run_test_result (list nat) nat (fun b o => o :: b) (fun k => Z.of_nat k)
           2 2147483647 [] 10%nat [11; 12; 13]%nat).
  simpl. lia.
Defined.
